(** * GeoContext MCP server: a shallow embedding of the query-and-delivery core

    The development follows the TypeScript sources:
    - [Spatial]    services/spatial/spatial-index.service.ts
    - [Cache]      services/cache/cache.service.ts
    - [Batch]      services/batch/batch.service.ts
    - [Route]      services/routing/routing.service.ts (POI discovery)
    - [Webhook]    services/webhooks/webhook.service.ts
    - [Validation] middleware/validation.middleware.ts, utils/helpers.ts
    - [Handlers]   index.ts (tool handlers), services/routing/routing.service.ts
    - [RateLimiter] middleware/rate-limiter.middleware.ts
    - [Metrics]    middleware/metrics.middleware.ts
    - [OSM]        services/enrichment/openstreetmap.service.ts

    JavaScript numbers are modelled as the exact rationals they denote ([Q]),
    and results of floating-point arithmetic that are only reported as the
    operations that yield them ([Double]); the places where the source can
    produce [NaN] are modelled explicitly.  Third-party
    libraries (turf, rbush, node-cache, p-queue, zod, axios) are not part of
    the repository: they appear as section variables or as small executable
    models whose contract is stated next to them. *)

From Stdlib Require Import ZArith QArith Qabs Qround Lia Lqa List Sorted Permutation.
From Stdlib Require DecimalString DecimalN.
From Stdlib Require Import Ascii.
From stdpp Require Import gmap strings list.

Open Scope string_scope.
Open Scope list_scope.

(** ** Types shared by the services (types/index.ts) *)

Record Location := mkLocation { lat : Q; lng : Q }.

Inductive PinType := poi | historical | landmark | event | cultural | natural.

Record PinData := mkPinData {
  name : string;
  description : string;
  category : list string
}.

(** [GeoPin]: the provenance metadata is never read by the functions modelled
    here and is left out. *)
Record GeoPin := mkGeoPin {
  id : string;
  location : Location;
  radius : Q;
  type : PinType;
  data : PinData
}.

(** ** Object literals used as tables

    [schemaMap] and the [configs] of the rate limiter are object literals
    that are looked up by tool name.  Such a lookup also finds what every
    object inherits from [Object.prototype]: for the names below it yields a
    function (for [__proto__], the prototype itself), which is truthy and
    has none of the properties of the values in the table. *)
Definition objectPrototype : list string :=
  ["constructor"; "__defineGetter__"; "__defineSetter__"; "hasOwnProperty";
   "__lookupGetter__"; "__lookupSetter__"; "isPrototypeOf";
   "propertyIsEnumerable"; "toString"; "valueOf"; "__proto__";
   "toLocaleString"].

Definition inherited (name : string) : bool :=
  existsb (String.eqb name) objectPrototype.

(** ** Numbers that are computed to be reported

    A mean, a rate or an estimate is the result of floating-point divisions
    and multiplications; the code stores and reports it and never computes
    with it again.  Such a number is kept as the operations on their
    operands, which determine the double that JavaScript stores. *)
Inductive Double :=
  | Exact (q : Q)
  | Div (a b : Double)
  | Mul (a b : Double).

(** ** Spatial index *)

Module Spatial.

(** [RBush.BBox] *)
Record BBox := mkBBox { minX : Q; minY : Q; maxX : Q; maxY : Q }.

(** [interface SpatialItem extends RBush.BBox] *)
Record SpatialItem := mkSpatialItem { box : BBox; pin : GeoPin }.

(** *** rbush

    The rectangle tree is viewed as the sequence of its entries.  [insert]
    adds one entry, [all] lists the entries, [search] returns the entries whose
    box intersects the query box.  [remove item equals] walks the tree
    depth-first, descending only into nodes whose box contains the box of
    [item], and splices out the first entry [a] it meets with
    [equals item a]; when it meets none the tree is unchanged.  Which leaves
    the walk visits depends on the shape of the tree, abstracted by
    [descends]: an entry whose own box contains the box of [item] lies below
    nodes that all contain it, so it is always visited
    ([descends_contains]). *)

Definition RBush := list SpatialItem.

Definition intersects (a b : BBox) : bool :=
  Qle_bool (minX b) (maxX a) && Qle_bool (minY b) (maxY a) &&
  Qle_bool (minX a) (maxX b) && Qle_bool (minY a) (maxY b).

Definition contains (a b : BBox) : bool :=
  Qle_bool (minX a) (minX b) && Qle_bool (minY a) (minY b) &&
  Qle_bool (maxX b) (maxX a) && Qle_bool (maxY b) (maxY a).

Definition rb_insert (item : SpatialItem) (t : RBush) : RBush := t ++ [item].

Definition rb_all (t : RBush) : list SpatialItem := t.

Definition rb_search (b : BBox) (t : RBush) : list SpatialItem :=
  List.filter (fun a => intersects b (box a)) t.

Fixpoint remove_first {A} (f : A -> bool) (l : list A) : list A :=
  match l with
  | [] => []
  | x :: l' => if f x then l' else x :: remove_first f l'
  end.

Definition rb_remove (descends : BBox -> SpatialItem -> bool)
    (item : SpatialItem) (equals : SpatialItem -> SpatialItem -> bool)
    (t : RBush) : RBush :=
  remove_first (fun a => descends (box item) a && equals item a) t.

(** A tree that is a single leaf (at most 9 entries with rbush's default
    node size) is searched without any box test. *)
Definition single_leaf (_ : BBox) (_ : SpatialItem) : bool := true.

(** *** Array.prototype.sort with a numeric comparator

    The sort is stable; [cmp a b <= 0] keeps [a] before [b]. *)

Fixpoint sort_insert {A} (cmp : A -> A -> Q) (x : A) (l : list A) : list A :=
  match l with
  | [] => [x]
  | y :: l' => if Qle_bool (cmp x y) 0%Q then x :: y :: l'
               else y :: sort_insert cmp x l'
  end.

Fixpoint sort {A} (cmp : A -> A -> Q) (l : list A) : list A :=
  match l with
  | [] => []
  | x :: l' => sort_insert cmp x (sort cmp l')
  end.

(** The order a sort by [key] establishes. *)
Definition key_le {A} (key : A -> Q) (a b : A) : Prop := (key a <= key b)%Q.

(** *** The service *)

Record SpatialIndexService := mkService {
  index : RBush;
  pinMap : gmap string GeoPin
}.

Definition empty : SpatialIndexService := mkService [] ∅.

Record Stats := mkStats { totalPins : nat; indexSize : nat }.

Section Service.

(** [bufferBBox loc r] is [turf.bbox(turf.buffer(turf.point([lng, lat]), r,
    {units: 'meters'}))]; [None] when one of the three calls throws.
    [distance a b] is [turf.distance] in meters. *)
Variable bufferBBox : Location -> Q -> option BBox.
Variable distance : Location -> Location -> Q.
Variable descends : BBox -> SpatialItem -> bool.

Definition addPin (p : GeoPin) (s : SpatialIndexService) : SpatialIndexService :=
  match bufferBBox (location p) (radius p) with
  | Some bbox =>
      let spatialItem := mkSpatialItem bbox p in
      mkService (rb_insert spatialItem (index s)) (<[id p := p]> (pinMap s))
  | None => s
  end.

Definition same_id (a b : SpatialItem) : bool :=
  String.eqb (id (pin a)) (id (pin b)).

Definition removePin (pinId : string) (s : SpatialIndexService)
    : bool * SpatialIndexService :=
  match pinMap s !! pinId with
  | None => (false, s)
  | Some p =>
      match bufferBBox (location p) (radius p) with
      | Some bbox =>
          let spatialItem := mkSpatialItem bbox p in
          (true, mkService (rb_remove descends spatialItem same_id (index s))
                           (delete pinId (pinMap s)))
      | None => (false, s)
      end
  end.

Definition queryByRadius (loc : Location) (radiusMeters : Q)
    (s : SpatialIndexService) : list GeoPin :=
  match bufferBBox loc radiusMeters with
  | Some bbox =>
      let candidates := rb_search bbox (index s) in
      map fst
        (sort (fun a b => (snd a - snd b)%Q)
           (List.filter (fun item => Qle_bool (snd item) radiusMeters)
              (map (fun item => (pin item, distance loc (location (pin item))))
                 candidates)))
  | None => []
  end.

Definition getStats (s : SpatialIndexService) : Stats :=
  mkStats (size (pinMap s)) (length (rb_all (index s))).

(** [Array.prototype.slice(0, k)] for an integer [k]: a negative [k] counts
    from the end. *)
Definition slice0 {A} (k : Z) (l : list A) : list A :=
  if (k <? 0)%Z then firstn (length l - Z.to_nat (- k)) l
  else firstn (Z.to_nat k) l.

Definition queryByBoundingBox (west south east north : Q)
    (s : SpatialIndexService) : list GeoPin :=
  map pin (rb_search (mkBBox west south east north) (index s)).

(** [polygonBBox g] is [turf.bbox(g)] ([None] when it throws) and
    [booleanPointInPolygon l g] is the turf predicate, for a polygon type
    [Polygon] that is left open. *)
Definition queryByPolygon {Polygon : Type}
    (polygonBBox : Polygon -> option BBox)
    (booleanPointInPolygon : Location -> Polygon -> bool)
    (polygon : Polygon) (s : SpatialIndexService) : list GeoPin :=
  match polygonBBox polygon with
  | Some bbox =>
      let candidates := rb_search bbox (index s) in
      map pin
        (List.filter
           (fun item => booleanPointInPolygon (location (pin item)) polygon)
           candidates)
  | None => []
  end.

(** [Array.from(this.pinMap.values())].  JavaScript lists the values in
    insertion order; [map_to_list] lists them in an order of its own, which
    the statements below do not depend on. *)
Definition getAllPins (s : SpatialIndexService) : list GeoPin :=
  map snd (map_to_list (pinMap s)).

Definition getPinById (pinId : string) (s : SpatialIndexService) : option GeoPin :=
  pinMap s !! pinId.

Definition getNearestPins (loc : Location) (k : Z) (s : SpatialIndexService)
    : list GeoPin :=
  let allPins := getAllPins s in
  let pinsWithDistance :=
    map (fun p => (p, distance loc (location p))) allPins in
  map fst (slice0 k (sort (fun a b => (snd a - snd b)%Q) pinsWithDistance)).

Definition clear (s : SpatialIndexService) : SpatialIndexService := empty.

(** [p] is at most as far from [loc] as [q]. *)
Definition farther (loc : Location) (p q : GeoPin) : Prop :=
  (distance loc (location p) <= distance loc (location q))%Q.

(** Every entry of the tree carries the box that turf computes for its pin. *)
Definition boxes_ok (s : SpatialIndexService) : Prop :=
  Forall (fun a => bufferBBox (location (pin a)) (radius (pin a)) = Some (box a))
         (index s).

Definition within (loc : Location) (r : Q) (p : GeoPin) : bool :=
  Qle_bool (distance loc (location p)) r.

(** The contract of the coarse filter: the box turf computes around a query
    disc meets the box of every indexed pin that lies in the disc. *)
Definition buffer_covers : Prop :=
  forall loc r bbox p pbox,
    bufferBBox loc r = Some bbox ->
    bufferBBox (location p) (radius p) = Some pbox ->
    (distance loc (location p) <= r)%Q ->
    intersects bbox pbox = true.

(** The contract of rbush's descent, see [Spatial.rb_remove]. *)
Definition descends_contains : Prop :=
  forall b a, contains (box a) b = true -> descends b a = true.

(** Every tracked pin is filed under its own id and has an entry in the tree
    that carries the box turf computes for it. *)
Definition tracked_stored (s : SpatialIndexService) : Prop :=
  forall pinId p, pinMap s !! pinId = Some p ->
    id p = pinId /\
    exists bbox, bufferBBox (location p) (radius p) = Some bbox /\
                 In (mkSpatialItem bbox p) (index s).

(** Sequences of index operations. *)
Inductive op := Add (p : GeoPin) | Remove (pinId : string).

Definition apply_op (o : op) (s : SpatialIndexService) : SpatialIndexService :=
  match o with
  | Add p => addPin p s
  | Remove pinId => snd (removePin pinId s)
  end.

Definition run (ops : list op) (s : SpatialIndexService) : SpatialIndexService :=
  fold_left (fun s o => apply_op o s) ops s.

(** A sequence of operations that never inserts an id while it is tracked. *)
Fixpoint fresh_inserts (ops : list op) (s : SpatialIndexService) : Prop :=
  match ops with
  | [] => True
  | o :: ops' =>
      match o with
      | Add p => pinMap s !! id p = None
      | Remove _ => True
      end /\ fresh_inserts ops' (apply_op o s)
  end.

(** The tree entries and the lookup table hold the same pins. *)
Definition in_step (s : SpatialIndexService) : Prop :=
  Permutation (map (fun a => (id (pin a), pin a)) (index s))
              (map_to_list (pinMap s)).

End Service.

(** *** A flat-earth stand-in for turf

    Used to run the service on concrete inputs: one degree is 111320 m in
    both directions, the buffer of a point is the square of half-side [r]
    (turf returns no geometry for a buffer that is not positive), and the
    distance is the taxicab distance. *)

Definition metersPerDegree : Q := 111320%Q.

Definition flatBBox (loc : Location) (r : Q) : option BBox :=
  if Qle_bool r 0%Q then None
  else
    let d := (r / metersPerDegree)%Q in
    Some (mkBBox (lng loc - d)%Q (lat loc - d)%Q (lng loc + d)%Q (lat loc + d)%Q).

Definition flatDistance (a b : Location) : Q :=
  ((Qabs (lat a - lat b) + Qabs (lng a - lng b)) * metersPerDegree)%Q.

(** Concrete pins: two pins that share the identifier ["pin_x"] and sit at
    different places, and a third pin with an identifier of its own. *)
Definition pinA : GeoPin :=
  mkGeoPin "pin_x" (mkLocation 51.5074%Q (-0.1278)%Q) 100%Q landmark
           (mkPinData "Big Ben" "Clock tower" []).

Definition pinB : GeoPin :=
  mkGeoPin "pin_x" (mkLocation 51.5080%Q (-0.1281)%Q) 100%Q landmark
           (mkPinData "Big Ben (moved)" "Clock tower" []).

(** The two markers of the end-to-end scenario. *)
Definition marker1 : GeoPin :=
  mkGeoPin "pin_1" (mkLocation 51.5074%Q (-0.1278)%Q) 100%Q landmark
           (mkPinData "First" "First marker" []).

Definition marker2 : GeoPin :=
  mkGeoPin "pin_2" (mkLocation 51.5080%Q (-0.1281)%Q) 100%Q landmark
           (mkPinData "Second" "Second marker" []).

Definition pinC : GeoPin :=
  mkGeoPin "pin_y" (mkLocation 51.5033%Q (-0.1195)%Q) 50%Q poi
           (mkPinData "London Eye" "Observation wheel" []).

(** *** A pin that is changed after it was inserted

    [addPin] files the object it is given, not a copy: the tree entry and
    the lookup table hold the caller's pin.  When the caller assigns to a
    field of that object, the pin of both changes with it, and the box of
    the entry stays as computed at insertion.  [assign pinId f] is such an
    assignment to the object filed under [pinId]. *)
Definition assign (pinId : string) (f : GeoPin -> GeoPin)
    (s : SpatialIndexService) : SpatialIndexService :=
  mkService
    (map (fun a => if String.eqb (id (pin a)) pinId
                   then mkSpatialItem (box a) (f (pin a)) else a) (index s))
    (alter f pinId (pinMap s)).

(** [pin.location = loc] *)
Definition moveTo (loc : Location) (p : GeoPin) : GeoPin :=
  mkGeoPin (id p) loc (radius p) (type p) (data p).

(** Ten vehicles in a row.  With rbush's node size of 9 the tenth insert
    splits the root leaf: the root becomes an inner node over two leaves and
    its box is the box around all ten entries ([distBBox]).  [remove] goes
    below an inner node only when the box of that node contains the box of
    the item it is given, and then tries each leaf below it
    ([two_level]). *)
Definition vehicle (i : nat) : GeoPin :=
  mkGeoPin (String "v" (String (ascii_of_nat (48 + i)) ""))
           (mkLocation (51.5 + inject_Z (Z.of_nat i) / 1000)%Q (-0.12)%Q) 100%Q poi
           (mkPinData "Vehicle" "Delivery van" []).

Definition fleet : list GeoPin := map vehicle (seq 0 10).

Definition extend (a b : BBox) : BBox :=
  let min x y := if Qle_bool x y then x else y in
  let max x y := if Qle_bool x y then y else x in
  mkBBox (min (minX a) (minX b)) (min (minY a) (minY b))
         (max (maxX a) (maxX b)) (max (maxY a) (maxY b)).

Definition distBBox (t : RBush) : option BBox :=
  match t with
  | [] => None
  | a :: t' => Some (fold_left (fun acc x => extend acc (box x)) t' (box a))
  end.

Definition two_level (root : BBox) (b : BBox) (a : SpatialItem) : bool :=
  contains root b || contains (box a) b.

End Spatial.

(** ** Cache layer *)

Module Cache.

Section Cache.

(** The type of cached values.  A value of TypeScript type [T | undefined]
    is an [option V]; [None] is [undefined]. *)
Variable V : Type.

Record CacheEntry := mkEntry {
  data : option V;
  timestamp : Z;
  hits : nat
}.

(** *** node-cache

    Each key holds a value and the time [t] (in ms) after which it is
    expired, [0] for never.  [nc_set] with no TTL uses [stdTTL]; a TTL of
    [0] means no expiry; TTLs are in seconds.  [nc_get] deletes a key it
    finds expired (deleteOnExpire is on by default).  No [maxKeys] is
    configured, so [nc_set] always succeeds. *)

Record NodeCache := mkNodeCache {
  stdTTL : Z;
  store : gmap string (CacheEntry * Z)
}.

Definition livetime (now : Z) (ttl : option Z) (c : NodeCache) : Z :=
  match ttl with
  | Some 0%Z => 0
  | Some t => now + t * 1000
  | None => if (stdTTL c =? 0)%Z then 0 else now + stdTTL c * 1000
  end.

Definition nc_set (now : Z) (key : string) (v : CacheEntry) (ttl : option Z)
    (c : NodeCache) : bool * NodeCache :=
  (true, mkNodeCache (stdTTL c) (<[key := (v, livetime now ttl c)]> (store c))).

Definition nc_get (now : Z) (key : string) (c : NodeCache)
    : option CacheEntry * NodeCache :=
  match store c !! key with
  | Some (v, t) =>
      if negb (t =? 0)%Z && (t <? now)%Z
      then (None, mkNodeCache (stdTTL c) (delete key (store c)))
      else (Some v, c)
  | None => (None, c)
  end.

(** *** The service *)

Record Stats := mkStats { st_hits : nat; st_misses : nat; st_sets : nat; st_deletes : nat }.

Record CacheService := mkCacheService {
  cache : NodeCache;
  stats : Stats
}.

(** [config.isFeatureEnabled('cache')] *)
Variable cacheEnabled : bool.

Definition get (now : Z) (key : string) (s : CacheService)
    : option V * CacheService :=
  if negb cacheEnabled then (None, s)
  else
    match nc_get now key (cache s) with
    | (Some entry, c) =>
        let st := stats s in
        let entry' := mkEntry (data entry) (timestamp entry) (S (hits entry)) in
        (data entry',
         mkCacheService (snd (nc_set now key entry' None c))
           (mkStats (S (st_hits st)) (st_misses st) (st_sets st) (st_deletes st)))
    | (None, c) =>
        let st := stats s in
        (None,
         mkCacheService c
           (mkStats (st_hits st) (S (st_misses st)) (st_sets st) (st_deletes st)))
    end.

(** [ttl ? this.cache.set(key, entry, ttl) : this.cache.set(key, entry)] *)
Definition truthy (ttl : option Z) : bool :=
  match ttl with
  | Some t => negb (t =? 0)%Z
  | None => false
  end.

Definition set (now : Z) (key : string) (value : option V) (ttl : option Z)
    (s : CacheService) : bool * CacheService :=
  if negb cacheEnabled then (false, s)
  else
    let entry := mkEntry value now 0 in
    let (success, c) :=
      if truthy ttl then nc_set now key entry ttl (cache s)
      else nc_set now key entry None (cache s) in
    let st := stats s in
    if success
    then (true, mkCacheService c
                  (mkStats (st_hits st) (st_misses st) (S (st_sets st)) (st_deletes st)))
    else (false, mkCacheService c st).

(** [del] removes a key whether or not it is expired and reports how many
    keys it removed; [has] tests the TTL as [get] does; [keys] lists what is
    stored; [flushAll] empties the store.  [nc_sweep] is the periodic check
    that removes the expired keys. *)
Definition nc_del (key : string) (c : NodeCache) : nat * NodeCache :=
  match store c !! key with
  | Some _ => (1%nat, mkNodeCache (stdTTL c) (delete key (store c)))
  | None => (0%nat, c)
  end.

Definition nc_has (now : Z) (key : string) (c : NodeCache) : bool * NodeCache :=
  match nc_get now key c with
  | (Some _, c') => (true, c')
  | (None, c') => (false, c')
  end.

Definition nc_keys (c : NodeCache) : list string := map fst (map_to_list (store c)).

Definition nc_flushAll (c : NodeCache) : NodeCache := mkNodeCache (stdTTL c) ∅.

Definition nc_sweep (now : Z) (c : NodeCache) : NodeCache :=
  mkNodeCache (stdTTL c)
    (filter (fun kv => negb (negb (snd (snd kv) =? 0)%Z && (snd (snd kv) <? now)%Z) = true)
            (store c)).

Definition delete_ (key : string) (s : CacheService) : bool * CacheService :=
  let (n, c) := nc_del key (cache s) in
  let st := stats s in
  if (0 <? n)%nat
  then (true, mkCacheService c
                (mkStats (st_hits st) (st_misses st) (st_sets st) (S (st_deletes st))))
  else (false, mkCacheService c st).

Definition flush (s : CacheService) : CacheService :=
  mkCacheService (nc_flushAll (cache s)) (stats s).

Definition has (now : Z) (key : string) (s : CacheService) : bool * CacheService :=
  let (b, c) := nc_has now key (cache s) in (b, mkCacheService c (stats s)).

Definition keys (s : CacheService) : list string := nc_keys (cache s).

(** [getStats]: the counters and [keys().length]. *)
Definition getStats (s : CacheService) : Stats * nat :=
  (stats s, length (keys s)).

(** Sequences of cache operations, each at its time on the clock. *)
Inductive op :=
  | Get (now : Z) (key : string)
  | Set_ (now : Z) (key : string) (value : option V) (ttl : option Z)
  | Delete (key : string)
  | Has (now : Z) (key : string)
  | Flush
  | Sweep (now : Z).

Definition apply_op (o : op) (s : CacheService) : CacheService :=
  match o with
  | Get now key => snd (get now key s)
  | Set_ now key value ttl => snd (set now key value ttl s)
  | Delete key => snd (delete_ key s)
  | Has now key => snd (has now key s)
  | Flush => flush s
  | Sweep now => mkCacheService (nc_sweep now (cache s)) (stats s)
  end.

Definition run (ops : list op) (s : CacheService) : CacheService :=
  fold_left (fun s o => apply_op o s) ops s.

Definition count (f : op -> bool) (ops : list op) : nat :=
  length (List.filter f ops).

(** What a run with so many gets, sets and deletes does to the service. *)
Definition accounted (gets sets dels : nat) (s s' : CacheService) : Prop :=
  (st_hits (stats s') + st_misses (stats s') =
   st_hits (stats s) + st_misses (stats s) + (if cacheEnabled then gets else 0))%nat /\
  (st_sets (stats s') = st_sets (stats s) + (if cacheEnabled then sets else 0))%nat /\
  (st_deletes (stats s') <= st_deletes (stats s) + dels)%nat /\
  stdTTL (cache s') = stdTTL (cache s) /\
  (cacheEnabled = false ->
   forall k x, store (cache s') !! k = Some x -> store (cache s) !! k = Some x).

Definition isGet (o : op) : bool := match o with Get _ _ => true | _ => false end.
Definition isSet (o : op) : bool := match o with Set_ _ _ _ _ => true | _ => false end.
Definition isDelete (o : op) : bool := match o with Delete _ => true | _ => false end.

(** The world in which [wrap] runs: a clock (ms) and the number of times the
    compute function has been invoked. *)
Record World := mkWorld { now : Z; calls : nat }.

Inductive Outcome := Resolved (v : option V) | Rejected (err : string).

(** A compute function [fn : () => Promise<T>]: at its [n]-th invocation
    it settles with an outcome after some latency (ms). *)
Definition Compute := nat -> Outcome * Z.

Definition wrap (key : string) (fn : Compute) (ttl : option Z)
    (sw : CacheService * World) : Outcome * (CacheService * World) :=
  let (s, w) := sw in
  let (cached, s1) := get (now w) key s in
  match cached with
  | Some v => (Resolved (Some v), (s1, w))
  | None =>
      let (o, latency) := fn (calls w) in
      let w' := mkWorld (now w + latency) (S (calls w)) in
      match o with
      | Resolved result =>
          (Resolved result, (snd (set (now w') key result ttl s1), w'))
      | Rejected err => (Rejected err, (s1, w'))
      end
  end.

(** The two halves of [wrap] on either side of its [await fn()]: up to the
    call of the function, and from its result on.  Between them other code
    runs, a second call of [wrap] for one. *)
Definition wrap_call (key : string) (fn : Compute) (sw : CacheService * World)
    : (Outcome + Outcome * Z) * (CacheService * World) :=
  let (s, w) := sw in
  let (cached, s1) := get (now w) key s in
  match cached with
  | Some v => (inl (Resolved (Some v)), (s1, w))
  | None => (inr (fn (calls w)), (s1, mkWorld (now w) (S (calls w))))
  end.

Definition wrap_resume (key : string) (ttl : option Z) (settled : Outcome)
    (at_ : Z) (s : CacheService) : Outcome * CacheService :=
  match settled with
  | Resolved result => (Resolved result, snd (set at_ key result ttl s))
  | Rejected err => (Rejected err, s)
  end.

(** Time passing between two calls. *)
Definition later (dt : Z) (sw : CacheService * World) : CacheService * World :=
  (fst sw, mkWorld (now (snd sw) + dt) (calls (snd sw))).

(** The TTL (seconds) under which [set] stores an entry. *)
Definition effectiveTTL (ttl : option Z) (c : NodeCache) : Z :=
  match ttl with
  | Some t => if (t =? 0)%Z then stdTTL c else t
  | None => stdTTL c
  end.

(** [dt] ms after a store, an entry stored under [ttl] seconds is still live. *)
Definition within_ttl (ttl dt : Z) : Prop := (ttl = 0 \/ dt <= ttl * 1000)%Z.

End Cache.

Arguments mkEntry {V}.
Arguments mkNodeCache {V}.
Arguments mkCacheService {V}.
Arguments Resolved {V}.
Arguments Rejected {V}.
Arguments Get {V}.
Arguments Set_ {V}.
Arguments Delete {V}.
Arguments Has {V}.
Arguments Flush {V}.
Arguments Sweep {V}.

(** A fresh service with the default TTL of one hour ([CACHE_TTL]). *)
Definition fresh (V : Type) : CacheService V :=
  mkCacheService (mkNodeCache 3600 ∅) (mkStats 0 0 0 0).

(** [createKey(...components)] is [components.join(':')]; the components
    are given as the strings JavaScript renders them to. *)
Definition createKey (components : list string) : string :=
  String.concat ":" components.

(** A string without a colon. *)
Fixpoint colon_free (s : string) : bool :=
  match s with
  | EmptyString => true
  | String c s' => negb (Ascii.eqb c ":"%char) && colon_free s'
  end.

(** A compute function that always resolves to the same value after 250 ms. *)
Definition constant {V} (v : option V) : Compute V := fun _ => (Resolved v, 250%Z).

End Cache.

(** ** Batch processing: generateRouteBatch on a p-queue *)

Module Batch.

Section Batch.

(** [RouteResponse], produced by [routingService.generateRoute]. *)
Variable RouteResponse : Type.

Record BatchRouteResult := mkResult {
  index : nat;
  success : bool;
  data : option RouteResponse;
  error : option string
}.

Definition stopped (i : nat) : BatchRouteResult :=
  mkResult i false None (Some "Batch processing stopped due to previous error").

(** How [routingService.generateRoute] settles. *)
Inductive Outcome := Fulfilled (routeResponse : RouteResponse) | Rejected (errorMessage : string).

(** A task added to the queue waits, then runs up to its [await], then
    returns its result. *)
Inductive Task := Queued | Running | Settled (r : BatchRouteResult).

Definition isQueued (t : Task) : bool :=
  match t with Queued => true | _ => false end.

Definition isRunning (t : Task) : bool :=
  match t with Running => true | _ => false end.

(** The state of one batch: the shared flag, the task of each request by
    index, and the indices for which [generateRoute] has been called. *)
Record BatchRun := mkRun {
  shouldStop : bool;
  tasks : list Task;
  generated : list nat
}.

Definition init (n : nat) : BatchRun := mkRun false (replicate n Queued) [].

(** The two things that happen in a batch.  [Start i]: the queue has a free
    slot and takes task [i], the oldest waiting one; the task body runs up
    to its first [await].  [Settle i o]: the call made by the running task
    [i] settles with [o] and the body runs to its [return]. *)
Inductive Event := Start (i : nat) | Settle (i : nat) (o : Outcome).

Variable failFast : bool.
Variable concurrency : nat.

Definition pending (st : BatchRun) : nat :=
  length (List.filter isRunning (tasks st)).

Definition step (e : Event) (st : BatchRun) : option BatchRun :=
  match e with
  | Start i =>
      match tasks st !! i with
      | Some Queued =>
          if forallb (fun t => negb (isQueued t)) (take i (tasks st))
             && (pending st <? concurrency)%nat
          then
            if shouldStop st
            then Some (mkRun (shouldStop st)
                             (<[i := Settled (stopped i)]> (tasks st))
                             (generated st))
            else Some (mkRun (shouldStop st)
                             (<[i := Running]> (tasks st))
                             (generated st ++ [i]))
          else None
      | _ => None
      end
  | Settle i o =>
      match tasks st !! i with
      | Some Running =>
          match o with
          | Fulfilled routeResponse =>
              Some (mkRun (shouldStop st)
                          (<[i := Settled (mkResult i true (Some routeResponse) None)]>
                             (tasks st))
                          (generated st))
          | Rejected errorMessage =>
              Some (mkRun (if failFast then true else shouldStop st)
                          (<[i := Settled (mkResult i false None (Some errorMessage))]>
                             (tasks st))
                          (generated st))
          end
      | _ => None
      end
  end.

(** A task that has not run: it still waits, or it has returned the
    synthetic failure; [generateRoute] was not called for it. *)
Definition not_executed (st : BatchRun) (i : nat) : Prop :=
  (tasks st !! i = Some Queued \/
   tasks st !! i = Some (Settled (stopped i))) /\
  ~ In i (generated st).

(** A task for which [generateRoute] was called and rejected. *)
Definition really_failed (st : BatchRun) (j : nat) : Prop :=
  In j (generated st) /\
  exists errorMessage,
    tasks st !! j = Some (Settled (mkResult j false None (Some errorMessage))).

Definition inv (st : BatchRun) : Prop :=
  (forall i, In i (generated st) -> tasks st !! i <> Some Queued) /\
  (forall i, tasks st !! i = Some Running -> In i (generated st)) /\
  (shouldStop st = true -> failFast = true /\ exists j, really_failed st j).

(** What holds of the tasks at every point of a batch: a returned result
    carries the index of its request; a task that returned without a call of
    [generateRoute] did so under the flag, with the synthetic failure; the
    waiting tasks are the last ones; and every task that returned without a
    call comes after every task that made one. *)
Definition ordered (st : BatchRun) : Prop :=
  (forall i, In i (generated st) -> i < length (tasks st)) /\
  (forall i r, tasks st !! i = Some (Settled r) -> index r = i) /\
  (forall j r, tasks st !! j = Some (Settled r) -> ~ In j (generated st) ->
     shouldStop st = true /\ r = stopped j) /\
  (forall i j t, i < j -> tasks st !! i = Some Queued -> tasks st !! j = Some t ->
     t = Queued) /\
  (forall i j r, In i (generated st) -> tasks st !! j = Some (Settled r) ->
     ~ In j (generated st) -> i < j).

Fixpoint exec (es : list Event) (st : BatchRun) : option BatchRun :=
  match es with
  | [] => Some st
  | e :: es' =>
      match step e st with
      | Some st' => exec es' st'
      | None => None
      end
  end.

(** The response once every task has returned. *)
Record BatchRouteResponse := mkResponse {
  totalRequests : nat;
  successful : nat;
  failed : nat;
  results : list BatchRouteResult
}.

Definition settled (t : Task) : option BatchRouteResult :=
  match t with Settled r => Some r | _ => None end.

Definition response (st : BatchRun) : option BatchRouteResponse :=
  if forallb (fun t => match t with Settled _ => true | _ => false end) (tasks st)
  then
    let results := omap settled (tasks st) in
    Some (mkResponse (length (tasks st))
                     (length (List.filter success results))
                     (length (List.filter (fun r => negb (success r)) results))
                     results)
  else None.

End Batch.

Arguments Fulfilled {RouteResponse}.
Arguments Rejected {RouteResponse}.
Arguments Queued {RouteResponse}.
Arguments Running {RouteResponse}.
Arguments Settled {RouteResponse}.
Arguments Start {RouteResponse}.
Arguments Settle {RouteResponse}.

(** The scenario of the specification: five requests, two slots, the third
    request is rejected while the second is still in flight. *)
Definition before_stop : list (Event string) :=
  [Start 0; Start 1; Settle 0 (Fulfilled "route_0"); Start 2;
   Settle 2 (Rejected "Failed to generate route")].

Definition after_stop : list (Event string) :=
  [Start 3; Settle 1 (Fulfilled "route_1"); Start 4].

End Batch.

(** ** Route enrichment: discoverPOIsAlongRoute *)

Module Route.

(** *** Number.prototype.toFixed

    [n] is the integer for which [n / 10^f] is closest to [|x|], the larger
    one on a tie; its decimal digits are padded with zeros to [f + 1] digits
    and the point is put before the last [f]; a negative [x] keeps its
    sign even when [n] is [0].  (From [10^21] on JavaScript switches to
    exponent notation; coordinates are far below.) *)

Definition isNegative (x : Q) : bool := negb (Qle_bool 0%Q x).

Definition scaled (f : nat) (x : Q) : Z :=
  Qfloor (Qabs x * inject_Z (10 ^ Z.of_nat f) + (1 # 2))%Q.

Definition digits (n : Z) : string :=
  DecimalString.NilZero.string_of_uint (N.to_uint (Z.to_N n)).

Fixpoint zeros (k : nat) : string :=
  match k with
  | O => ""
  | S k' => ("0" ++ zeros k')%string
  end.

Definition toFixed (f : nat) (x : Q) : string :=
  let s := if isNegative x then "-" else "" in
  let m := digits (scaled f x) in
  let m := (zeros (S f - String.length m) ++ m)%string in
  let k := String.length m in
  let m := match f with
           | O => m
           | _ => (String.substring 0 (k - f) m ++ "." ++ String.substring (k - f) f m)%string
           end in
  (s ++ m)%string.

(** [`${pin.location.lat.toFixed(5)},${pin.location.lng.toFixed(5)}`] *)
Definition key (p : GeoPin) : string :=
  (toFixed 5 (lat (location p)) ++ "," ++ toFixed 5 (lng (location p)))%string.

(** *** Map<string, GeoPin>: the entries in insertion order *)

Definition JsMap := list (string * GeoPin).

Definition has (k : string) (m : JsMap) : bool :=
  existsb (fun e => String.eqb (fst e) k) m.

(** [set] of a key that is not present. *)
Definition set_new (k : string) (p : GeoPin) (m : JsMap) : JsMap := m ++ [(k, p)].

Definition values (m : JsMap) : list GeoPin := map snd m.

(** The [forEach] that fills [uniquePins]. *)
Definition addUnique (uniquePins : JsMap) (p : GeoPin) : JsMap :=
  if has (key p) uniquePins then uniquePins else set_new (key p) p uniquePins.

Definition deduplicate (allPins : list GeoPin) : list GeoPin :=
  values (fold_left addUnique allPins []).

Definition well_keyed (m : JsMap) : Prop :=
  forall e, In e m -> fst e = key (snd e).

(** [q] occurs in [l] with no pin of the same key before it. *)
Definition first_with_key (q : GeoPin) (l : list GeoPin) : Prop :=
  exists l1 l2, l = l1 ++ q :: l2 /\ forall x, In x l1 -> key x <> key q.

(** *** Sampling *)

Definition Math_min (a b : Q) : Q := if Qle_bool a b then a else b.

Definition sampleInterval (routeLength : Q) : Q :=
  Math_min 1000%Q (routeLength / 10)%Q.

(** [Math.floor(routeLength / sampleInterval)]; [None] is [NaN], the value
    of [0 / 0].  The interval is [0] only for a route of length [0]. *)
Definition numSamples (routeLength : Q) : option Z :=
  if Qeq_bool (sampleInterval routeLength) 0%Q then None
  else Some (Qfloor (routeLength / sampleInterval routeLength)%Q).

(** The values of [i] for which [i <= numSamples] holds, from [0] up; no
    comparison with [NaN] holds. *)
Definition sampleIndices (routeLength : Q) : list nat :=
  match numSamples routeLength with
  | Some n => if (n <? 0)%Z then [] else seq 0 (S (Z.to_nat n))
  | None => []
  end.

(** [i * sampleInterval] for each index, as exact numbers.  JavaScript rounds
    each product to a double; the two agree where the product is itself a
    double, as for the whole intervals of the scenarios below, and the
    general results use how many distances there are, not their values. *)
Definition sampleDistances (routeLength : Q) : list Q :=
  map (fun i => (inject_Z (Z.of_nat i) * sampleInterval routeLength)%Q)
      (sampleIndices routeLength).

Section Discover.

(** [along d] is [turf.along(route, d, {units: 'meters'})] and [routeLength]
    is [turf.length(route, {units: 'meters'})] for the route at hand;
    [fetchPOIsNearLocation] is the lookup of the OpenStreetMap service,
    [None] when its promise is rejected. *)
Variable routeLength : Q.
Variable along : Q -> Location.
Variable fetchPOIsNearLocation :
  Location -> Q -> option (list string) -> option (list GeoPin).

(** The lookups pushed onto [samplePromises], one per sample. *)
Definition sampleLookups : list Location := map along (sampleDistances routeLength).

(** [Promise.all]: every result, or a rejection. *)
Fixpoint Promise_all {A} (ps : list (option A)) : option (list A) :=
  match ps with
  | [] => Some []
  | p :: ps' =>
      match p, Promise_all ps' with
      | Some x, Some xs => Some (x :: xs)
      | _, _ => None
      end
  end.

Definition discoverPOIsAlongRoute (bufferRadius : Q)
    (interests : option (list string)) : list GeoPin :=
  let samplePromises :=
    map (fun point => fetchPOIsNearLocation point bufferRadius interests)
        sampleLookups in
  match Promise_all samplePromises with
  | Some results => deduplicate (concat results)
  | None => []
  end.

End Discover.

(** The scenario of the specification: a straight path of 10 km along the
    parallel of 51.5 degrees, and a provider that reports one cafe to the
    three samples taken between 4 km and 6 km, each time under a fresh
    identifier and with coordinates that differ below the fifth decimal. *)
Definition straight (d : Q) : Location :=
  mkLocation 51.5%Q (d / 100000)%Q.

Definition cafe (i : string) (la lo : Q) : GeoPin :=
  mkGeoPin i (mkLocation la lo) 50%Q poi (mkPinData "Cafe" "Type: cafe" ["cafe"]).

Definition oneCafe (point : Location) (_ : Q) (_ : option (list string))
    : option (list GeoPin) :=
  if Qle_bool 0.04%Q (lng point) && Qle_bool (lng point) 0.06%Q
  then Some [cafe ("osm_" ++ toFixed 2 (lng point))%string
                  (51.5002 + lng point / 100000)%Q 0.05%Q]
  else Some [].

(** What [toFixed] keeps of a number: whether it is negative, and its
    absolute value in units of [10^-f], rounded. *)
Definition rounded (f : nat) (x : Q) : bool * Z := (isNegative x, scaled f x).

(** Two pins agree in what their keys keep of both coordinates. *)
Definition same_rounded (p q : GeoPin) : Prop :=
  rounded 5 (lat (location p)) = rounded 5 (lat (location q)) /\
  rounded 5 (lng (location p)) = rounded 5 (lng (location q)).

(** The rounding the specification speaks of: the number nearest to [x]
    with [f] decimals, as a number.  It is what [toFixed] prints, read back:
    [-0.00000] and [0.00000] are both [0]. *)
Definition roundedValue (f : nat) (x : Q) : Q :=
  ((if isNegative x then -1 else 1) * inject_Z (scaled f x)
   / inject_Z (10 ^ Z.of_nat f))%Q.

Definition same_roundedValue (p q : GeoPin) : Prop :=
  (roundedValue 5 (lat (location p)) == roundedValue 5 (lat (location q)))%Q /\
  (roundedValue 5 (lng (location p)) == roundedValue 5 (lng (location q)))%Q.

(** A path that starts on the prime meridian, where the provider reports
    two cafes a millionth of a degree to either side of it. *)
Definition west : GeoPin := cafe "osm_west" 51.5%Q (- (1 # 1000000))%Q.
Definition east : GeoPin := cafe "osm_east" 51.5%Q (1 # 1000000)%Q.

Definition acrossMeridian (point : Location) (_ : Q) (_ : option (list string))
    : option (list GeoPin) :=
  if Qeq_bool (lng point) 0%Q then Some [west; east] else Some [].

Definition isDigit (c : ascii) : bool :=
  (48 <=? nat_of_ascii c)%nat && (nat_of_ascii c <=? 57)%nat.

Fixpoint allDigits (s : string) : bool :=
  match s with
  | EmptyString => true
  | String c s' => isDigit c && allDigits s'
  end.

Fixpoint has_char (c : ascii) (s : string) : bool :=
  match s with
  | EmptyString => false
  | String c' s' => Ascii.eqb c c' || has_char c s'
  end.

Fixpoint pad (k : nat) (d : Decimal.uint) : Decimal.uint :=
  match k with
  | O => d
  | S k' => Decimal.D0 (pad k' d)
  end.

End Route.

(** ** Webhook delivery *)

Module Webhook.

(** types/webhook.types.ts; dates are milliseconds on the clock. *)
Inductive WebhookEvent :=
  | route_completed | route_failed
  | enrichment_completed | enrichment_failed
  | batch_completed | batch_failed.

Definition eventName (e : WebhookEvent) : string :=
  match e with
  | route_completed => "route.completed"
  | route_failed => "route.failed"
  | enrichment_completed => "enrichment.completed"
  | enrichment_failed => "enrichment.failed"
  | batch_completed => "batch.completed"
  | batch_failed => "batch.failed"
  end.

Record Webhook := mkWebhook {
  id : string;
  url : string;
  events : list WebhookEvent;
  secret : option string;
  active : bool;
  createdAt : Z;
  lastTriggered : option Z
}.

Record WebhookPayload := mkPayload {
  event : WebhookEvent;
  timestamp : Z;
  data : string;
  correlationId : option string
}.

Inductive Status := pending | success | failed.

Record WebhookDelivery := mkDelivery {
  deliveryId : string;
  webhookId : string;
  payload : WebhookPayload;
  status : Status;
  attempts : nat;
  lastAttempt : option Z;
  error : option string
}.

(** One request sent by [httpClient.post]. *)
Record Request := mkRequest {
  target : string;
  body : WebhookPayload;
  headers : list (string * string)
}.

(** What a delivery does to the outside, in order: the requests it sends
    and the delays (ms) it awaits with [setTimeout]. *)
Inductive Effect := Post (r : Request) | Sleep (ms : Z).

Record World := mkWorld {
  clock : Z;
  trace : list Effect
}.

Inductive PostResult := Delivered | Failed (errorMessage : string).

Section Delivery.

(** The receiving endpoint: how the [k]-th attempt of a delivery ends and
    how long the request takes (ms).  [sign payload secret] is
    [createHmac('sha256', secret).update(JSON.stringify(payload)).digest('hex')]. *)
Variable endpoint : nat -> PostResult.
Variable latency : nat -> Z.
Variable sign : WebhookPayload -> string -> string.

Definition post (k : nat) (u : string) (p : WebhookPayload)
    (h : list (string * string)) (env : World) : PostResult * World :=
  (endpoint k,
   mkWorld (clock env + latency k) (trace env ++ [Post (mkRequest u p h)])).

Definition setTimeout (ms : Z) (env : World) : World :=
  mkWorld (clock env + ms) (trace env ++ [Sleep ms]).

(** [if (webhook.secret)]: an empty secret is not truthy. *)
Definition signatureHeader (w : Webhook) (p : WebhookPayload) : list (string * string) :=
  match secret w with
  | Some s => if String.eqb s "" then [] else [("X-Webhook-Signature", sign p s)]
  | None => []
  end.

Definition backoffMs (attempt : nat) : Z := 2 ^ Z.of_nat attempt * 1000.

(** The [while] loop of [attemptDelivery]; each turn of the loop uses one
    unit of [fuel]. *)
Fixpoint attemptLoop (fuel : nat) (maxAttempts : nat) (w : Webhook)
    (d : WebhookDelivery) (env : World)
    : option (Webhook * WebhookDelivery * World) :=
  match fuel with
  | O => None
  | S fuel' =>
      if (attempts d <? maxAttempts)%nat then
        let d1 := mkDelivery (deliveryId d) (webhookId d) (payload d) (status d)
                             (S (attempts d)) (Some (clock env)) (error d) in
        let h := [("X-Webhook-Event", eventName (event (payload d1)));
                  ("X-Webhook-Delivery", deliveryId d1)]
                 ++ signatureHeader w (payload d1) in
        match post (attempts d1) (url w) (payload d1) h env with
        | (Delivered, env1) =>
            Some (mkWebhook (id w) (url w) (events w) (secret w) (active w)
                            (createdAt w) (Some (clock env1)),
                  mkDelivery (deliveryId d1) (webhookId d1) (payload d1) success
                             (attempts d1) (lastAttempt d1) (error d1),
                  env1)
        | (Failed errorMessage, env1) =>
            let d2 := mkDelivery (deliveryId d1) (webhookId d1) (payload d1)
                                 (status d1) (attempts d1) (lastAttempt d1)
                                 (Some errorMessage) in
            let env2 := if (attempts d2 <? maxAttempts)%nat
                        then setTimeout (backoffMs (attempts d2)) env1
                        else env1 in
            attemptLoop fuel' maxAttempts w d2 env2
        end
      else
        Some (w,
              mkDelivery (deliveryId d) (webhookId d) (payload d) failed
                         (attempts d) (lastAttempt d) (error d),
              env)
  end.

Definition attemptDelivery (w : Webhook) (d : WebhookDelivery)
    (maxAttempts : nat) (env : World) : option (Webhook * WebhookDelivery * World) :=
  attemptLoop (S (maxAttempts - attempts d)) maxAttempts w d env.

(** The request every attempt of a delivery sends. *)
Definition request (w : Webhook) (d : WebhookDelivery) : Request :=
  mkRequest (url w) (payload d)
    ([("X-Webhook-Event", eventName (event (payload d)));
      ("X-Webhook-Delivery", deliveryId d)] ++ signatureHeader w (payload d)).

(** [n] attempts in a row, the first of them attempt number [k]: each is a
    request, and each but the last is followed by its backoff. *)
Fixpoint attemptsTrace (r : Request) (k n : nat) : list Effect :=
  match n with
  | O => []
  | S O => [Post r]
  | S n' => Post r :: Sleep (backoffMs k) :: attemptsTrace r (S k) n'
  end.

(** What a chain of attempts that starts after [attempts d] attempts and
    ends after [attempts d'] leaves behind. *)
Record chain (m : nat) (w : Webhook) (d : WebhookDelivery) (env : World)
    (w' : Webhook) (d' : WebhookDelivery) (env' : World) : Prop := mkChain {
  chain_from : (attempts d <= attempts d')%nat;
  chain_progress : (attempts d < m -> attempts d < attempts d')%nat;
  chain_cap : (attempts d' <= Nat.max m (attempts d))%nat;
  chain_trace :
    trace env' = trace env ++
      attemptsTrace (request w d) (S (attempts d)) (attempts d' - attempts d);
  chain_failures :
    forall k, (attempts d < k)%nat -> (k < attempts d')%nat -> endpoint k <> Delivered;
  chain_end :
    (status d' = success /\ (attempts d < attempts d')%nat /\
     endpoint (attempts d') = Delivered /\
     lastTriggered w' = Some (clock env')) \/
    (status d' = failed /\ (m <= attempts d')%nat /\
     lastTriggered w' = lastTriggered w /\
     ((attempts d < attempts d')%nat -> endpoint (attempts d') <> Delivered))
}.

(** The time [n] attempts in a row take, the first of them attempt number
    [k]: the latency of each request and the backoff after each but the
    last. *)
Fixpoint elapsed (k n : nat) : Z :=
  match n with
  | O => 0
  | S O => latency k
  | S n' => latency k + backoffMs k + elapsed (S k) n'
  end.

(** The latencies of the attempts [1] to [n]. *)
Fixpoint sumLatency (n : nat) : Z :=
  match n with
  | O => 0
  | S n' => sumLatency n' + latency n
  end.

(** The service: the registered webhooks and the deliveries, by id. *)
Record WebhookService := mkService {
  webhooks : gmap string Webhook;
  deliveries : gmap string WebhookDelivery
}.

(** [deliverWebhook]; [newId] is the value of [generateId('delivery')].  The
    delivery object sits in [deliveries] while it is updated, and the webhook
    object is the one held in [webhooks]. *)
Definition deliverWebhook (newId : string) (w : Webhook) (p : WebhookPayload)
    (s : WebhookService) (env : World) : option (WebhookService * World) :=
  let delivery := mkDelivery newId (id w) p pending 0 None None in
  match attemptDelivery w delivery 3 env with
  | Some (w', d', env') =>
      Some (mkService (alter (fun _ => w') (id w) (webhooks s))
                      (<[newId := d']> (deliveries s)),
            env')
  | None => None
  end.

End Delivery.

(** *** Registration, history and statistics *)

(** [registerWebhook]; [newId] is the value of [generateId('webhook')] and
    [now] the time of [new Date()]. *)
Definition registerWebhook (newId : string) (now : Z) (u : string)
    (evs : list WebhookEvent) (sec : option string) (s : WebhookService)
    : Webhook * WebhookService :=
  let webhook := mkWebhook newId u evs sec true now None in
  (webhook, mkService (<[newId := webhook]> (webhooks s)) (deliveries s)).

Definition unregisterWebhook (webhookId : string) (s : WebhookService)
    : bool * WebhookService :=
  match webhooks s !! webhookId with
  | Some _ => (true, mkService (delete webhookId (webhooks s)) (deliveries s))
  | None => (false, s)
  end.

Definition getWebhook (webhookId : string) (s : WebhookService) : option Webhook :=
  webhooks s !! webhookId.

(** [Array.from(map.values())]; as for the spatial index, the statements do
    not depend on the order of the list. *)
Definition listWebhooks (s : WebhookService) : list Webhook :=
  map snd (map_to_list (webhooks s)).

Definition listDeliveries (s : WebhookService) : list WebhookDelivery :=
  map snd (map_to_list (deliveries s)).

(** [webhook.events.includes(event)]: the events are their names. *)
Definition includes (evs : list WebhookEvent) (e : WebhookEvent) : bool :=
  existsb (fun e' => String.eqb (eventName e') (eventName e)) evs.

(** The webhooks [triggerEvent] delivers to. *)
Definition subscribedWebhooks (e : WebhookEvent) (s : WebhookService) : list Webhook :=
  List.filter (fun webhook => active webhook && includes (events webhook) e)
              (listWebhooks s).

(** [a.lastAttempt || new Date(0)], as a time. *)
Definition attemptTime (d : WebhookDelivery) : Z :=
  match lastAttempt d with
  | Some t => t
  | None => 0
  end.

Definition getDeliveries (wid : string) (limit : Z) (s : WebhookService)
    : list WebhookDelivery :=
  Spatial.slice0 limit
    (Spatial.sort (fun a b => inject_Z (attemptTime b - attemptTime a))
       (List.filter (fun d => String.eqb (webhookId d) wid) (listDeliveries s))).

Record WebhookStats := mkWebhookStats {
  totalWebhooks : nat;
  activeWebhooks : nat;
  totalDeliveries : nat;
  successfulDeliveries : nat;
  failedDeliveries : nat
}.

Definition isSuccess (d : WebhookDelivery) : bool :=
  match status d with success => true | _ => false end.

Definition isFailed (d : WebhookDelivery) : bool :=
  match status d with failed => true | _ => false end.

Definition getStats (s : WebhookService) : WebhookStats :=
  mkWebhookStats
    (size (webhooks s))
    (length (List.filter active (listWebhooks s)))
    (length (listDeliveries s))
    (length (List.filter isSuccess (listDeliveries s)))
    (length (List.filter isFailed (listDeliveries s))).

(** The operations on the service.  A delivery is run for a registered
    webhook, from a given time on, against an endpoint and its latencies. *)
Inductive op :=
  | Register (newId : string) (now : Z) (u : string) (evs : list WebhookEvent)
             (sec : option string)
  | Unregister (wid : string)
  | Deliver (newId : string) (wid : string) (p : WebhookPayload)
            (endpoint : nat -> PostResult) (latency : nat -> Z) (now : Z).

Definition apply_op (sign : WebhookPayload -> string -> string) (o : op)
    (s : WebhookService) : WebhookService :=
  match o with
  | Register newId now u evs sec => snd (registerWebhook newId now u evs sec s)
  | Unregister wid => snd (unregisterWebhook wid s)
  | Deliver newId wid p endpoint latency now =>
      match webhooks s !! wid with
      | Some w =>
          match deliverWebhook endpoint latency sign newId w p s (mkWorld now []) with
          | Some (s', _) => s'
          | None => s
          end
      | None => s
      end
  end.

Definition run (sign : WebhookPayload -> string -> string) (ops : list op)
    (s : WebhookService) : WebhookService :=
  fold_left (fun s o => apply_op sign o s) ops s.

(** Every registered webhook is filed under its id and is active, and
    every delivery on file has reached a final state. *)
Definition settled (s : WebhookService) : Prop :=
  (forall k w, webhooks s !! k = Some w -> id w = k /\ active w = true) /\
  (forall k d, deliveries s !! k = Some d -> status d = success \/ status d = failed).

(** An endpoint that fails twice and then accepts, and one that is down. *)
Definition failsTwice (k : nat) : PostResult :=
  if (k <=? 2)%nat then Failed "connect ECONNREFUSED" else Delivered.

Definition down (_ : nat) : PostResult := Failed "connect ECONNREFUSED".

Definition quick (_ : nat) : Z := 20%Z.

Definition noSignature (_ : WebhookPayload) (_ : string) : string := "".

Definition hook : Webhook :=
  mkWebhook "webhook_1" "https://example.org/hook" [batch_completed] None true 0 None.

Definition batchDone : WebhookPayload :=
  mkPayload batch_completed 1000 "{}" None.

End Webhook.

(** ** Input validation and tool dispatch *)

Module Validation.

(** The arguments of a tool call, as far as the schemas look at them.  A
    field that may be missing is an [option]. *)
Record RouteArgs := mkRouteArgs {
  r_start : Location;
  r_end : Location;
  r_waypoints : option (list Location);
  r_profile : option string;
  r_interests : option (list string);
  r_bufferRadius : option Q
}.

Record NearbyArgs := mkNearbyArgs {
  n_location : Location;
  n_radius : option Q;
  n_types : option (list string);
  n_maxResults : option Q
}.

Record GeoPinArgs := mkGeoPinArgs {
  g_location : Location;
  g_radius : option Q;
  g_type : string;
  g_name : string;
  g_description : string;
  g_category : option (list string)
}.

Record EnrichArgs := mkEnrichArgs {
  e_location : Location;
  e_radius : option Q
}.

Record BatchOptions := mkBatchOptions {
  failFast : option bool;
  maxConcurrency : option Q
}.

Inductive Args :=
  | RouteRequest (a : RouteArgs)
  | NearbyContext (a : NearbyArgs)
  | CreateGeoPin (a : GeoPinArgs)
  | EnrichLocation (a : EnrichArgs)
  | BatchRoutes (requests : list RouteArgs) (options : option BatchOptions)
  | BatchEnrich (locations : list EnrichArgs) (options : option BatchOptions).

(** *** zod

    [parse] returns the validated value, defaults filled in, or the paths
    of the fields that failed. *)
Definition Parsed (A : Type) : Type := A + list string.

Definition between (lo hi : Q) (x : Q) : bool := Qle_bool lo x && Qle_bool x hi.

(** [z.number().min(lo).max(hi)] at [path]: the issues it raises. *)
Definition number (path : string) (lo hi : Q) (x : Q) : list string :=
  if between lo hi x then [] else [path].

(** [z.number().min(lo).max(hi).default(d)] *)
Definition numberDefault (path : string) (lo hi d : Q) (x : option Q)
    : Q * list string :=
  match x with
  | Some v => (v, number path lo hi v)
  | None => (d, [])
  end.

Definition enum (path : string) (allowed : list string) (x : string) : list string :=
  if existsb (String.eqb x) allowed then [] else [path].

Definition text (path : string) (lo hi : nat) (x : string) : list string :=
  if (lo <=? String.length x)%nat && (String.length x <=? hi)%nat then [] else [path].

(** [LocationSchema] *)
Definition LocationSchema (path : string) (l : Location) : list string :=
  number (path ++ ".lat")%string (-90) 90 (lat l) ++
  number (path ++ ".lng")%string (-180) 180 (lng l).

Definition pinTypes : list string :=
  ["poi"; "historical"; "landmark"; "event"; "cultural"; "natural"].

Definition RouteRequestSchema (args : Args) : Parsed Args :=
  match args with
  | RouteRequest a =>
      let (bufferRadius, i5) := numberDefault "bufferRadius" 50 5000 500 (r_bufferRadius a) in
      let profile := match r_profile a with Some p => p | None => "driving" end in
      let issues :=
        LocationSchema "start" (r_start a) ++
        LocationSchema "end" (r_end a) ++
        match r_waypoints a with
        | Some ws => concat (map (LocationSchema "waypoints") ws)
        | None => []
        end ++
        enum "profile" ["driving"; "walking"; "cycling"; "wheelchair"] profile ++
        i5 in
      match issues with
      | [] => inl (RouteRequest
                     (mkRouteArgs (r_start a) (r_end a) (r_waypoints a) (Some profile)
                                  (r_interests a) (Some bufferRadius)))
      | _ => inr issues
      end
  | _ => inr [""]
  end.

Definition NearbyContextSchema (args : Args) : Parsed Args :=
  match args with
  | NearbyContext a =>
      let (radius, i2) := numberDefault "radius" 10 10000 1000 (n_radius a) in
      let (maxResults, i4) := numberDefault "maxResults" 1 200 50 (n_maxResults a) in
      let issues :=
        LocationSchema "location" (n_location a) ++ i2 ++
        match n_types a with
        | Some ts => concat (map (enum "types" pinTypes) ts)
        | None => []
        end ++ i4 in
      match issues with
      | [] => inl (NearbyContext
                     (mkNearbyArgs (n_location a) (Some radius) (n_types a)
                                   (Some maxResults)))
      | _ => inr issues
      end
  | _ => inr [""]
  end.

Definition GeoPinSchema (args : Args) : Parsed Args :=
  match args with
  | CreateGeoPin a =>
      let (radius, i2) := numberDefault "radius" 10 5000 100 (g_radius a) in
      let issues :=
        LocationSchema "location" (g_location a) ++ i2 ++
        enum "type" pinTypes (g_type a) ++
        text "data.name" 1 200 (g_name a) ++
        text "data.description" 1 2000 (g_description a) in
      match issues with
      | [] => inl (CreateGeoPin
                     (mkGeoPinArgs (g_location a) (Some radius) (g_type a)
                                   (g_name a) (g_description a) (g_category a)))
      | _ => inr issues
      end
  | _ => inr [""]
  end.

Definition EnrichLocationSchema (args : Args) : Parsed Args :=
  match args with
  | EnrichLocation a =>
      let (radius, i2) := numberDefault "radius" 10 5000 500 (e_radius a) in
      let issues := LocationSchema "location" (e_location a) ++ i2 in
      match issues with
      | [] => inl (EnrichLocation (mkEnrichArgs (e_location a) (Some radius)))
      | _ => inr issues
      end
  | _ => inr [""]
  end.

(** *** validation.middleware.ts *)

(** What a lookup in [schemaMap] finds when it finds something: a schema
    of the table, or a member of [Object.prototype]. *)
Inductive Entry :=
  | Schema (schema : Args -> Parsed Args)
  | Inherited.

Definition schemaMap (toolName : string) : option Entry :=
  if String.eqb toolName "generate_route" then Some (Schema RouteRequestSchema)
  else if String.eqb toolName "get_nearby_context" then Some (Schema NearbyContextSchema)
  else if String.eqb toolName "create_geopin" then Some (Schema GeoPinSchema)
  else if String.eqb toolName "enrich_location" then Some (Schema EnrichLocationSchema)
  else if inherited toolName then Some Inherited
  else None.

(** What [validateToolInput] throws: [McpError(ErrorCode.InvalidParams, ...)]
    with the failing paths, or the [TypeError] of the call [schema.parse(args)]
    when [schema] has no [parse], which the [catch] throws on. *)
Inductive Error :=
  | InvalidParams (toolName : string) (issues : list string)
  | TypeError.

Definition validateToolInput (toolName : string) (args : Args) : Args + Error :=
  match schemaMap toolName with
  | None => inl args
  | Some (Schema schema) =>
      match schema args with
      | inl validated => inl validated
      | inr issues => inr (InvalidParams toolName issues)
      end
  | Some Inherited => inr TypeError
  end.

Definition withValidation {R} (toolName : string) (handler : Args -> R)
    (args : Args) : R + Error :=
  match validateToolInput toolName args with
  | inl validatedArgs => inl (handler validatedArgs)
  | inr e => inr e
  end.

(** *** The tool handlers of the server

    Each handler is represented by the locations it hands to the routing
    service, the OpenStreetMap service and the spatial index. *)
Definition routeLocations (a : RouteArgs) : list Location :=
  r_start a :: r_end a ::
  match r_waypoints a with Some ws => ws | None => [] end.

Definition handler (args : Args) : list Location :=
  match args with
  | RouteRequest a => routeLocations a
  | NearbyContext a => [n_location a]
  | CreateGeoPin a => [g_location a]
  | EnrichLocation a => [e_location a]
  | BatchRoutes requests _ => concat (map routeLocations requests)
  | BatchEnrich locations _ => map e_location locations
  end.

(** The tools that [CallToolRequestSchema] dispatches through
    [composeMiddleware]. *)
Definition validatedTools : list string :=
  ["generate_route"; "get_nearby_context"; "create_geopin"; "enrich_location";
   "batch_generate_routes"; "batch_enrich_locations"].

Definition callTool (toolName : string) (args : Args) : list Location + Error :=
  withValidation toolName handler args.

Definition inRange (l : Location) : bool :=
  between (-90) 90 (lat l) && between (-180) 180 (lng l).

(** [isValidCoordinate] of utils/helpers.ts; the two [typeof] tests hold of
    every number. *)
Definition isValidCoordinate (l : Location) : bool :=
  Qle_bool (-90) (lat l) && Qle_bool (lat l) 90 &&
  Qle_bool (-180) (lng l) && Qle_bool (lng l) 180.

(** A batch request whose only location has latitude 91. *)
Definition northOfThePole : Args :=
  BatchEnrich [mkEnrichArgs (mkLocation 91 0) None] None.

End Validation.

(** ** The tool handlers and the index (index.ts, routing.service.ts) *)

Module Handlers.
Import Spatial.

(** [x || d] for an optional number: [d] when [x] is missing or [0]. *)
Definition orDefault (x : option Q) (d : Q) : Q :=
  match x with
  | Some v => if Qeq_bool v 0 then d else v
  | None => d
  end.

(** The integer that [Array.prototype.slice] cuts a number to. *)
Definition toInteger (q : Q) : Z := Z.quot (Qnum q) (Z.pos (Qden q)).

Definition pinTypeName (t : PinType) : string :=
  match t with
  | poi => "poi"
  | historical => "historical"
  | landmark => "landmark"
  | event => "event"
  | cultural => "cultural"
  | natural => "natural"
  end.

Record NearbyResponse := mkNearbyResponse {
  nb_location : Location;
  nb_radius : Q;
  nb_totalPins : nat;
  nb_pins : list GeoPin
}.

Record EnrichResponse (Address : Type) := mkEnrichResponse {
  en_location : Location;
  en_address : Address;
  en_poisFound : nat;
  en_pois : list GeoPin
}.

Record RouteData := mkRouteData {
  rd_distance : Q;
  rd_duration : Double;
  rd_coordinates : list (Q * Q)
}.

Record RouteResponse := mkRouteResponse {
  routeId : string;
  route : RouteData;
  contextualPins : nat;
  pins : list GeoPin
}.

Section Handlers.

Variable bufferBBox : Location -> Q -> option BBox.
Variable distance : Location -> Location -> Q.

(** [fetchPOIsNearLocation] is the lookup of the OpenStreetMap service,
    [None] when its promise is rejected. *)
Variable fetchPOIsNearLocation :
  Location -> Q -> option (list string) -> option (list GeoPin).

(** [if (!spatialIndex.getPinById(pin.id)) { spatialIndex.addPin(pin); }],
    the body of the [forEach] of [handleEnrichLocation] and
    [enrichLocationBatch]. *)
Definition addNewPin (s : SpatialIndexService) (pin : GeoPin) : SpatialIndexService :=
  match getPinById (id pin) s with
  | Some _ => s
  | None => addPin bufferBBox pin s
  end.

Definition addNewPins (osmPins : list GeoPin) (s : SpatialIndexService)
    : SpatialIndexService :=
  fold_left addNewPin osmPins s.

(** The same loop in [handleGetNearbyContext] and [getNearbyContextBatch],
    where a pin that is added is also pushed onto the result. *)
Definition addFetched (osmPins : list GeoPin)
    (acc : list GeoPin * SpatialIndexService) : list GeoPin * SpatialIndexService :=
  fold_left
    (fun acc pin =>
       match getPinById (id pin) (snd acc) with
       | Some _ => acc
       | None => (fst acc ++ [pin], addPin bufferBBox pin (snd acc))
       end)
    osmPins acc.

(** [args.types && args.types.length > 0] followed by
    [args.types.includes(pin.type)]. *)
Definition wantsType (types : option (list string)) (p : GeoPin) : bool :=
  match types with
  | Some (t :: ts) => existsb (String.eqb (pinTypeName (type p))) (t :: ts)
  | _ => true
  end.

(** [handleGetNearbyContext]; [None] is the [McpError] it throws. *)
Definition handleGetNearbyContext (args : Validation.NearbyArgs)
    (s : SpatialIndexService) : option NearbyResponse * SpatialIndexService :=
  let loc := Validation.n_location args in
  let r := orDefault (Validation.n_radius args) 1000 in
  let maxResults := orDefault (Validation.n_maxResults args) 50 in
  let found :=
    List.filter (wantsType (Validation.n_types args))
                (queryByRadius bufferBBox distance loc r s) in
  let fetched :=
    if negb (Qle_bool maxResults (inject_Z (Z.of_nat (length found))))
    then match fetchPOIsNearLocation loc r (Validation.n_types args) with
         | Some osmPins => Some (addFetched osmPins (found, s))
         | None => None
         end
    else Some (found, s) in
  match fetched with
  | Some (all, s') =>
      let limited := slice0 (toInteger maxResults) all in
      (Some (mkNearbyResponse loc r (length limited) limited), s')
  | None => (None, s)
  end.

(** [handleEnrichLocation]; [reverseGeocode] is the address lookup of the
    OpenStreetMap service. *)
Definition handleEnrichLocation {Address : Type}
    (reverseGeocode : Location -> option Address)
    (args : Validation.EnrichArgs) (s : SpatialIndexService)
    : option (EnrichResponse Address) * SpatialIndexService :=
  let loc := Validation.e_location args in
  match fetchPOIsNearLocation loc (orDefault (Validation.e_radius args) 500) None with
  | Some osmPins =>
      match reverseGeocode loc with
      | Some addressInfo =>
          (Some (mkEnrichResponse Address loc addressInfo (length osmPins)
                                  (slice0 20 osmPins)),
           addNewPins osmPins s)
      | None => (None, s)
      end
  | None => (None, s)
  end.

(** [generateRoute] of the routing service.  [lineLength cs] is
    [turf.length(turf.lineString(cs), {units: 'meters'})] and [along cs d]
    is [turf.along]; [turf.lineString] throws on fewer than two positions.
    [fetchRoute] is the route lookup, [None] when it yields [null]. *)
Variable lineLength : list (Q * Q) -> Q.
Variable along : list (Q * Q) -> Q -> Location.

Definition generateFallbackRoute (request : Validation.RouteArgs) : RouteData :=
  let coordinates :=
    [(lng (Validation.r_start request), lat (Validation.r_start request))] ++
    match Validation.r_waypoints request with
    | Some ws => map (fun wp => (lng wp, lat wp)) ws
    | None => []
    end ++
    [(lng (Validation.r_end request), lat (Validation.r_end request))] in
  let distance := lineLength coordinates in
  mkRouteData distance (Mul (Div (Exact distance) (Exact 1000)) (Exact 72)) coordinates.

Definition generateRoute (newId : string)
    (fetchRoute : Validation.RouteArgs -> option RouteData)
    (request : Validation.RouteArgs) (s : SpatialIndexService)
    : option RouteResponse * SpatialIndexService :=
  match fetchRoute request with
  | None => (None, s)
  | Some routeData =>
      let cs := rd_coordinates routeData in
      if (length cs <? 2)%nat then (None, s)
      else
        let bufferRadius := orDefault (Validation.r_bufferRadius request) 500 in
        let found :=
          Route.discoverPOIsAlongRoute (lineLength cs) (along cs)
            fetchPOIsNearLocation bufferRadius (Validation.r_interests request) in
        (Some (mkRouteResponse newId routeData (length found) (slice0 20 found)),
         fold_left (fun s p => addPin bufferBBox p s) found s)
  end.

(** Every tree entry is tracked under its id. *)
Definition indexed_tracked (s : SpatialIndexService) : Prop :=
  forall a, In a (index s) -> pinMap s !! id (pin a) = Some (pin a).

End Handlers.

End Handlers.

(** ** Rate limiting (middleware/rate-limiter.middleware.ts) *)

Module RateLimiter.

(** The value that the lookup in [getQueueConfig] yields, as far as its four
    fields are read; a field that the value does not have is [None]. *)
Record RateLimiterConfig := mkConfig {
  concurrency : option Z;
  intervalCap : option nat;
  interval : option Z;
  timeout : option Z
}.

Definition config (concurrency : Z) (intervalCap : nat) (interval timeout : Z)
    : RateLimiterConfig :=
  mkConfig (Some concurrency) (Some intervalCap) (Some interval) (Some timeout).

(** [config.get('maxConcurrentRequests') as number || 10]; the configured
    value is the result of a [parseInt], [None] when that is [NaN]. *)
Definition maxConcurrent (configured : option Z) : Z :=
  match configured with
  | Some n => if (n =? 0)%Z then 10 else n
  | None => 10
  end.

(** [getQueueConfig]: [configs[toolName] || { ... }].  For a name that
    [configs] inherits the lookup yields a member of [Object.prototype],
    which is truthy and has none of the four fields. *)
Definition getQueueConfig (configured : option Z) (toolName : string)
    : RateLimiterConfig :=
  let maxConcurrent := maxConcurrent configured in
  if String.eqb toolName "generate_route"
  then config (Z.min maxConcurrent 3) 10 60000 60000
  else if String.eqb toolName "get_nearby_context"
  then config (Z.min maxConcurrent 5) 20 60000 30000
  else if String.eqb toolName "enrich_location"
  then config (Z.min maxConcurrent 5) 20 60000 30000
  else if String.eqb toolName "create_geopin"
  then config (Z.min maxConcurrent 10) 50 60000 10000
  else if inherited toolName
  then mkConfig None None None None
  else config maxConcurrent 30 60000 30000.

(** [count >= intervalCap]; no comparison with [undefined] holds. *)
Definition atLeast (count : nat) (intervalCap : option nat) : bool :=
  match intervalCap with
  | Some cap => (cap <=? count)%nat
  | None => false
  end.

Record Limit := mkLimit { count : nat; resetTime : Z }.

Abbreviation RequestCounts := (gmap string Limit).

(** [userId ? `${toolName}:${userId}` : toolName] *)
Definition key (toolName : string) (userId : option string) : string :=
  match userId with
  | Some u => if String.eqb u "" then toolName else (toolName ++ ":" ++ u)%string
  | None => toolName
  end.

(** [Math.ceil(ms / 1000)] for a whole number of milliseconds. *)
Definition ceilSeconds (ms : Z) : Z := (- ((- ms) / 1000))%Z.

(** [checkRateLimit] at time [now] (ms): [None] when it returns, [Some
    waitTime] when it throws the rate limit error. *)
Definition checkRateLimit (configured : option Z) (toolName : string)
    (userId : option string) (now : Z) (requestCounts : RequestCounts)
    : option Z * RequestCounts :=
  let k := key toolName userId in
  match requestCounts !! k with
  | Some limits =>
      if (resetTime limits <? now)%Z
      then (None, <[k := mkLimit 1 (now + 60000)]> requestCounts)
      else
        let config := getQueueConfig configured toolName in
        if atLeast (count limits) (intervalCap config)
        then (Some (ceilSeconds (resetTime limits - now)), requestCounts)
        else (None, <[k := mkLimit (S (count limits)) (resetTime limits)]> requestCounts)
  | None => (None, <[k := mkLimit 1 (now + 60000)]> requestCounts)
  end.

(** A sequence of calls, each at its time on the clock; [run] keeps the
    calls that were let through. *)
Record Call := mkCall { c_tool : string; c_user : option string; c_now : Z }.

Definition c_key (c : Call) : string := key (c_tool c) (c_user c).

Definition step (configured : option Z) (st : RequestCounts * list Call) (c : Call)
    : RequestCounts * list Call :=
  match checkRateLimit configured (c_tool c) (c_user c) (c_now c) (fst st) with
  | (None, rc) => (rc, snd st ++ [c])
  | (Some _, rc) => (rc, snd st)
  end.

Definition run (configured : option Z) (calls : list Call)
    : RequestCounts * list Call :=
  fold_left (step configured) calls (∅, []).

(** The calls come in the order of their times. *)
Definition chronological (calls : list Call) : Prop :=
  StronglySorted (fun a b => (c_now a <= c_now b)%Z) calls.

(** The calls of key [k] let through in the minute that ends at [e]'s reset
    time. *)
Definition inWindow (k : string) (e : Limit) (passed : list Call) : list Call :=
  List.filter
    (fun c => String.eqb (c_key c) k && (resetTime e - 60000 <=? c_now c)%Z)
    passed.

Definition windows_ok (configured : option Z) (st : RequestCounts * list Call)
    : Prop :=
  forall k,
    match fst st !! k with
    | Some e =>
        count e = length (inWindow k e (snd st)) /\
        (forall c, In c (snd st) -> c_key c = k -> (c_now c <= resetTime e)%Z) /\
        (exists c0, In c0 (snd st) /\ c_key c0 = k /\
                    c_now c0 = (resetTime e - 60000)%Z) /\
        (1 <= count e)%nat /\
        ((forall c, In c (snd st) -> c_key c = k -> inherited (c_tool c) = false) ->
         (count e <= 50)%nat) /\
        (forall t cap, (forall c, In c (snd st) -> c_key c = k -> c_tool c = t) ->
           intervalCap (getQueueConfig configured t) = Some cap ->
           (count e <= cap)%nat)
    | None => forall c, In c (snd st) -> c_key c <> k
    end.

End RateLimiter.

(** ** Metrics (middleware/metrics.middleware.ts) *)

Module Metrics.

(** Times and durations are whole milliseconds; [minDuration] is [None]
    while it is [Infinity]. *)
Record ToolMetrics := mkToolMetrics {
  toolName : string;
  totalRequests : nat;
  successfulRequests : nat;
  failedRequests : nat;
  totalDuration : Z;
  avgDuration : Double;
  minDuration : option Z;
  maxDuration : Z;
  lastRequestTime : Z
}.

Abbreviation MetricsMap := (gmap string ToolMetrics).

Definition initial (tool : string) : ToolMetrics :=
  mkToolMetrics tool 0 0 0 0 (Exact 0) None 0 0.

(** [initializeMetrics] returns the record of the tool, which the callers
    update in place; here they write the updated record back. *)
Definition initializeMetrics (tool : string) (metrics : MetricsMap)
    : ToolMetrics * MetricsMap :=
  match metrics !! tool with
  | Some m => (m, metrics)
  | None => (initial tool, <[tool := initial tool]> metrics)
  end.

Definition recordRequestStart (tool : string) (now : Z) (metrics : MetricsMap)
    : Z * MetricsMap :=
  let (m, metrics1) := initializeMetrics tool metrics in
  (now,
   <[tool := mkToolMetrics (toolName m) (S (totalRequests m)) (successfulRequests m)
               (failedRequests m) (totalDuration m) (avgDuration m)
               (minDuration m) (maxDuration m) now]> metrics1).

(** [totalDuration / (successfulRequests + failedRequests)] *)
Definition average (total : Z) (completed : nat) : Double :=
  Div (Exact (inject_Z total)) (Exact (inject_Z (Z.of_nat completed))).

Definition Math_min (a : option Z) (b : Z) : option Z :=
  match a with
  | Some x => Some (Z.min x b)
  | None => Some b
  end.

Definition recordSuccess (tool : string) (startTime now : Z) (metrics : MetricsMap)
    : MetricsMap :=
  let (m, metrics1) := initializeMetrics tool metrics in
  let duration := (now - startTime)%Z in
  let successful := S (successfulRequests m) in
  let total := (totalDuration m + duration)%Z in
  <[tool := mkToolMetrics (toolName m) (totalRequests m) successful
              (failedRequests m) total
              (average total (successful + failedRequests m))
              (Math_min (minDuration m) duration)
              (Z.max (maxDuration m) duration)
              (lastRequestTime m)]> metrics1.

Definition recordFailure (tool : string) (startTime now : Z) (metrics : MetricsMap)
    : MetricsMap :=
  let (m, metrics1) := initializeMetrics tool metrics in
  let duration := (now - startTime)%Z in
  let failed := S (failedRequests m) in
  let total := (totalDuration m + duration)%Z in
  <[tool := mkToolMetrics (toolName m) (totalRequests m) (successfulRequests m)
              failed total
              (average total (successfulRequests m + failed))
              (minDuration m) (maxDuration m) (lastRequestTime m)]> metrics1.

Definition getMetrics (tool : string) (metrics : MetricsMap) : option ToolMetrics :=
  metrics !! tool.

Record Summary := mkSummary {
  sum_totalRequests : nat;
  sum_totalSuccessful : nat;
  sum_totalFailed : nat;
  successRate : Double;
  tools : list string
}.

Definition sum (f : ToolMetrics -> nat) (l : list (string * ToolMetrics)) : nat :=
  fold_right (fun kv acc => (f (snd kv) + acc)%nat) 0%nat l.

(** [getSummary]; the order of [tools] is the order in which the map is
    walked. *)
Definition getSummary (metrics : MetricsMap) : Summary :=
  let entries := map_to_list metrics in
  let totalRequests := sum totalRequests entries in
  let totalSuccessful := sum successfulRequests entries in
  let totalFailed := sum failedRequests entries in
  mkSummary totalRequests totalSuccessful totalFailed
    (if (0 <? totalRequests)%nat
     then Mul (Div (Exact (inject_Z (Z.of_nat totalSuccessful)))
                   (Exact (inject_Z (Z.of_nat totalRequests))))
              (Exact 100)
     else Exact 0)
    (map fst entries).

Definition reset (metrics : MetricsMap) : MetricsMap := ∅.

Definition resetTool (tool : string) (metrics : MetricsMap) : MetricsMap :=
  delete tool metrics.

(** [withMetrics]: the handler settles after [latency] ms with a value or
    an error, which is passed on. *)
Definition withMetrics {R E} (tool : string) (handler : Z -> (R + E) * Z)
    (now : Z) (metrics : MetricsMap) : (R + E) * MetricsMap :=
  let (startTime, metrics1) := recordRequestStart tool now metrics in
  let (outcome, latency) := handler now in
  match outcome with
  | inl result => (inl result, recordSuccess tool startTime (now + latency) metrics1)
  | inr error => (inr error, recordFailure tool startTime (now + latency) metrics1)
  end.

(** What the service is told, in the order in which it is told. *)
Inductive event :=
  | Start (tool : string) (now : Z)
  | Success (tool : string) (startTime now : Z)
  | Failure (tool : string) (startTime now : Z).

Definition apply_event (metrics : MetricsMap) (e : event) : MetricsMap :=
  match e with
  | Start tool now => snd (recordRequestStart tool now metrics)
  | Success tool startTime now => recordSuccess tool startTime now metrics
  | Failure tool startTime now => recordFailure tool startTime now metrics
  end.

Definition run (events : list event) : MetricsMap := fold_left apply_event events ∅.

Definition starts (tool : string) (events : list event) : nat :=
  length (List.filter
            (fun e => match e with Start t _ => String.eqb t tool | _ => false end)
            events).

(** The durations of the successful and of the failed requests of a tool. *)
Fixpoint successes (tool : string) (events : list event) : list Z :=
  match events with
  | [] => []
  | Success t startTime now :: events' =>
      if String.eqb t tool then (now - startTime)%Z :: successes tool events'
      else successes tool events'
  | _ :: events' => successes tool events'
  end.

Fixpoint failures (tool : string) (events : list event) : list Z :=
  match events with
  | [] => []
  | Failure t startTime now :: events' =>
      if String.eqb t tool then (now - startTime)%Z :: failures tool events'
      else failures tool events'
  | _ :: events' => failures tool events'
  end.

Definition total (l : list Z) : Z := fold_right Z.add 0%Z l.

Definition mentions (tool : string) (e : event) : bool :=
  match e with
  | Start t _ | Success t _ _ | Failure t _ _ => String.eqb t tool
  end.

(** The record of [tool] holds the statistics of the events of [tool]. *)
Definition statistics (tool : string) (events : list event) (m : ToolMetrics) : Prop :=
  toolName m = tool /\
  totalRequests m = starts tool events /\
  successfulRequests m = length (successes tool events) /\
  failedRequests m = length (failures tool events) /\
  totalDuration m = (total (successes tool events) + total (failures tool events))%Z /\
  (avgDuration m =
     if (0 <? successfulRequests m + failedRequests m)%nat
     then average (totalDuration m) (successfulRequests m + failedRequests m)
     else Exact 0) /\
  (forall d, In d (successes tool events) ->
     (d <= maxDuration m)%Z /\
     exists lo, minDuration m = Some lo /\ (lo <= d)%Z) /\
  (successes tool events = [] -> minDuration m = None /\ maxDuration m = 0%Z).

Definition isStart (e : event) : bool :=
  match e with Start _ _ => true | _ => false end.
Definition isSuccess (e : event) : bool :=
  match e with Success _ _ _ => true | _ => false end.
Definition isFailure (e : event) : bool :=
  match e with Failure _ _ _ => true | _ => false end.

Definition count (f : event -> bool) (events : list event) : nat :=
  length (List.filter f events).

Definition tool_of (e : event) : string :=
  match e with
  | Start t _ | Success t _ _ | Failure t _ _ => t
  end.

End Metrics.

(** ** OpenStreetMap lookups (services/enrichment/openstreetmap.service.ts) *)

Module OSM.

Inductive ElementType := node | way.

(** [OverpassElement]: a node carries its position, a way may carry a
    centre. *)
Record OverpassElement := mkElement {
  el_type : ElementType;
  el_lat : Q;
  el_lon : Q;
  center : option (Q * Q);
  tags : option (gmap string string)
}.

(** [tags.k] where the source tests it for truth: a tag that is present and
    not empty. *)
Definition tag (t : gmap string string) (k : string) : option string :=
  match t !! k with
  | Some v => if String.eqb v "" then None else Some v
  | None => None
  end.

Definition has (t : gmap string string) (k : string) : bool :=
  match tag t k with Some _ => true | None => false end.

Definition tagIs (t : gmap string string) (k v : string) : bool :=
  match t !! k with Some x => String.eqb x v | None => false end.

Definition determinePinType (t : gmap string string) : PinType :=
  if has t "historic" || has t "heritage" || has t "memorial" then historical
  else if tagIs t "tourism" "attraction" || tagIs t "tourism" "viewpoint" then landmark
  else if has t "natural" || has t "waterway" then natural
  else if tagIs t "amenity" "theatre" || tagIs t "amenity" "museum" || tagIs t "amenity" "gallery"
  then cultural
  else if has t "event" then event
  else poi.

Definition push (t : gmap string string) (k : string) (f : string -> string)
    (parts : list string) : list string :=
  match tag t k with
  | Some v => parts ++ [f v]
  | None => parts
  end.

Definition extractCategories (t : gmap string string) : list string :=
  let categories := [] in
  let categories := push t "amenity" (fun v => v) categories in
  let categories := push t "tourism" (fun v => v) categories in
  let categories := push t "historic" (fun _ => "historic") categories in
  let categories := push t "leisure" (fun v => v) categories in
  let categories := push t "shop" (fun v => "shop:" ++ v)%string categories in
  let categories := push t "cuisine" (fun v => "cuisine:" ++ v)%string categories in
  categories.

(** [s.replace(/_/g, ' ')] *)
Fixpoint spaced (s : string) : string :=
  match s with
  | EmptyString => EmptyString
  | String c s' => String (if Ascii.eqb c "_"%char then " "%char else c) (spaced s')
  end.

Definition generateDescription (t : gmap string string) : string :=
  let parts := [] in
  let parts := push t "description" (fun v => v) parts in
  let parts := push t "amenity" (fun v => "Type: " ++ spaced v)%string parts in
  let parts := push t "cuisine" (fun v => "Cuisine: " ++ v)%string parts in
  let parts := push t "historic" (fun v => "Historic: " ++ spaced v)%string parts in
  let parts := push t "website" (fun v => "Website: " ++ v)%string parts in
  let joined := String.concat ". " parts in
  if String.eqb joined "" then "No description available" else joined.

(** [convertElementToGeoPin]; [newId] is the id that [generateId('osm')]
    makes up. *)
Definition convertElementToGeoPin (newId : string) (element : OverpassElement)
    : option GeoPin :=
  match tags element with
  | None => None
  | Some t =>
      match tag t "name" with
      | None => None
      | Some name =>
          let location :=
            match el_type element with
            | node => mkLocation (el_lat element) (el_lon element)
            | way =>
                match center element with
                | Some (la, lo) => mkLocation la lo
                | None => mkLocation 0 0
                end
            end in
          if Qeq_bool (lat location) 0 && Qeq_bool (lng location) 0 then None
          else
            Some (mkGeoPin newId location 50 (determinePinType t)
                    (mkPinData name (generateDescription t) (extractCategories t)))
      end
  end.

Section Fetch.

(** [overpass n] is how the [n]-th request to the Overpass API ends: the
    elements of the response, or [None] for a failure, after some latency
    (ms).  [generateId n i] is the id made up for element [i] of that
    response, and [show] renders a number as JavaScript does. *)
Variable overpass : nat -> option (list OverpassElement) * Z.
Variable generateId : nat -> nat -> string.
Variable show : Q -> string.
Variable cacheEnabled : bool.

(** [elements.map(convertElementToGeoPin).filter(pin => pin !== null)] *)
Fixpoint convertFrom (n i : nat) (elements : list OverpassElement) : list GeoPin :=
  match elements with
  | [] => []
  | element :: rest =>
      match convertElementToGeoPin (generateId n i) element with
      | Some pin => pin :: convertFrom n (S i) rest
      | None => convertFrom n (S i) rest
      end
  end.

Definition cacheKey (location : Location) (radiusMeters : Q)
    (interests : option (list string)) : string :=
  Cache.createKey
    ["osm"; "pois"; show (lat location); show (lng location); show radiusMeters;
     match interests with
     | Some l => let joined := String.concat "," l in
                 if String.eqb joined "" then "all" else joined
     | None => "all"
     end].

(** The function handed to [cache.wrap]: a failed request is caught and
    answered with no pins. *)
Definition lookup : Cache.Compute (list GeoPin) :=
  fun n =>
    let (response, latency) := overpass n in
    (Cache.Resolved
       (Some match response with
             | Some elements => convertFrom n 0 elements
             | None => []
             end),
     latency).

Definition fetchPOIsNearLocation (location : Location) (radiusMeters : Q)
    (interests : option (list string))
    (sw : Cache.CacheService (list GeoPin) * Cache.World)
    : Cache.Outcome (list GeoPin) * (Cache.CacheService (list GeoPin) * Cache.World) :=
  Cache.wrap (list GeoPin) cacheEnabled (cacheKey location radiusMeters interests)
             lookup None sw.

End Fetch.

(** What every pin made from an OpenStreetMap element has. *)
Definition wellFormed (p : GeoPin) : Prop :=
  name (data p) <> "" /\
  description (data p) <> "" /\
  radius p = 50%Q /\
  ~ (lat (location p) == 0 /\ lng (location p) == 0)%Q.

End OSM.

(** * Properties *)

(** ** Spatial index *)

Module SpatialTheory.
Import Spatial.

(** *** The stable sort *)

Section Sort.
Context {A : Type} (key : A -> Q).

#[local] Abbreviation cmp := (fun a b : A => (key a - key b)%Q).

Lemma cmp_le (a b : A) : Qle_bool (cmp a b) 0%Q = true <-> (key a <= key b)%Q.
Proof.
  rewrite Qle_bool_iff. split; intros H.
  - apply Qplus_le_l with (z := (- key b)%Q). rewrite Qplus_opp_r. exact H.
  - apply Qplus_le_l with (z := (- key b)%Q) in H. rewrite Qplus_opp_r in H. exact H.
Qed.

Lemma sort_insert_perm (x : A) (l : list A) :
  Permutation (sort_insert cmp x l) (x :: l).
Proof.
  induction l as [|y l IH]; simpl; [reflexivity|].
  destruct (Qle_bool (cmp x y) 0%Q); [reflexivity|].
  rewrite IH. apply perm_swap.
Qed.

Lemma sort_perm (l : list A) : Permutation (sort cmp l) l.
Proof.
  induction l as [|x l IH]; simpl; [reflexivity|].
  rewrite sort_insert_perm. now constructor.
Qed.

Lemma sort_insert_sorted (x : A) (l : list A) :
  StronglySorted (key_le key) l -> StronglySorted (key_le key) (sort_insert cmp x l).
Proof.
  induction 1 as [|y l Hl IH Hy]; simpl.
  - repeat constructor.
  - destruct (Qle_bool (cmp x y) 0%Q) eqn:E.
    + apply cmp_le in E. constructor; [now constructor|].
      constructor; [exact E|].
      eapply List.Forall_impl; [|exact Hy]. intros z Hz. unfold key_le in *.
      eapply Qle_trans; eassumption.
    + assert (Hyx : key_le key y x).
      { unfold key_le. destruct (Qlt_le_dec (key y) (key x)) as [H|H].
        - now apply Qlt_le_weak.
        - apply cmp_le in H. congruence. }
      constructor; [exact IH|].
      eapply Permutation_Forall; [symmetry; apply sort_insert_perm|].
      now constructor.
Qed.

Lemma sort_sorted (l : list A) : StronglySorted (key_le key) (sort cmp l).
Proof.
  induction l as [|x l IH]; simpl; [constructor|].
  now apply sort_insert_sorted.
Qed.

End Sort.

(** *** Invariants of the reachable states *)

Lemma Forall_remove_first {A} (P : A -> Prop) (f : A -> bool) (l : list A) :
  Forall P l -> Forall P (remove_first f l).
Proof.
  induction 1 as [|x l Hx Hl IH]; simpl; [constructor|].
  destruct (f x); [exact Hl | now constructor].
Qed.

Lemma In_remove_first {A} (f : A -> bool) (x : A) (l : list A) :
  In x l -> f x = false -> In x (remove_first f l).
Proof.
  induction l as [|y l IH]; simpl; [tauto|].
  intros [->|H] Hx.
  - rewrite Hx. now left.
  - destruct (f y); [exact H | right; now apply IH].
Qed.

Lemma remove_first_split {A} (f : A -> bool) (x : A) (l : list A) :
  In x l -> f x = true ->
  exists l1 a l2, l = l1 ++ a :: l2 /\ remove_first f l = l1 ++ l2 /\
                  f a = true /\ Forall (fun y => f y = false) l1.
Proof.
  induction l as [|y l IH]; simpl; [tauto|].
  intros Hin Hx. destruct (f y) eqn:Ey.
  - exists [], y, l. repeat split; auto.
  - destruct Hin as [->|Hin]; [congruence|].
    destruct (IH Hin Hx) as (l1 & a & l2 & -> & -> & Ha & Hl1).
    exists (y :: l1), a, l2. repeat split; auto.
Qed.

Lemma contains_refl b : contains b b = true.
Proof.
  unfold contains. repeat (apply andb_true_intro; split);
    apply Qle_bool_iff, Qle_refl.
Qed.

Section Index.
Variable bufferBBox : Location -> Q -> option BBox.
Variable distance : Location -> Location -> Q.
Variable descends : BBox -> SpatialItem -> bool.

#[local] Abbreviation addPin := (addPin bufferBBox).
#[local] Abbreviation removePin := (removePin bufferBBox descends).
#[local] Abbreviation run := (run bufferBBox descends).
#[local] Abbreviation queryByRadius := (queryByRadius bufferBBox distance).
#[local] Abbreviation boxes_ok := (boxes_ok bufferBBox).
#[local] Abbreviation within := (within distance).
#[local] Abbreviation buffer_covers := (buffer_covers bufferBBox distance).
#[local] Abbreviation descends_contains := (descends_contains descends).
#[local] Abbreviation tracked_stored := (tracked_stored bufferBBox).
#[local] Abbreviation in_step := Spatial.in_step.

Lemma boxes_ok_addPin p s : boxes_ok s -> boxes_ok (addPin p s).
Proof.
  unfold Spatial.boxes_ok, Spatial.addPin. intros H.
  destruct (bufferBBox (location p) (radius p)) eqn:E; [|exact H].
  simpl. unfold rb_insert. apply Forall_app. split; [exact H|].
  constructor; [exact E | constructor].
Qed.

Lemma boxes_ok_removePin pinId s : boxes_ok s -> boxes_ok (snd (removePin pinId s)).
Proof.
  unfold Spatial.boxes_ok, Spatial.removePin. intros H.
  destruct (pinMap s !! pinId) as [p|]; [|exact H].
  destruct (bufferBBox (location p) (radius p)); [|exact H].
  simpl. now apply Forall_remove_first.
Qed.

Lemma boxes_ok_run ops s : boxes_ok s -> boxes_ok (run ops s).
Proof.
  revert s. induction ops as [|o ops IH]; intros s H; simpl; [exact H|].
  apply IH. destruct o; simpl.
  - now apply boxes_ok_addPin.
  - now apply boxes_ok_removePin.
Qed.

Lemma boxes_ok_empty : boxes_ok empty.
Proof. constructor. Qed.

(** *** queryByRadius *)

Lemma filter_candidates loc r bbox (t : RBush) :
  (forall a, In a t -> within loc r (pin a) = true -> intersects bbox (box a) = true) ->
  List.filter (fun item : GeoPin * Q => Qle_bool (snd item) r)
    (map (fun item => (pin item, distance loc (location (pin item))))
       (rb_search bbox t))
  = map (fun p => (p, distance loc (location p)))
      (List.filter (within loc r) (map pin t)).
Proof.
  unfold rb_search. induction t as [|a t IH]; intros H; simpl; [reflexivity|].
  assert (IH' := IH (fun b Hb => H b (or_intror Hb))). clear IH.
  fold (within loc r (pin a)).
  destruct (within loc r (pin a)) eqn:Ew.
  - rewrite (H a (or_introl eq_refl) Ew). simpl.
    unfold Spatial.within in Ew. rewrite Ew. simpl. now f_equal.
  - destruct (intersects bbox (box a)); simpl; [|exact IH'].
    unfold Spatial.within in Ew. rewrite Ew. exact IH'.
Qed.

(** What [queryByRadius] returns, in terms of the tree: the pins of the tree
    entries whose distance to the query location is at most the radius, one
    for each entry, in ascending order of that distance. *)
Lemma queryByRadius_entries_sorted
    (Hcover : buffer_covers) ops loc r bbox
    (Hvalid : bufferBBox loc r = Some bbox) :
  let s := run ops empty in
  Permutation (queryByRadius loc r s)
              (List.filter (within loc r) (map pin (rb_all (index s)))) /\
  StronglySorted
    (fun p q => (distance loc (location p) <= distance loc (location q))%Q)
    (queryByRadius loc r s).
Proof.
  intros s. unfold Spatial.queryByRadius. rewrite Hvalid.
  assert (Hinv : boxes_ok s) by (apply boxes_ok_run, boxes_ok_empty).
  rewrite (filter_candidates loc r bbox (index s)).
  2:{ intros a Ha Hw. unfold Spatial.boxes_ok in Hinv.
      rewrite List.Forall_forall in Hinv.
      eapply Hcover; [exact Hvalid | apply Hinv, Ha |].
      unfold Spatial.within in Hw. now apply Qle_bool_iff. }
  unfold rb_all.
  set (l := List.filter (within loc r) (map pin (index s))).
  set (f := fun p => (p, distance loc (location p))).
  split.
  - rewrite (sort_perm snd (map f l)). rewrite map_map. simpl. now rewrite map_id.
  - pose proof (sort_sorted snd (map f l)) as Hs.
    assert (Hall : Forall (fun x : GeoPin * Q => snd x = distance loc (location (fst x)))
                     (sort (fun a b => (snd a - snd b)%Q) (map f l))).
    { eapply Permutation_Forall; [symmetry; apply (sort_perm snd)|].
      apply List.Forall_forall. intros x Hx. apply in_map_iff in Hx.
      destruct Hx as (p & <- & _). reflexivity. }
    induction Hs as [|x xs Hxs IH Hx]; simpl; [constructor|].
    inversion Hall as [|? ? Hx0 Hxs0]; subst.
    constructor; [now apply IH|].
    rewrite List.Forall_forall in Hx, Hxs0 |- *.
    intros q Hq. apply in_map_iff in Hq. destruct Hq as (y & <- & Hy).
    specialize (Hx y Hy). unfold key_le in Hx. simpl in Hx.
    rewrite <- Hx0, <- (Hxs0 y Hy). exact Hx.
Qed.

(** C1 at the failing input.  A marker that is inserted twice has two tree
    entries, and a query around it returns it twice; after one [removePin]
    of its id the marker is no longer tracked, [totalPins] is 0, and the
    query still returns it.  This holds for every marker whose box turf can
    compute and every query disc that contains it. *)
Theorem queryByRadius_returns_removed_marker
    (Hdesc : descends_contains) p loc r pbox qbox
    (Hp : bufferBBox (location p) (radius p) = Some pbox)
    (Hq : bufferBBox loc r = Some qbox)
    (Hmeet : intersects qbox pbox = true)
    (Hnear : (distance loc (location p) <= r)%Q) :
  queryByRadius loc r (run [Add p; Add p] empty) = [p; p] /\
  let s := run [Add p; Add p; Remove (id p)] empty in
  pinMap s !! id p = None /\
  totalPins (getStats s) = 0%nat /\
  queryByRadius loc r s = [p].
Proof.
  assert (Htwice : run [Add p; Add p] empty =
            mkService [mkSpatialItem pbox p; mkSpatialItem pbox p]
                      (<[id p := p]> (<[id p := p]> ∅))).
  { assert (Hadd : forall s, addPin p s =
              mkService (index s ++ [mkSpatialItem pbox p]) (<[id p := p]> (pinMap s))).
    { intros s. unfold Spatial.addPin. rewrite Hp. reflexivity. }
    change (run [Add p; Add p] empty) with (addPin p (addPin p empty)).
    rewrite !Hadd. reflexivity. }
  assert (Hnear' : Qle_bool (distance loc (location p)) r = true)
    by now apply Qle_bool_iff.
  assert (Hzero : Qle_bool (distance loc (location p) - distance loc (location p)) 0
                  = true) by (apply Qle_bool_iff; lra).
  assert (Hremoved : run [Add p; Add p; Remove (id p)] empty =
            mkService [mkSpatialItem pbox p] ∅).
  { change (run [Add p; Add p; Remove (id p)] empty)
      with (snd (removePin (id p) (run [Add p; Add p] empty))).
    rewrite Htwice. unfold Spatial.removePin. simpl.
    rewrite lookup_insert_eq, Hp. simpl. unfold rb_remove. simpl.
    rewrite (Hdesc pbox (mkSpatialItem pbox p) (contains_refl pbox)).
    unfold same_id. simpl. rewrite String.eqb_refl. simpl.
    rewrite !delete_insert_eq, delete_empty. reflexivity. }
  split.
  - rewrite Htwice. unfold Spatial.queryByRadius. rewrite Hq. simpl.
    unfold rb_search. simpl. rewrite Hmeet. simpl. rewrite Hnear'. simpl.
    rewrite Hzero. reflexivity.
  - cbv zeta. rewrite Hremoved. simpl. split; [apply lookup_empty|].
    split; [reflexivity|].
    unfold Spatial.queryByRadius. rewrite Hq. simpl.
    unfold rb_search. simpl. rewrite Hmeet. simpl. rewrite Hnear'. reflexivity.
Qed.

(** *** addPin, removePin and getStats *)

(** C7 (amended). Inserting a pin whose id is not tracked and then removing
    that id brings [totalPins] back to its value before the insert; removing
    an id that is not tracked returns [false] and leaves the service, hence
    its statistics, as it was. *)
Theorem insert_remove_totalPins s p pinId
    (Hfresh : pinMap s !! id p = None)
    (Habsent : pinMap s !! pinId = None) :
  totalPins (getStats (snd (removePin (id p) (addPin p s)))) = totalPins (getStats s) /\
  fst (removePin pinId s) = false /\
  getStats (snd (removePin pinId s)) = getStats s.
Proof.
  split.
  - unfold Spatial.addPin.
    destruct (bufferBBox (location p) (radius p)) as [bbox|] eqn:E.
    + unfold Spatial.removePin. simpl. rewrite lookup_insert_eq, E. simpl.
      now rewrite delete_insert_eq, delete_id.
    + unfold Spatial.removePin. now rewrite Hfresh.
  - unfold Spatial.removePin. now rewrite Habsent.
Qed.

Lemma tracked_stored_addPin p s : tracked_stored s -> tracked_stored (addPin p s).
Proof.
  unfold Spatial.tracked_stored, Spatial.addPin. intros H pinId q.
  destruct (bufferBBox (location p) (radius p)) as [bbox|] eqn:E; [|apply H].
  simpl. unfold rb_insert. destruct (decide (id p = pinId)) as [<-|Hne].
  - rewrite lookup_insert_eq. intros [= <-]. split; [reflexivity|].
    exists bbox. split; [exact E|]. apply in_or_app. right. now left.
  - rewrite lookup_insert_ne by exact Hne. intros Hq.
    destruct (H _ _ Hq) as (Hid & b & Hb & Hin). split; [exact Hid|].
    exists b. split; [exact Hb|]. apply in_or_app. now left.
Qed.

Lemma tracked_stored_removePin pinId s :
  tracked_stored s -> tracked_stored (snd (removePin pinId s)).
Proof.
  unfold Spatial.tracked_stored, Spatial.removePin. intros H k q.
  destruct (pinMap s !! pinId) as [p|] eqn:Ep; [|apply H].
  destruct (bufferBBox (location p) (radius p)) as [bbox|] eqn:E; [|apply H].
  simpl. destruct (decide (pinId = k)) as [<-|Hne].
  - rewrite lookup_delete_eq. discriminate.
  - rewrite lookup_delete_ne by exact Hne. intros Hq.
    destruct (H _ _ Hq) as (Hid & b & Hb & Hin). split; [exact Hid|].
    exists b. split; [exact Hb|]. unfold rb_remove.
    apply In_remove_first; [exact Hin|].
    apply andb_false_intro2. unfold same_id. simpl.
    destruct (H _ _ Ep) as (Hidp & _). rewrite Hidp, Hid.
    apply String.eqb_neq. exact Hne.
Qed.

Lemma tracked_stored_run ops s : tracked_stored s -> tracked_stored (run ops s).
Proof.
  revert s. induction ops as [|o ops IH]; intros s H; simpl; [exact H|].
  apply IH. destruct o; simpl.
  - now apply tracked_stored_addPin.
  - now apply tracked_stored_removePin.
Qed.

Lemma tracked_stored_empty : tracked_stored empty.
Proof. intros pinId p. simpl. rewrite lookup_empty. discriminate. Qed.

(** *** The two counts *)

Lemma in_step_addPin p s :
  pinMap s !! id p = None -> in_step s -> in_step (addPin p s).
Proof.
  unfold in_step, Spatial.addPin. intros Hfresh H.
  destruct (bufferBBox (location p) (radius p)) as [bbox|]; [|exact H].
  simpl. unfold rb_insert. rewrite map_app. simpl.
  rewrite map_to_list_insert by exact Hfresh.
  rewrite <- H. symmetry. apply Permutation_cons_append.
Qed.

Lemma in_step_removePin (Hdesc : descends_contains) pinId s :
  boxes_ok s -> in_step s -> in_step (snd (removePin pinId s)).
Proof.
  unfold in_step, Spatial.removePin. intros Hbox H.
  destruct (pinMap s !! pinId) as [p|] eqn:Ep; [|exact H].
  destruct (bufferBBox (location p) (radius p)) as [bbox|] eqn:Eb; [|exact H].
  simpl. unfold rb_remove.
  assert (Hin : In (pinId, p) (map (fun a => (id (pin a), pin a)) (index s))).
  { eapply Permutation_in; [symmetry; exact H|].
    apply list_elem_of_In, elem_of_map_to_list, Ep. }
  apply in_map_iff in Hin. destruct Hin as (a & Ha & Hain).
  injection Ha as Hid Hpin.
  assert (Hbox_a : box a = bbox).
  { unfold Spatial.boxes_ok in Hbox. rewrite List.Forall_forall in Hbox.
    specialize (Hbox a Hain). rewrite Hpin, Eb in Hbox. now injection Hbox. }
  destruct (remove_first_split
              (fun x => descends (box (mkSpatialItem bbox p)) x &&
                        same_id (mkSpatialItem bbox p) x) a (index s) Hain)
    as (l1 & a' & l2 & Hs & -> & Ha' & _).
  { apply andb_true_intro. split.
    - apply Hdesc. simpl. rewrite Hbox_a. apply contains_refl.
    - unfold same_id. simpl. rewrite Hpin. apply String.eqb_refl. }
  apply andb_prop in Ha'. destruct Ha' as [_ Ha']. unfold same_id in Ha'.
  simpl in Ha'. apply String.eqb_eq in Ha'.
  assert (Hp' : pinMap s !! id (pin a') = Some (pin a')).
  { apply elem_of_map_to_list, list_elem_of_In.
    eapply Permutation_in; [exact H|]. rewrite Hs.
    apply in_map_iff. exists a'. split; [reflexivity|].
    apply in_or_app. right. now left. }
  rewrite Hs in H. rewrite map_app in H. simpl in H.
  rewrite <- Permutation_middle in H.
  rewrite map_app.
  eapply Permutation_cons_inv with (a := (id (pin a'), pin a')).
  rewrite H. symmetry.
  assert (E : id (pin a') = pinId) by congruence.
  rewrite E in *. rewrite Ep in Hp'. injection Hp' as <-.
  now apply map_to_list_delete.
Qed.

Lemma in_step_run (Hdesc : descends_contains) ops : forall s,
  fresh_inserts bufferBBox descends ops s -> boxes_ok s -> in_step s ->
  in_step (run ops s).
Proof.
  induction ops as [|o ops IH]; intros s Hfresh Hbox H; simpl; [exact H|].
  destruct Hfresh as [Ho Hfresh]. apply IH; [exact Hfresh | |]; destruct o; simpl.
  - now apply boxes_ok_addPin.
  - now apply boxes_ok_removePin.
  - now apply in_step_addPin.
  - now apply in_step_removePin.
Qed.

(** As long as no id is inserted while it is tracked, the lookup table and
    the tree hold the same pins, and [getStats] reports equal counts. *)
Lemma getStats_counts_match (Hdesc : descends_contains) ops :
  fresh_inserts bufferBBox descends ops empty ->
  let s := run ops empty in
  in_step s /\ totalPins (getStats s) = indexSize (getStats s).
Proof.
  intros Hfresh s.
  assert (H : in_step s).
  { apply in_step_run; auto; [apply boxes_ok_empty|].
    unfold in_step. simpl. now rewrite map_to_list_empty. }
  split; [exact H|]. simpl. unfold rb_all.
  rewrite <- length_map_to_list. unfold in_step in H.
  rewrite <- H. now rewrite length_map.
Qed.

(** A second insert of a tracked id adds a tree entry and no table entry. *)
Lemma addPin_tracked_id p q s bbox :
  pinMap s !! id p = Some q ->
  bufferBBox (location p) (radius p) = Some bbox ->
  totalPins (getStats (addPin p s)) = totalPins (getStats s) /\
  indexSize (getStats (addPin p s)) = S (indexSize (getStats s)).
Proof.
  intros Hq Hb. unfold Spatial.addPin. rewrite Hb. simpl. split.
  - rewrite map_size_insert, Hq. reflexivity.
  - unfold rb_all, rb_insert. rewrite length_app. simpl. lia.
Qed.

(** *** removePin of an indexed pin *)

Lemma in_step_initial : in_step empty.
Proof. unfold in_step. simpl. now rewrite map_to_list_empty. Qed.

Lemma in_step_ids s :
  in_step s -> NoDup (map (fun a => id (pin a)) (index s)).
Proof.
  unfold in_step. intros H.
  assert (E : map (fun a => id (pin a)) (index s)
              = map fst (map (fun a => (id (pin a), pin a)) (index s))).
  { rewrite map_map. reflexivity. }
  rewrite E, H. apply NoDup_fst_map_to_list.
Qed.

Lemma in_step_lookup s a :
  in_step s -> In a (index s) -> pinMap s !! id (pin a) = Some (pin a).
Proof.
  unfold in_step. intros H Ha.
  apply elem_of_map_to_list, list_elem_of_In.
  eapply Permutation_in; [exact H|].
  apply in_map_iff. exists a. now split.
Qed.

Lemma NoDup_map_middle {X Y} (f : X -> Y) l1 a l2 :
  NoDup (map f (l1 ++ a :: l2)) ->
  forall b, In b (l1 ++ l2) -> f b <> f a.
Proof.
  intros H b Hb E.
  assert (P : Permutation (map f (l1 ++ a :: l2)) (f a :: map f (l1 ++ l2))).
  { rewrite !map_app. simpl. symmetry. apply Permutation_middle. }
  rewrite P in H. apply NoDup_cons in H. destruct H as [H _].
  apply H. rewrite <- E. apply list_elem_of_In, in_map, Hb.
Qed.


End Index.

(** *** The flat-earth model satisfies the contract of the coarse filter *)

Lemma flatBBox_Some loc r bbox :
  flatBBox loc r = Some bbox ->
  (0 < r)%Q /\
  bbox = mkBBox (lng loc - r / metersPerDegree)%Q (lat loc - r / metersPerDegree)%Q
                (lng loc + r / metersPerDegree)%Q (lat loc + r / metersPerDegree)%Q.
Proof.
  unfold flatBBox. destruct (Qle_bool r 0) eqn:E; [discriminate|].
  intros [= <-]. split; [|reflexivity].
  apply Qnot_le_lt. intros H. apply Qle_bool_iff in H. congruence.
Qed.

Lemma flat_covers : Spatial.buffer_covers flatBBox flatDistance.
Proof.
  intros loc r bbox p pbox Hb Hp Hd.
  apply flatBBox_Some in Hb. destruct Hb as [Hr ->].
  apply flatBBox_Some in Hp. destruct Hp as [Hpr ->].
  unfold flatDistance, metersPerDegree in *.
  assert (Hd1 : (r / 111320 * 111320 == r)%Q) by field.
  assert (Hd2 : (radius p / 111320 * 111320 == radius p)%Q) by field.
  remember (r / 111320)%Q as d eqn:Ed. clear Ed.
  remember (radius p / 111320)%Q as dp eqn:Edp. clear Edp.
  pose proof (Qabs_nonneg (lat loc - lat (location p))) as Ha0.
  pose proof (Qabs_nonneg (lng loc - lng (location p))) as Hb0.
  assert (Ha : (Qabs (lat loc - lat (location p)) <= d)%Q) by lra.
  assert (Hb : (Qabs (lng loc - lng (location p)) <= d)%Q) by lra.
  apply Qabs_Qle_condition in Ha. apply Qabs_Qle_condition in Hb.
  unfold intersects; simpl.
  repeat (apply andb_true_intro; split); apply Qle_bool_iff; lra.
Qed.

Lemma queryByRadius_returns_removed_marker_witness :
  let loc := location pinA in
  queryByRadius flatBBox flatDistance loc 100%Q
    (run flatBBox single_leaf [Add pinA; Add pinA] empty) = [pinA; pinA] /\
  let s := run flatBBox single_leaf [Add pinA; Add pinA; Remove "pin_x"] empty in
  pinMap s !! "pin_x" = None /\
  totalPins (getStats s) = 0%nat /\
  queryByRadius flatBBox flatDistance loc 100%Q s = [pinA].
Proof.
  apply (queryByRadius_returns_removed_marker flatBBox flatDistance single_leaf
           (fun b a _ => eq_refl) pinA (location pinA) 100%Q
           (mkBBox (lng (location pinA) - 100 / metersPerDegree)
                   (lat (location pinA) - 100 / metersPerDegree)
                   (lng (location pinA) + 100 / metersPerDegree)
                   (lat (location pinA) + 100 / metersPerDegree))
           (mkBBox (lng (location pinA) - 100 / metersPerDegree)
                   (lat (location pinA) - 100 / metersPerDegree)
                   (lng (location pinA) + 100 / metersPerDegree)
                   (lat (location pinA) + 100 / metersPerDegree)));
    vm_compute; try reflexivity; discriminate.
Defined.

(** The end-to-end scenario: two markers about 100 m apart (in the
    flat-earth model); 200 m around the first finds both, the nearer first,
    and 50 m finds only the first. *)
Example queryByRadius_scenario :
  let s := run flatBBox single_leaf [Add marker2; Add marker1] empty in
  let loc := mkLocation 51.5074%Q (-0.1278)%Q in
  queryByRadius flatBBox flatDistance loc 200%Q s = [marker1; marker2] /\
  queryByRadius flatBBox flatDistance loc 50%Q s = [marker1].
Proof. vm_compute. split; reflexivity. Qed.

Lemma insert_remove_totalPins_witness :
  totalPins (getStats (snd (removePin flatBBox single_leaf (id pinA)
                              (addPin flatBBox pinA empty)))) = totalPins (getStats empty) /\
  fst (removePin flatBBox single_leaf "pin_y" empty) = false /\
  getStats (snd (removePin flatBBox single_leaf "pin_y" empty)) = getStats empty.
Proof.
  apply (insert_remove_totalPins flatBBox single_leaf empty pinA "pin_y");
    reflexivity.
Defined.

(** C7 as stated fails for an id that is already tracked: the insert
    replaces the tracked pin without changing the count, and the remove then
    takes the count one below its value before the insert. *)
Lemma insert_remove_tracked_id_counterexample :
  let s := addPin flatBBox pinA empty in
  totalPins (getStats s) = 1%nat /\
  totalPins (getStats (snd (removePin flatBBox single_leaf (id pinB)
                              (addPin flatBBox pinB s)))) = 0%nat.
Proof. vm_compute. split; reflexivity. Qed.

(** C8 at the failing input: the same pin inserted twice is tracked once
    and stored twice. *)
Theorem getStats_after_double_insert :
  getStats (run flatBBox single_leaf [Add pinA; Add pinA] empty) = mkStats 1 2.
Proof. vm_compute. reflexivity. Qed.

Lemma single_leaf_descends : Spatial.descends_contains single_leaf.
Proof. intros b a _. reflexivity. Qed.


Lemma two_level_descends root : Spatial.descends_contains (two_level root).
Proof.
  intros b a H. unfold two_level. rewrite H. apply orb_true_r.
Qed.


End SpatialTheory.

(** ** Cache layer *)

Module CacheTheory.
Import Cache.

Section Wrap.
Variable V : Type.

#[local] Abbreviation get := (get V true).
#[local] Abbreviation set := (set V true).
#[local] Abbreviation wrap := (wrap V true).

Lemma live_after (t0 ttl dt : Z) :
  (0 <= dt)%Z -> within_ttl ttl dt ->
  let t := (if (ttl =? 0)%Z then 0 else t0 + ttl * 1000)%Z in
  negb (t =? 0)%Z && (t <? t0 + dt)%Z = false.
Proof.
  intros Hdt Hw. simpl. destruct (ttl =? 0)%Z eqn:E; [reflexivity|].
  destruct Hw as [Hw|Hw]; [apply Z.eqb_neq in E; contradiction|].
  apply andb_false_intro2. apply Z.ltb_ge. lia.
Qed.

Lemma livetime_effective (t0 : Z) (ttl : option Z) (c : NodeCache V) :
  livetime V t0 (if truthy ttl then ttl else None) c
  = (if (effectiveTTL V ttl c =? 0)%Z then 0 else t0 + effectiveTTL V ttl c * 1000)%Z.
Proof.
  destruct ttl as [t|]; simpl; [|reflexivity].
  destruct (t =? 0)%Z eqn:E; simpl; [reflexivity|].
  rewrite E. destruct t; [discriminate| |]; reflexivity.
Qed.

Lemma stdTTL_get now key s : stdTTL V (cache V (snd (get now key s))) = stdTTL V (cache V s).
Proof.
  unfold Cache.get, nc_get. simpl.
  destruct (store V (cache V s) !! key) as [[e t]|]; [|reflexivity].
  destruct (negb (t =? 0)%Z && (t <? now)%Z); reflexivity.
Qed.

(** A value stored by [set] is served by [get] while its TTL lasts. *)
Lemma get_after_set t0 dt key v ttl s :
  (0 <= dt)%Z -> within_ttl (effectiveTTL V ttl (cache V s)) dt ->
  fst (get (t0 + dt) key (snd (set t0 key (Some v) ttl s))) = Some v.
Proof.
  intros Hdt Hw. unfold Cache.set. simpl.
  assert (E : forall c, (if truthy ttl then nc_set V t0 key (mkEntry (Some v) t0 0) ttl c
                         else nc_set V t0 key (mkEntry (Some v) t0 0) None c)
                        = nc_set V t0 key (mkEntry (Some v) t0 0)
                                 (if truthy ttl then ttl else None) c)
    by (intros c; destruct (truthy ttl); reflexivity).
  rewrite E. unfold nc_set. simpl. unfold Cache.get, nc_get. simpl.
  rewrite lookup_insert_eq, livetime_effective.
  now rewrite (live_after t0 _ dt Hdt Hw).
Qed.

(** A hit refreshes the entry under the default TTL. *)
Lemma get_after_hit t0 dt key v s :
  (0 <= dt)%Z -> within_ttl (stdTTL V (cache V s)) dt ->
  fst (get t0 key s) = Some v ->
  fst (get (t0 + dt) key (snd (get t0 key s))) = Some v.
Proof.
  intros Hdt Hw. unfold Cache.get at 1 3. unfold nc_get. simpl.
  destruct (store V (cache V s) !! key) as [[e t]|]; [|discriminate].
  destruct (negb (t =? 0)%Z && (t <? t0)%Z); [discriminate|].
  simpl. intros Hv. unfold Cache.get, nc_get. simpl.
  rewrite lookup_insert_eq.
  change (livetime V t0 None (cache V s))
    with (if (stdTTL V (cache V s) =? 0)%Z then 0 else t0 + stdTTL V (cache V s) * 1000)%Z.
  now rewrite (live_after t0 _ dt Hdt Hw).
Qed.

Lemma wrap_calls (s : CacheService V) (w : World) key (fn : Compute V) ttl :
  (calls (snd (snd (wrap key fn ttl (s, w)))) <= S (calls w))%nat.
Proof.
  unfold Cache.wrap. destruct (get (now w) key s) as [[v0|] s1]; simpl; [lia|].
  destruct (fn (calls w)) as [[result|err] latency]; simpl; lia.
Qed.

(** [wrap] is its two halves run without anything in between. *)
Lemma wrap_halves (s : CacheService V) (w : World) key (fn : Compute V) ttl :
  wrap key fn ttl (s, w) =
    match wrap_call V true key fn (s, w) with
    | (inl o, sw) => (o, sw)
    | (inr (o, latency), (s1, w1)) =>
        (fst (wrap_resume V true key ttl o (now w + latency) s1),
         (snd (wrap_resume V true key ttl o (now w + latency) s1),
          mkWorld (now w + latency) (calls w1)))
    end.
Proof.
  unfold Cache.wrap, wrap_call, wrap_resume.
  destruct (get (now w) key s) as [[v0|] s1]; [reflexivity|].
  destruct (fn (calls w)) as [[result|err] latency]; reflexivity.
Qed.

(** C10 (amended). With the cache feature enabled and a compute function that
    always resolves to the same value other than [undefined], take a call
    of [wrap] and a second call of the same key that starts after the first
    has returned, within the TTL under which [wrap] stores.  The two calls
    invoke the compute function at most once.  When the first call finds no
    live entry, it invokes the function once and returns its value, and the
    second call returns that value without invoking the function. *)
Theorem wrap_twice_computes_once (s : CacheService V) (w : World) key
    (fn : Compute V) ttl dt v
    (Hfn : forall n, fst (fn n) = Resolved (Some v))
    (Hdt : (0 <= dt)%Z)
    (Httl : within_ttl (effectiveTTL V ttl (cache V s)) dt) :
  let first := wrap key fn ttl (s, w) in
  let second := wrap key fn ttl (later V dt (snd first)) in
  (calls (snd (snd second)) <= S (calls w))%nat /\
  (fst (get (now w) key s) = None ->
   fst first = Resolved (Some v) /\
   calls (snd (snd first)) = S (calls w) /\
   fst second = fst first /\
   calls (snd (snd second)) = calls (snd (snd first))).
Proof.
  cbv zeta.
  assert (Hmiss : fst (get (now w) key s) = None ->
            fst (wrap key fn ttl (s, w)) = Resolved (Some v) /\
            calls (snd (snd (wrap key fn ttl (s, w)))) = S (calls w) /\
            fst (wrap key fn ttl (later V dt (snd (wrap key fn ttl (s, w)))))
              = fst (wrap key fn ttl (s, w)) /\
            calls (snd (snd (wrap key fn ttl
                               (later V dt (snd (wrap key fn ttl (s, w))))))) =
              calls (snd (snd (wrap key fn ttl (s, w))))).
  { intros Hg. set (s1 := snd (get (now w) key s)).
    destruct (fn (calls w)) as [o latency] eqn:Ef.
    pose proof (Hfn (calls w)) as Ho. rewrite Ef in Ho. simpl in Ho. subst o.
    assert (Hfirst : wrap key fn ttl (s, w) =
              (Resolved (Some v),
               (snd (set (now w + latency) key (Some v) ttl s1),
                mkWorld (now w + latency) (S (calls w))))).
    { unfold Cache.wrap, s1. destruct (get (now w) key s) as [cached s0].
      simpl in Hg. subst cached. rewrite Ef. reflexivity. }
    rewrite Hfirst. cbn [fst snd calls]. split; [reflexivity|]. split; [reflexivity|].
    assert (Hs1 : stdTTL V (cache V s1) = stdTTL V (cache V s))
      by apply stdTTL_get.
    assert (Httl1 : within_ttl (effectiveTTL V ttl (cache V s1)) dt).
    { unfold effectiveTTL in *. now rewrite Hs1. }
    pose proof (get_after_set (now w + latency) dt key v ttl s1 Hdt Httl1) as H.
    unfold Cache.wrap, later. cbn [fst snd now calls].
    destruct (get (now w + latency + dt) key
                (snd (set (now w + latency) key (Some v) ttl s1))) as [c2 s2].
    simpl in H. subst c2. split; reflexivity. }
  split; [|exact Hmiss].
  destruct (fst (get (now w) key s)) as [v0|] eqn:Eg.
  - (* the first call is a hit and invokes nothing *)
    assert (Hfirst : calls (snd (snd (wrap key fn ttl (s, w)))) = calls w).
    { unfold Cache.wrap. destruct (get (now w) key s) as [cached s1].
      simpl in Eg. subst cached. reflexivity. }
    destruct (wrap key fn ttl (s, w)) as [o1 [s1 w1]] eqn:E1. simpl in Hfirst.
    unfold later. simpl.
    pose proof (wrap_calls s1 (mkWorld (now w1 + dt) (calls w1)) key fn ttl) as H.
    simpl in H. lia.
  - destruct (Hmiss eq_refl) as (_ & H1 & _ & H2). lia.
Qed.

End Wrap.

Lemma wrap_twice_computes_once_witness :
  let first := wrap string true "osm:pois" (constant (Some "pins")) (Some 60%Z)
                    (fresh string, mkWorld 0 0) in
  let second := wrap string true "osm:pois" (constant (Some "pins")) (Some 60%Z)
                     (later string 5000 (snd first)) in
  (calls (snd (snd second)) <= 1)%nat /\
  (fst (get string true 0 "osm:pois" (fresh string)) = None ->
   fst first = Resolved (Some "pins") /\
   calls (snd (snd first)) = 1%nat /\
   fst second = fst first /\
   calls (snd (snd second)) = calls (snd (snd first))).
Proof.
  apply (wrap_twice_computes_once string (fresh string) (mkWorld 0 0) "osm:pois"
           (constant (Some "pins")) (Some 60%Z) 5000%Z "pins").
  - intros n. reflexivity.
  - lia.
  - right. simpl. lia.
Defined.

(** C10 as stated fails in three ways, each with one key and a compute
    function that always resolves to the same value.  With the cache feature
    switched off, [get] and [set] do nothing and each of two successive
    calls invokes the function.  A function that resolves to [undefined] is
    invoked again by the second call although its result was stored: [wrap]
    reads the stored [undefined] as a miss.  And of two calls of which the
    second starts before the function of the first has settled, both miss
    and both invoke the function. *)
Lemma wrap_twice_counterexample :
  (let first := wrap string false "osm:pois" (constant (Some "pins")) None
                     (fresh string, mkWorld 0 0) in
   let second := wrap string false "osm:pois" (constant (Some "pins")) None
                      (later string 5000 (snd first)) in
   calls (snd (snd first)) = 1%nat /\ calls (snd (snd second)) = 2%nat) /\
  (let first := wrap string true "k" (constant None) None
                     (fresh string, mkWorld 0 0) in
   let second := wrap string true "k" (constant None) None
                      (later string 5000 (snd first)) in
   calls (snd (snd first)) = 1%nat /\ calls (snd (snd second)) = 2%nat) /\
  (let first := wrap_call string true "osm:pois" (constant (Some "pins"))
                          (fresh string, mkWorld 0 0) in
   let second := wrap_call string true "osm:pois" (constant (Some "pins"))
                           (snd first) in
   fst first = inr (Resolved (Some "pins"), 250%Z) /\
   fst second = inr (Resolved (Some "pins"), 250%Z) /\
   calls (snd (snd second)) = 2%nat).
Proof. vm_compute. repeat split; reflexivity. Qed.

End CacheTheory.

(** ** Batch processing *)

Module BatchTheory.
Import Batch.

Section Safety.
Variable RouteResponse : Type.
Variable failFast : bool.
Variable concurrency : nat.

#[local] Abbreviation step := (step RouteResponse failFast concurrency).
#[local] Abbreviation exec := (exec RouteResponse failFast concurrency).
#[local] Abbreviation BatchRun := (BatchRun RouteResponse).
#[local] Abbreviation not_executed := (not_executed RouteResponse).
#[local] Abbreviation really_failed := (really_failed RouteResponse).
#[local] Abbreviation inv := (inv RouteResponse failFast).

Lemma inv_init n : inv (init RouteResponse n).
Proof.
  split; [simpl; tauto|]. split; [|discriminate].
  intros i Hi. simpl in Hi. apply lookup_replicate in Hi. destruct Hi; discriminate.
Qed.

Ltac step_cases H i st :=
  unfold Batch.step in H;
  match type of H with
  | match ?e with _ => _ end = _ => destruct e as [i|i [routeResponse|errorMessage]]
  end;
  destruct (tasks _ st !! i) as [[| |r]|] eqn:Ei; try discriminate H;
  try (destruct (forallb _ _ && _); [|discriminate H];
       destruct (shouldStop _ st) eqn:Estop);
  injection H as <-.

Lemma step_inv e st st' : inv st -> step e st = Some st' -> inv st'.
Proof.
  intros (Hgen & Hrun & Hstop) H.
  assert (Hlt : forall i t, tasks _ st !! i = Some t -> (i < length (tasks _ st))%nat)
    by (intros i t Hi; eapply lookup_lt_Some; exact Hi).
  assert (Hkeep : forall i t,
            tasks _ st !! i = Some Queued \/ tasks _ st !! i = Some Running ->
            failFast = true /\ (exists j, really_failed st j) ->
            failFast = true /\
            exists j, really_failed (mkRun _ true (<[i := t]> (tasks _ st)) (generated _ st)) j).
  { intros i t Hi [Hff (j & Hj & msg & Hmsg)]. split; [exact Hff|].
    exists j. split; [exact Hj|]. exists msg. simpl.
    rewrite list_lookup_insert_ne; [exact Hmsg|]. intros <-. destruct Hi; congruence. }
  step_cases H i st; unfold Batch.inv; cbn [tasks generated shouldStop].
  - (* Start under the flag *)
    split; [|split].
    + intros k Hk. destruct (decide (i = k)) as [<-|Hne].
      * rewrite list_lookup_insert_eq by eauto. discriminate.
      * rewrite list_lookup_insert_ne by exact Hne. now apply Hgen.
    + intros k Hk. destruct (decide (i = k)) as [<-|Hne].
      * rewrite list_lookup_insert_eq in Hk by eauto. discriminate.
      * rewrite list_lookup_insert_ne in Hk by exact Hne. now apply Hrun.
    + intros _. apply Hkeep; auto.
  - (* Start *)
    split; [|split; [|discriminate]].
    + intros k Hk. destruct (decide (i = k)) as [<-|Hne].
      * rewrite list_lookup_insert_eq by eauto. discriminate.
      * rewrite list_lookup_insert_ne by exact Hne. apply Hgen.
        apply in_app_or in Hk. destruct Hk as [Hk|[Hk|[]]]; [exact Hk|contradiction].
    + intros k Hk. apply in_or_app. destruct (decide (i = k)) as [<-|Hne].
      * right. now left.
      * rewrite list_lookup_insert_ne in Hk by exact Hne. left. now apply Hrun.
  - (* Settle, fulfilled *)
    split; [|split].
    + intros k Hk. destruct (decide (i = k)) as [<-|Hne].
      * rewrite list_lookup_insert_eq by eauto. discriminate.
      * rewrite list_lookup_insert_ne by exact Hne. now apply Hgen.
    + intros k Hk. destruct (decide (i = k)) as [<-|Hne].
      * rewrite list_lookup_insert_eq in Hk by eauto. discriminate.
      * rewrite list_lookup_insert_ne in Hk by exact Hne. now apply Hrun.
    + intros Hs. rewrite Hs. apply Hkeep; auto.
  - (* Settle, rejected *)
    split; [|split].
    + intros k Hk. destruct (decide (i = k)) as [<-|Hne].
      * rewrite list_lookup_insert_eq by eauto. discriminate.
      * rewrite list_lookup_insert_ne by exact Hne. now apply Hgen.
    + intros k Hk. destruct (decide (i = k)) as [<-|Hne].
      * rewrite list_lookup_insert_eq in Hk by eauto. discriminate.
      * rewrite list_lookup_insert_ne in Hk by exact Hne. now apply Hrun.
    + destruct failFast eqn:Eff.
      * intros _. split; [reflexivity|].
        exists i. split; [now apply Hrun|]. exists errorMessage. simpl.
        rewrite list_lookup_insert_eq by eauto. reflexivity.
      * intros Hs. destruct (Hstop Hs) as [Hff _]. discriminate.
Qed.

Lemma exec_inv es st st' : inv st -> exec es st = Some st' -> inv st'.
Proof.
  revert st. induction es as [|e es IH]; simpl; intros st Hinv H.
  - now injection H as <-.
  - destruct (step e st) as [st1|] eqn:E; [|discriminate].
    eapply IH; [|exact H]. eapply step_inv; eassumption.
Qed.

(** Once the flag is set it stays set, and a task that has not run by then
    never runs. *)
Lemma step_stopped e st st' i :
  shouldStop _ st = true -> not_executed st i -> step e st = Some st' ->
  shouldStop _ st' = true /\ not_executed st' i.
Proof.
  intros Hs [Hi Hn] H.
  assert (Hlt : forall i t, tasks _ st !! i = Some t -> (i < length (tasks _ st))%nat)
    by (intros k t Hk; eapply lookup_lt_Some; exact Hk).
  step_cases H k st; unfold Batch.not_executed; cbn [tasks generated shouldStop];
    try congruence.
  - split; [reflexivity|]. split; [|exact Hn].
    destruct (decide (k = i)) as [->|Hne].
    + right. rewrite list_lookup_insert_eq by eauto. reflexivity.
    + rewrite list_lookup_insert_ne by exact Hne. exact Hi.
  - split; [exact Hs|]. split; [|exact Hn].
    rewrite list_lookup_insert_ne; [exact Hi|]. intros <-. destruct Hi; congruence.
  - split; [now destruct failFast|]. split; [|exact Hn].
    rewrite list_lookup_insert_ne; [exact Hi|]. intros <-. destruct Hi; congruence.
Qed.

Lemma exec_stopped es st st' i :
  shouldStop _ st = true -> not_executed st i -> exec es st = Some st' ->
  shouldStop _ st' = true /\ not_executed st' i.
Proof.
  revert st. induction es as [|e es IH]; simpl; intros st Hs Hi H.
  - injection H as <-. now split.
  - destruct (step e st) as [st1|] eqn:E; [|discriminate].
    destruct (step_stopped e st st1 i Hs Hi E) as [Hs1 Hi1].
    now apply (IH st1).
Qed.

(** Once the stop flag is set, a task that has not started stays as it is or
    becomes the result [stopped i], and no call is made for it. *)
Lemma stop_flag_skips n es1 st1 es2 st2 i
    (Hrun1 : exec es1 (init RouteResponse n) = Some st1)
    (Hflag : shouldStop _ st1 = true)
    (Hwait : tasks _ st1 !! i = Some Queued)
    (Hrun2 : exec es2 st1 = Some st2) :
  failFast = true /\
  (exists j, really_failed st1 j) /\
  (tasks _ st2 !! i = Some Queued \/
   tasks _ st2 !! i = Some (Settled (stopped RouteResponse i))) /\
  ~ In i (generated _ st2) /\
  (forall st3, step (Start i) st2 = Some st3 ->
     tasks _ st3 !! i = Some (Settled (stopped RouteResponse i)) /\
     generated _ st3 = generated _ st2).
Proof.
  destruct (exec_inv es1 _ st1 (inv_init n) Hrun1) as (Hgen & _ & Hstop).
  destruct (Hstop Hflag) as [Hff Hfailed].
  assert (Hne : not_executed st1 i).
  { split; [now left|]. intros Hin. now apply (Hgen i Hin). }
  destruct (exec_stopped es2 st1 st2 i Hflag Hne Hrun2) as [Hs2 [Hi2 Hn2]].
  repeat split; auto.
  - destruct (step_stopped (Start i) st2 st3 i Hs2 (conj Hi2 Hn2) H) as [_ [[Hq|Hq] _]];
      [|exact Hq].
    exfalso. unfold Batch.step in H. 
    destruct (tasks _ st2 !! i) as [[| |r]|] eqn:Ei; try discriminate H.
    destruct (forallb _ _ && _); [|discriminate H]. rewrite Hs2 in H.
    injection H as <-. simpl in Hq.
    rewrite list_lookup_insert_eq in Hq by (eapply lookup_lt_Some; exact Ei).
    discriminate.
  - unfold Batch.step in H.
    destruct (tasks _ st2 !! i) as [[| |r]|] eqn:Ei; try discriminate H.
    destruct (forallb _ _ && _); [|discriminate H]. rewrite Hs2 in H.
    now injection H as <-.
Qed.

(** C2. In a batch of [n] requests, once the stop flag is set (which happens
    only with [failFast], after a call of [generateRoute] was rejected), a
    task that has not started by then never calls [generateRoute]: at every
    later point it is still waiting or has returned, under its own index, a
    result with [success: false], no data and the error
    'Batch processing stopped due to previous error'; and when the queue
    starts it, that result is what it returns, without a call. *)
Theorem failFast_skips_unstarted n es1 st1 es2 st2 i
    (Hrun1 : exec es1 (init RouteResponse n) = Some st1)
    (Hflag : shouldStop _ st1 = true)
    (Hwait : tasks _ st1 !! i = Some Queued)
    (Hrun2 : exec es2 st1 = Some st2) :
  failFast = true /\
  (exists j, really_failed st1 j) /\
  (tasks _ st2 !! i = Some Queued \/
   exists r, tasks _ st2 !! i = Some (Settled r) /\
     index _ r = i /\ success _ r = false /\ data _ r = None /\
     error _ r = Some "Batch processing stopped due to previous error") /\
  ~ In i (generated _ st2) /\
  (forall st3, step (Start i) st2 = Some st3 ->
     (exists r, tasks _ st3 !! i = Some (Settled r) /\
        index _ r = i /\ success _ r = false /\ data _ r = None /\
        error _ r = Some "Batch processing stopped due to previous error") /\
     generated _ st3 = generated _ st2).
Proof.
  destruct (stop_flag_skips n es1 st1 es2 st2 i Hrun1 Hflag Hwait Hrun2)
    as (Hff & Hfailed & Hlater & Hgen & Hstart).
  split; [exact Hff|]. split; [exact Hfailed|]. split; [|split; [exact Hgen|]].
  - destruct Hlater as [Hq|Hs]; [now left|]. right.
    exists (stopped RouteResponse i). split; [exact Hs|]. simpl. auto.
  - intros st3 H3. destruct (Hstart st3 H3) as [Hs Hg]. split; [|exact Hg].
    exists (stopped RouteResponse i). split; [exact Hs|]. simpl. auto.
Qed.

End Safety.

Lemma failFast_skips_unstarted_witness :
  exists st1 st2,
    exec string true 2 before_stop (init string 5) = Some st1 /\
    exec string true 2 after_stop st1 = Some st2 /\
    (true = true /\
     (exists j, Batch.really_failed string st1 j) /\
     (tasks _ st2 !! 4%nat = Some Queued \/
      exists r, tasks _ st2 !! 4%nat = Some (Settled r) /\
        index _ r = 4%nat /\ success _ r = false /\ data _ r = None /\
        error _ r = Some "Batch processing stopped due to previous error") /\
     ~ In 4%nat (generated _ st2) /\
     (forall st3, step string true 2 (Start 4) st2 = Some st3 ->
        (exists r, tasks _ st3 !! 4%nat = Some (Settled r) /\
           index _ r = 4%nat /\ success _ r = false /\ data _ r = None /\
           error _ r = Some "Batch processing stopped due to previous error") /\
        generated _ st3 = generated _ st2)).
Proof.
  eexists. eexists.
  split; [vm_compute; reflexivity|].
  split; [vm_compute; reflexivity|].
  apply (failFast_skips_unstarted string true 2 5 before_stop _ after_stop _ 4);
    vm_compute; reflexivity.
Defined.

(** The response of that run: the two requests that were started before the
    failure show their own outcome, the rejected one its error, and the two
    that were still waiting the synthetic failure. *)
Example failFast_response :
  match exec string true 2 (before_stop ++ after_stop) (init string 5) with
  | Some st => response string st
  | None => None
  end
  = Some (mkResponse string 5 2 3
            [mkResult string 0 true (Some "route_0") None;
             mkResult string 1 true (Some "route_1") None;
             mkResult string 2 false None (Some "Failed to generate route");
             stopped string 3; stopped string 4]).
Proof. vm_compute. reflexivity. Qed.

End BatchTheory.

(** ** Route enrichment *)

Module RouteTheory.
Import Route.

(** *** Deduplication *)

#[local] Abbreviation fill := (fold_left addUnique).

Lemma has_app k m k' p :
  has k (m ++ [(k', p)]) = has k m || String.eqb k' k.
Proof.
  unfold has. rewrite existsb_app. simpl. now rewrite orb_false_r.
Qed.

Lemma has_true_iff k m : has k m = true <-> In k (map fst m).
Proof.
  unfold has. rewrite existsb_exists. split.
  - intros (e & He & Hk). apply String.eqb_eq in Hk. subst k.
    now apply in_map.
  - intros H. apply in_map_iff in H. destruct H as (e & <- & He).
    exists e. split; [exact He | apply String.eqb_refl].
Qed.

Lemma well_keyed_addUnique m p : well_keyed m -> well_keyed (addUnique m p).
Proof.
  unfold addUnique, set_new. intros H. destruct (has (key p) m); [exact H|].
  intros e He. apply in_app_or in He. destruct He as [He|[<-|[]]]; auto.
Qed.

Lemma NoDup_keys_addUnique m p :
  NoDup (map fst m) -> NoDup (map fst (addUnique m p)).
Proof.
  unfold addUnique, set_new. intros H. destruct (has (key p) m) eqn:E; [exact H|].
  rewrite map_app. simpl. apply NoDup_app. split; [exact H|].
  split; [|apply NoDup_singleton].
  intros k Hk Hk'. apply list_elem_of_In in Hk.
  apply list_elem_of_singleton in Hk'. subst k.
  apply has_true_iff in Hk. congruence.
Qed.

Lemma fill_invariant (P : JsMap -> Prop) :
  (forall m p, P m -> P (addUnique m p)) ->
  forall l m, P m -> P (fill l m).
Proof.
  intros Hstep l. induction l as [|p l IH]; intros m Hm; simpl; [exact Hm|].
  apply IH, Hstep, Hm.
Qed.

Lemma fill_entries l : forall m e,
  In e (fill l m) <->
  In e m \/ (exists q, e = (key q, q) /\ has (key q) m = false /\ first_with_key q l).
Proof.
  induction l as [|p l IH]; intros m e; simpl.
  - split; [now left|]. intros [H|(q & _ & _ & l1 & l2 & H & _)]; [exact H|].
    now destruct l1.
  - rewrite IH. unfold addUnique at 1 2, set_new.
    destruct (has (key p) m) eqn:Ep.
    + split.
      * intros [H|(q & -> & Hq & l1 & l2 & -> & Hl1)]; [now left|]. right.
        exists q. split; [reflexivity|]. split; [exact Hq|].
        exists (p :: l1), l2. split; [reflexivity|].
        intros x [<-|Hx]; [congruence | now apply Hl1].
      * intros [H|(q & -> & Hq & l1 & l2 & Hl & Hl1)]; [now left|]. right.
        destruct l1 as [|x l1]; simpl in Hl; injection Hl as -> ->; [congruence|].
        exists q. split; [reflexivity|]. split; [exact Hq|].
        exists l1, l2. split; [reflexivity|]. intros y Hy. apply Hl1. now right.
    + split.
      * intros [H|(q & -> & Hq & l1 & l2 & -> & Hl1)].
        -- apply in_app_or in H. destruct H as [H|[<-|[]]]; [now left|]. right.
           exists p. split; [reflexivity|]. split; [exact Ep|].
           exists [], l. split; [reflexivity|]. intros x [].
        -- right. rewrite has_app in Hq. apply orb_false_elim in Hq.
           destruct Hq as [Hq Hpq]. apply String.eqb_neq in Hpq.
           exists q. split; [reflexivity|]. split; [exact Hq|].
           exists (p :: l1), l2. split; [reflexivity|].
           intros x [<-|Hx]; [exact Hpq | now apply Hl1].
      * intros [H|(q & -> & Hq & l1 & l2 & Hl & Hl1)].
        -- left. apply in_or_app. now left.
        -- destruct l1 as [|x l1]; simpl in Hl; injection Hl as -> ->.
           ++ left. apply in_or_app. right. now left.
           ++ right. exists q. split; [reflexivity|]. split.
              ** rewrite has_app, Hq. simpl. apply String.eqb_neq.
                 apply Hl1. now left.
              ** exists l1, l2. split; [reflexivity|]. intros y Hy. apply Hl1. now right.
Qed.

Lemma fill_sublist l : forall m,
  exists ext, values (fill l m) = values m ++ ext /\ sublist ext l.
Proof.
  induction l as [|p l IH]; intros m; simpl.
  - exists []. split; [now rewrite app_nil_r | constructor].
  - destruct (IH (addUnique m p)) as (ext & -> & Hext).
    unfold addUnique, set_new. destruct (has (key p) m).
    + exists ext. split; [reflexivity | now constructor].
    + exists (p :: ext). unfold values. rewrite map_app. simpl.
      rewrite <- app_assoc. split; [reflexivity | now constructor].
Qed.

Lemma fill_same_key l : forall m,
  (forall q, In q l -> has (key q) m = true) -> fill l m = m.
Proof.
  induction l as [|p l IH]; intros m H; simpl; [reflexivity|].
  unfold addUnique at 2. rewrite (H p) by now left.
  apply IH. intros q Hq. apply H. now right.
Qed.

Lemma deduplicate_spec allPins :
  NoDup (map key (deduplicate allPins)) /\
  sublist (deduplicate allPins) allPins /\
  (forall q, In q (deduplicate allPins) <-> first_with_key q allPins) /\
  (forall p rest, allPins = p :: rest ->
     (forall q, In q rest -> key q = key p) -> deduplicate allPins = [p]).
Proof.
  unfold deduplicate. repeat split.
  - assert (Hk : well_keyed (fill allPins [])).
    { apply (fill_invariant well_keyed); [apply well_keyed_addUnique|]. intros e []. }
    assert (Hn : NoDup (map fst (fill allPins []))).
    { apply (fill_invariant (fun m => NoDup (map fst m)));
        [apply NoDup_keys_addUnique | apply NoDup_nil_2]. }
    unfold values. rewrite map_map.
    erewrite map_ext_in; [exact Hn|]. intros e He. simpl. symmetry. now apply Hk.
  - destruct (fill_sublist allPins []) as (ext & -> & Hext). exact Hext.
  - intros H. unfold values in H. apply in_map_iff in H.
    destruct H as (e & <- & He). apply fill_entries in He.
    destruct He as [[]|(q' & -> & _ & Hq')]. exact Hq'.
  - intros H. unfold values. apply in_map_iff. exists (key q, q).
    split; [reflexivity|]. apply fill_entries. right. exists q. now repeat split.
  - intros p rest -> H. simpl. unfold addUnique at 2. simpl. unfold set_new. simpl.
    rewrite fill_same_key; [reflexivity|].
    intros q Hq. unfold has. simpl. rewrite (H q Hq), String.eqb_refl. reflexivity.
Qed.

(** [discoverPOIsAlongRoute] is [deduplicate] on the merged per-sample
    results. *)
Lemma discover_is_deduplicate routeLength along fetchPOIsNearLocation
    bufferRadius interests results
    (Hall : Promise_all
              (map (fun point => fetchPOIsNearLocation point bufferRadius interests)
                   (sampleLookups routeLength along)) = Some results) :
  discoverPOIsAlongRoute routeLength along fetchPOIsNearLocation
    bufferRadius interests = deduplicate (concat results).
Proof.
  unfold discoverPOIsAlongRoute. now rewrite Hall.
Qed.

(** *** Sampling *)

Lemma Math_min_cases a b :
  (Math_min a b <= a)%Q /\ (Math_min a b <= b)%Q /\
  (Math_min a b = a \/ Math_min a b = b).
Proof.
  unfold Math_min. destruct (Qle_bool a b) eqn:E.
  - apply Qle_bool_iff in E. split; [apply Qle_refl|]. split; [exact E | now left].
  - assert (b <= a)%Q.
    { destruct (Qlt_le_dec b a) as [H|H]; [now apply Qlt_le_weak|].
      apply Qle_bool_iff in H. congruence. }
    split; [assumption|]. split; [apply Qle_refl | now right].
Qed.

Lemma tenth L : (L / 10 == L * (1 # 10))%Q.
Proof. reflexivity. Qed.

Lemma sampleInterval_short L :
  (L <= 10000)%Q -> (sampleInterval L == L / 10)%Q.
Proof.
  intros H. unfold sampleInterval.
  destruct (Math_min_cases 1000 (L / 10)) as (H1 & H2 & [E|E]); rewrite E in *;
    [|reflexivity].
  rewrite tenth in *. lra.
Qed.

Lemma sampleInterval_long L :
  (10000 <= L)%Q -> sampleInterval L = 1000%Q.
Proof.
  intros H. unfold sampleInterval, Math_min.
  destruct (Qle_bool 1000 (L / 10)) eqn:E; [reflexivity|].
  assert (1000 <= L / 10)%Q by (rewrite tenth; lra).
  apply Qle_bool_iff in H0. congruence.
Qed.

Lemma numSamples_short L :
  (0 < L)%Q -> (L <= 10000)%Q -> numSamples L = Some 10%Z.
Proof.
  intros H0 H1. unfold numSamples.
  pose proof (sampleInterval_short L H1) as Hi.
  destruct (Qeq_bool (sampleInterval L) 0) eqn:E.
  - apply Qeq_bool_iff in E. rewrite Hi, tenth in E. lra.
  - f_equal. assert (Hq : (L / sampleInterval L == 10)%Q).
    { rewrite Hi. field. lra. }
    rewrite Hq. reflexivity.
Qed.

Lemma numSamples_long L :
  (10000 <= L)%Q -> numSamples L = Some (Qfloor (L / 1000)).
Proof.
  intros H. unfold numSamples. rewrite (sampleInterval_long L H). reflexivity.
Qed.

Lemma length_sampleDistances L :
  length (sampleDistances L) = length (sampleIndices L).
Proof. unfold sampleDistances. apply length_map. Qed.

Lemma lookups_long L :
  (10000 <= L)%Q ->
  length (sampleDistances L) = S (Z.to_nat (Qfloor (L / 1000))).
Proof.
  intros H. rewrite length_sampleDistances. unfold sampleIndices.
  rewrite (numSamples_long L H).
  assert (Hf : (10 <= Qfloor (L / 1000))%Z).
  { change 10%Z with (Qfloor 10). apply Qfloor_resp_le.
    change (L / 1000)%Q with (L * (1 # 1000))%Q. lra. }
  destruct (Qfloor (L / 1000) <? 0)%Z eqn:E; [apply Z.ltb_lt in E; lia|].
  apply length_seq.
Qed.

Lemma lookups_exceed (bound : nat) :
  exists L, (10000 <= L)%Q /\ (bound < length (sampleDistances L))%nat.
Proof.
  exists (inject_Z (1000 * (Z.of_nat bound + 10))).
  assert (HL : (10000 <= inject_Z (1000 * (Z.of_nat bound + 10)))%Q).
  { change 10000%Q with (inject_Z 10000). rewrite <- Zle_Qle. lia. }
  split; [exact HL|]. rewrite (lookups_long _ HL).
  assert (Hq : (inject_Z (1000 * (Z.of_nat bound + 10)) / 1000
                == inject_Z (Z.of_nat bound + 10))%Q).
  { rewrite inject_Z_mult. field. }
  rewrite Hq, Qfloor_Z. lia.
Qed.

(** C5 (amended). The sample interval is the smaller of 1000 m and a tenth of
    the path length.  A path of at most 10 km is sampled at eleven points; a
    longer path is sampled every kilometre, and the number of lookups issued,
    one per sample, is [floor(length / 1000) + 1]: it grows with the length
    of the path and exceeds every bound. *)
Theorem sampling_policy :
  (forall L, (sampleInterval L <= 1000)%Q /\ (sampleInterval L <= L / 10)%Q /\
             (sampleInterval L = 1000%Q \/ sampleInterval L = (L / 10)%Q)) /\
  (forall L along, length (sampleLookups L along) = length (sampleDistances L)) /\
  (forall L, (0 < L)%Q -> (L <= 10000)%Q ->
     (sampleInterval L == L / 10)%Q /\ length (sampleDistances L) = 11%nat) /\
  (forall L, (10000 <= L)%Q ->
     sampleInterval L = 1000%Q /\
     length (sampleDistances L) = S (Z.to_nat (Qfloor (L / 1000)))) /\
  (forall bound : nat, exists L,
     (10000 <= L)%Q /\ (bound < length (sampleDistances L))%nat).
Proof.
  split; [intros L; apply Math_min_cases|].
  split; [intros L along; unfold sampleLookups; apply length_map|].
  split.
  { intros L H0 H1. split; [now apply sampleInterval_short|].
    rewrite length_sampleDistances. unfold sampleIndices.
    now rewrite (numSamples_short L H0 H1). }
  split.
  { intros L H. split; [now apply sampleInterval_long | now apply lookups_long]. }
  apply lookups_exceed.
Qed.

Lemma sampling_policy_witness :
  ((sampleInterval 5000 == 5000 / 10)%Q /\ length (sampleDistances 5000) = 11%nat) /\
  (sampleInterval 20000 = 1000%Q /\
   length (sampleDistances 20000) = S (Z.to_nat (Qfloor (20000 / 1000)))).
Proof.
  destruct sampling_policy as (_ & _ & Hshort & Hlong & _).
  split; [apply (Hshort 5000%Q) | apply (Hlong 20000%Q)]; vm_compute; congruence.
Defined.

(** A path of length [0]: the interval is [0], the sample count is [NaN]
    and the loop body never runs. *)
Example zero_length_no_samples :
  (sampleInterval 0 == 0)%Q /\ numSamples 0 = None /\ sampleDistances 0 = [].
Proof. vm_compute. repeat split; reflexivity. Qed.

(** C5 as stated fails: the number of lookups is not bounded independently of
    the path length.  A path of 1000 km gets 1001 lookups, and no bound holds
    for all paths. *)
Lemma lookups_unbounded_counterexample :
  length (sampleLookups 1000000 straight) = 1001%nat /\
  ~ exists bound : nat,
      forall L, (0 < L)%Q -> (length (sampleLookups L straight) <= bound)%nat.
Proof.
  split; [vm_compute; reflexivity|].
  intros (bound & H).
  destruct (lookups_exceed bound) as (L & HL & Hb).
  assert (H0 : (0 < L)%Q) by lra.
  specialize (H L H0). unfold sampleLookups in H. rewrite length_map in H. lia.
Qed.

End RouteTheory.

(** ** Webhook delivery *)

Module WebhookTheory.
Import Webhook.

Section Delivery.
Variable endpoint : nat -> PostResult.
Variable latency : nat -> Z.
Variable sign : WebhookPayload -> string -> string.

#[local] Abbreviation attemptLoop := (attemptLoop endpoint latency sign).
#[local] Abbreviation attemptDelivery := (attemptDelivery endpoint latency sign).
#[local] Abbreviation deliverWebhook := (deliverWebhook endpoint latency sign).
#[local] Abbreviation chain := (chain endpoint sign).
#[local] Abbreviation request := (request sign).

Lemma attemptsTrace_step r k n :
  (0 < n)%nat ->
  attemptsTrace r k (S n) = Post r :: Sleep (backoffMs k) :: attemptsTrace r (S k) n.
Proof. destruct n; [lia | reflexivity]. Qed.

Lemma attemptLoop_chain fuel : forall m w d env,
  (m - attempts d < fuel)%nat ->
  exists w' d' env',
    attemptLoop fuel m w d env = Some (w', d', env') /\ chain m w d env w' d' env'.
Proof.
  induction fuel as [|fuel IH]; intros m w d env Hfuel; [lia|].
  simpl. destruct (attempts d <? m)%nat eqn:Elt.
  - apply Nat.ltb_lt in Elt. unfold post.
    destruct (endpoint (S (attempts d))) as [|errorMessage] eqn:Ep.
    + eexists _, _, _. split; [reflexivity|].
      constructor; simpl; try lia.
      * replace (S (attempts d) - attempts d)%nat with 1%nat by lia. reflexivity.
      * left. repeat split; auto.
    + match goal with
      | |- exists _ _ _, attemptLoop fuel m w ?d2 ?env2 = _ /\ _ =>
          destruct (IH m w d2 env2) as (w' & d' & env' & Hrun & Hc);
            [simpl; lia|]; exists w', d', env'; split; [exact Hrun|]
      end.
      destruct Hc as [Hfrom Hprog Hcap Htr Hfail Hend]. simpl in *.
      constructor; simpl; try lia.
      * rewrite Htr. change (request w _) with (request w d).
        destruct (S (attempts d) <? m)%nat eqn:E2.
        -- apply Nat.ltb_lt in E2. specialize (Hprog E2). simpl.
           rewrite <- !app_assoc. f_equal.
           replace (attempts d' - attempts d)%nat
             with (S (attempts d' - S (attempts d)))%nat by lia.
           rewrite attemptsTrace_step by lia. reflexivity.
        -- apply Nat.ltb_ge in E2.
           replace (attempts d' - S (attempts d))%nat with 0%nat by lia.
           replace (attempts d' - attempts d)%nat with 1%nat by lia.
           simpl. now rewrite app_nil_r.
      * intros k Hk1 Hk2. destruct (decide (k = S (attempts d))) as [->|Hne].
        -- rewrite Ep. discriminate.
        -- apply Hfail; lia.
      * destruct Hend as [(Hs & Hlt & Hok & Hlast)|(Hs & Hm & Hlast & Hne)].
        -- left. repeat split; auto; lia.
        -- right. repeat split; auto. intros _.
           destruct (decide (attempts d' = S (attempts d))) as [->|Hd].
           ++ rewrite Ep. discriminate.
           ++ apply Hne. lia.
  - apply Nat.ltb_ge in Elt. eexists _, _, _. split; [reflexivity|].
    constructor; simpl; try lia.
    + replace (attempts d - attempts d)%nat with 0%nat by lia.
      simpl. now rewrite app_nil_r.
    + right. repeat split; auto. lia.
Qed.


(** [deliverWebhook] always comes back, and the delivery it files is in a
    final state. *)
Lemma deliverWebhook_records newId w p s env :
  exists s' env' d',
    deliverWebhook newId w p s env = Some (s', env') /\
    deliveries s' !! newId = Some d' /\
    (status d' = success \/ status d' = failed) /\
    (1 <= attempts d' <= 3)%nat.
Proof.
  unfold Webhook.deliverWebhook, Webhook.attemptDelivery.
  destruct (attemptLoop_chain (S (3 - 0)) 3 w
              (mkDelivery newId (id w) p pending 0 None None) env)
    as (w' & d' & env' & Hrun & Hc); [simpl; lia|].
  simpl in Hrun |- *. rewrite Hrun.
  eexists _, _, d'. split; [reflexivity|]. simpl.
  split; [apply lookup_insert_eq|].
  destruct Hc as [Hfrom Hprog Hcap _ _ Hend]. simpl in *.
  split; [destruct Hend as [(Hs & _)|(Hs & _)]; auto | lia].
Qed.

End Delivery.


(** An endpoint that fails twice and then accepts: three requests, a wait
    of 2 s after the first and of 4 s after the second, status [success]. *)
Example delivery_fails_twice :
  let d := mkDelivery "delivery_1" "webhook_1" batchDone pending 0 None None in
  let r := request noSignature hook d in
  match attemptDelivery failsTwice quick noSignature hook d 3 (mkWorld 1000 []) with
  | Some (w', d', env') =>
      trace env' = [Post r; Sleep 2000; Post r; Sleep 4000; Post r] /\
      status d' = success /\ attempts d' = 3%nat /\
      lastAttempt d' = Some 7040%Z /\ lastTriggered w' = Some 7060%Z
  | None => False
  end.
Proof. vm_compute. repeat split; reflexivity. Qed.

(** An endpoint that is down: three requests and the same two waits; no
    wait follows the third attempt. *)
Example delivery_exhausted :
  let d := mkDelivery "delivery_1" "webhook_1" batchDone pending 0 None None in
  let r := request noSignature hook d in
  match attemptDelivery down quick noSignature hook d 3 (mkWorld 1000 []) with
  | Some (w', d', env') =>
      trace env' = [Post r; Sleep 2000; Post r; Sleep 4000; Post r] /\
      status d' = failed /\ attempts d' = 3%nat /\
      lastTriggered w' = None
  | None => False
  end.
Proof. vm_compute. repeat split; reflexivity. Qed.

End WebhookTheory.

(** ** Input validation *)

Module ValidationTheory.
Import Validation.

Lemma number_ok path lo hi x : number path lo hi x = [] -> between lo hi x = true.
Proof. unfold number. now destruct (between lo hi x). Qed.

Lemma LocationSchema_ok path l : LocationSchema path l = [] -> inRange l = true.
Proof.
  unfold LocationSchema, inRange. intros H. apply app_eq_nil in H.
  destruct H as [H1 H2]. apply number_ok in H1. apply number_ok in H2.
  now rewrite H1, H2.
Qed.

Lemma waypoints_ok path ws :
  concat (map (LocationSchema path) ws) = [] -> Forall (fun l => inRange l = true) ws.
Proof.
  induction ws as [|w ws IH]; simpl; intros H; [constructor|].
  apply app_eq_nil in H. destruct H as [H1 H2].
  constructor; [eapply LocationSchema_ok; exact H1 | now apply IH].
Qed.

Ltac no_issues H :=
  match type of H with
  | match ?issues with [] => _ | _ :: _ => _ end = _ =>
      destruct issues eqn:Ei; [|discriminate H]
  end.

(** What a schema lets through has all its locations in range. *)
Lemma schema_in_range toolName schema args validated :
  schemaMap toolName = Some (Schema schema) -> schema args = inl validated ->
  Forall (fun l => inRange l = true) (handler validated).
Proof.
  unfold schemaMap. intros Hs H.
  repeat match type of Hs with
         | (if ?b then _ else _) = _ => destruct b
         end; injection Hs as <- || discriminate Hs.
  - unfold RouteRequestSchema in H. destruct args; try discriminate H.
    destruct (numberDefault _ _ _ _ _) as [bufferRadius i5].
    no_issues H. injection H as <-.
    apply app_eq_nil in Ei. destruct Ei as [H1 Ei].
    apply app_eq_nil in Ei. destruct Ei as [H2 Ei].
    apply app_eq_nil in Ei. destruct Ei as [H3 _].
    simpl. unfold routeLocations. simpl.
    constructor; [eapply LocationSchema_ok; exact H1|].
    constructor; [eapply LocationSchema_ok; exact H2|].
    destruct (r_waypoints a) as [ws|]; [|constructor].
    eapply waypoints_ok. exact H3.
  - unfold NearbyContextSchema in H. destruct args; try discriminate H.
    destruct (numberDefault _ _ _ _ (n_radius a)) as [radius i2].
    destruct (numberDefault _ _ _ _ (n_maxResults a)) as [maxResults i4].
    no_issues H. injection H as <-.
    apply app_eq_nil in Ei. destruct Ei as [H1 _].
    simpl. constructor; [eapply LocationSchema_ok; exact H1 | constructor].
  - unfold GeoPinSchema in H. destruct args; try discriminate H.
    destruct (numberDefault _ _ _ _ _) as [radius i2].
    no_issues H. injection H as <-.
    apply app_eq_nil in Ei. destruct Ei as [H1 _].
    simpl. constructor; [eapply LocationSchema_ok; exact H1 | constructor].
  - unfold EnrichLocationSchema in H. destruct args; try discriminate H.
    destruct (numberDefault _ _ _ _ _) as [radius i2].
    no_issues H. injection H as <-.
    apply app_eq_nil in Ei. destruct Ei as [H1 _].
    simpl. constructor; [eapply LocationSchema_ok; exact H1 | constructor].
Qed.

(** The four tools that have a schema reject every call that carries a
    location out of range: what reaches their handlers is in range. *)
Lemma callTool_in_range toolName schema args locations :
  schemaMap toolName = Some (Schema schema) ->
  callTool toolName args = inl locations ->
  Forall (fun l => inRange l = true) locations.
Proof.
  unfold callTool, withValidation, validateToolInput. intros Hs H.
  pose proof (schema_in_range toolName schema args) as Hok.
  rewrite Hs in H. destruct (schema args) as [validated|issues]; [|discriminate H].
  injection H as <-. now apply (Hok validated).
Qed.

(** C6 at the failing input: [batch_enrich_locations] has no schema, so
    the call with latitude 91 is not rejected and the location reaches the
    handler, which passes it to the OpenStreetMap service. *)
Theorem batch_location_not_validated :
  schemaMap "batch_enrich_locations" = None /\
  validateToolInput "batch_enrich_locations" northOfThePole = inl northOfThePole /\
  callTool "batch_enrich_locations" northOfThePole = inl [mkLocation 91 0] /\
  inRange (mkLocation 91 0) = false /\
  exists issues,
    callTool "enrich_location" (EnrichLocation (mkEnrichArgs (mkLocation 91 0) None))
    = inr (InvalidParams "enrich_location" issues).
Proof.
  repeat split; try reflexivity. eexists. vm_compute. reflexivity.
Qed.

End ValidationTheory.

(** * Further properties of the code *)

(** ** Spatial index: the other queries *)

Module SpatialQueries.
Import Spatial SpatialTheory.

Lemma StronglySorted_app_inv {A} (R : A -> A -> Prop) (l1 l2 : list A) :
  StronglySorted R (l1 ++ l2) ->
  StronglySorted R l1 /\ forall x y, In x l1 -> In y l2 -> R x y.
Proof.
  induction l1 as [|a l1 IH]; simpl; intros H.
  - split; [constructor | intros x y []].
  - inversion H as [|? ? Hs Hall]; subst. destruct (IH Hs) as [H1 H2].
    split.
    + constructor; [exact H1|]. rewrite List.Forall_forall in Hall |- *.
      intros x Hx. apply Hall. apply in_or_app. now left.
    + intros x y [<-|Hx] Hy; [|now apply H2].
      rewrite List.Forall_forall in Hall. apply Hall. apply in_or_app. now right.
Qed.

Lemma map_fst_sorted {A} (g : A -> Q) (l : list (A * Q)) :
  Forall (fun x => snd x = g (fst x)) l ->
  StronglySorted (key_le snd) l ->
  StronglySorted (key_le g) (map fst l).
Proof.
  intros Hall Hs. induction Hs as [|x xs Hxs IH Hx]; simpl; [constructor|].
  inversion Hall as [|? ? Hx0 Hxs0]; subst.
  constructor; [now apply IH|].
  rewrite List.Forall_forall in Hx, Hxs0 |- *.
  intros q Hq. apply in_map_iff in Hq. destruct Hq as (y & <- & Hy).
  specialize (Hx y Hy). unfold key_le in *. rewrite <- Hx0, <- (Hxs0 y Hy). exact Hx.
Qed.

Lemma slice0_split {A} (k : Z) (l : list A) :
  exists n, slice0 k l = firstn n l /\
            length (slice0 k l) =
              (if (k <? 0)%Z then length l - Z.to_nat (- k)
               else Nat.min (Z.to_nat k) (length l))%nat.
Proof.
  unfold slice0. destruct (k <? 0)%Z.
  - eexists. split; [reflexivity|]. rewrite length_firstn. lia.
  - eexists. split; [reflexivity|]. now rewrite length_firstn.
Qed.

Section Queries.
Variable bufferBBox : Location -> Q -> option BBox.
Variable distance : Location -> Location -> Q.
Variable descends : BBox -> SpatialItem -> bool.

#[local] Abbreviation addPin := (addPin bufferBBox).
#[local] Abbreviation removePin := (removePin bufferBBox descends).
#[local] Abbreviation run := (run bufferBBox descends).
#[local] Abbreviation queryByRadius := (queryByRadius bufferBBox distance).
#[local] Abbreviation getNearestPins := (getNearestPins distance).

#[local] Abbreviation farther := (farther distance).

(** X1. [getNearestPins] returns [k] tracked pins (all of them when fewer
    are tracked; all but the [-k] farthest for a negative [k]) in ascending
    order of distance, and no tracked pin it leaves out is nearer than one
    it returns. *)
Theorem getNearestPins_nearest loc k s :
  let res := getNearestPins loc k s in
  length res =
    (if (k <? 0)%Z then totalPins (getStats s) - Z.to_nat (- k)
     else Nat.min (Z.to_nat k) (totalPins (getStats s)))%nat /\
  StronglySorted (farther loc) res /\
  exists rest,
    Permutation (res ++ rest) (getAllPins s) /\
    forall p q, In p res -> In q rest -> farther loc p q.
Proof.
  intros res. unfold res, Spatial.getNearestPins.
  set (f := fun p : GeoPin => (p, distance loc (location p))).
  set (L := sort (fun a b : GeoPin * Q => (snd a - snd b)%Q) (map f (getAllPins s))).
  assert (Hperm : Permutation L (map f (getAllPins s))) by apply (sort_perm snd).
  assert (Hs : StronglySorted (key_le snd) L) by apply (sort_sorted snd).
  assert (Hall : Forall (fun x : GeoPin * Q => snd x = distance loc (location (fst x))) L).
  { eapply Permutation_Forall; [symmetry; exact Hperm|].
    apply List.Forall_forall. intros x Hx. apply in_map_iff in Hx.
    destruct Hx as (p & <- & _). reflexivity. }
  assert (Hg : StronglySorted (farther loc) (map fst L))
    by (apply (map_fst_sorted (fun p => distance loc (location p))); assumption).
  destruct (slice0_split k L) as (n & Hn & Hlen). rewrite Hn.
  split.
  { rewrite length_map, <- Hn, Hlen.
    assert (E : length L = totalPins (getStats s)).
    { rewrite (Permutation_length Hperm), length_map. simpl.
      unfold getAllPins. now rewrite length_map, length_map_to_list. }
    now rewrite E. }
  rewrite <- (firstn_skipn n L), map_app in Hg.
  apply StronglySorted_app_inv in Hg. destruct Hg as [Hg1 Hg2].
  split; [exact Hg1|].
  exists (map fst (skipn n L)). split; [|exact Hg2].
  rewrite <- map_app, firstn_skipn, Hperm, map_map. simpl. now rewrite map_id.
Qed.

(** The radius query is the exact filter of the tree when the boxes are
    the ones turf computes. *)
Lemma queryByRadius_perm loc r bbox s :
  buffer_covers bufferBBox distance -> boxes_ok bufferBBox s ->
  bufferBBox loc r = Some bbox ->
  Permutation (queryByRadius loc r s)
              (List.filter (within distance loc r) (map pin (index s))).
Proof.
  intros Hcover Hinv Hvalid. unfold Spatial.queryByRadius. rewrite Hvalid.
  rewrite (filter_candidates distance loc r bbox (index s)).
  2:{ intros a Ha Hw. unfold boxes_ok in Hinv. rewrite List.Forall_forall in Hinv.
      eapply Hcover; [exact Hvalid | apply Hinv, Ha |].
      unfold within in Hw. now apply Qle_bool_iff. }
  rewrite (sort_perm snd). rewrite map_map. simpl. now rewrite map_id.
Qed.

(** X2. In every state built by inserts and removes, a pin that
    [getPinById] returns and that lies within the radius of a query is
    among the results of [queryByRadius]. *)
Theorem queryByRadius_finds_tracked
    (Hcover : buffer_covers bufferBBox distance) ops loc r bbox pinId p
    (Hvalid : bufferBBox loc r = Some bbox) :
  let s := run ops empty in
  getPinById pinId s = Some p ->
  (distance loc (location p) <= r)%Q ->
  In p (queryByRadius loc r s).
Proof.
  intros s Hp Hd.
  assert (Hbox : boxes_ok bufferBBox s) by (apply boxes_ok_run, boxes_ok_empty).
  destruct (tracked_stored_run bufferBBox descends ops empty
              (tracked_stored_empty bufferBBox) _ _ Hp) as (_ & b & _ & Hin).
  eapply Permutation_in;
    [symmetry; apply (queryByRadius_perm loc r bbox s Hcover Hbox Hvalid)|].
  apply filter_In. split.
  - apply in_map_iff. exists (mkSpatialItem b p). split; [reflexivity | exact Hin].
  - unfold within. now apply Qle_bool_iff.
Qed.

Lemma NoDup_map_filter {A B} (g : A -> B) (f : A -> bool) (l : list A) :
  NoDup (map g l) -> NoDup (map g (List.filter f l)).
Proof.
  induction l as [|x l IH]; simpl; intros H; [exact H|].
  apply NoDup_cons in H. destruct H as [Hx Hl].
  destruct (f x); simpl; [|now apply IH].
  apply NoDup_cons. split; [|now apply IH].
  intros Hin. apply Hx. apply list_elem_of_In in Hin. apply list_elem_of_In.
  apply in_map_iff in Hin. destruct Hin as (y & Hy & Hyin).
  apply filter_In in Hyin. apply in_map_iff. exists y. tauto.
Qed.


(** X4. The radius query and the polygon query refine the box query: what
    they return is returned by [queryByBoundingBox] for the box around the
    query disc, and for the envelope of the polygon. *)
Theorem queries_refine_bounding_box {Polygon : Type}
    (polygonBBox : Polygon -> option BBox)
    (booleanPointInPolygon : Location -> Polygon -> bool) s :
  (forall loc r bbox p,
     bufferBBox loc r = Some bbox -> In p (queryByRadius loc r s) ->
     In p (queryByBoundingBox (minX bbox) (minY bbox) (maxX bbox) (maxY bbox) s) /\
     (distance loc (location p) <= r)%Q) /\
  (forall polygon bbox p,
     polygonBBox polygon = Some bbox ->
     In p (queryByPolygon polygonBBox booleanPointInPolygon polygon s) ->
     In p (queryByBoundingBox (minX bbox) (minY bbox) (maxX bbox) (maxY bbox) s) /\
     booleanPointInPolygon (location p) polygon = true) /\
  (forall loc r, bufferBBox loc r = None -> queryByRadius loc r s = []) /\
  (forall polygon, polygonBBox polygon = None ->
     queryByPolygon polygonBBox booleanPointInPolygon polygon s = []).
Proof.
  assert (Hb : forall bbox : BBox,
            mkBBox (minX bbox) (minY bbox) (maxX bbox) (maxY bbox) = bbox)
    by (intros []; reflexivity).
  assert (Hrad : forall loc r bbox p,
            bufferBBox loc r = Some bbox -> In p (queryByRadius loc r s) ->
            In p (map pin (rb_search bbox (index s))) /\
            (distance loc (location p) <= r)%Q).
  { intros loc r bbox p H H0. unfold Spatial.queryByRadius in H0. rewrite H in H0.
    eapply Permutation_in in H0; [|apply Permutation_map, (sort_perm snd)].
    apply in_map_iff in H0. destruct H0 as ([q d] & Hq1 & Hq).
    simpl in Hq1. subst q.
    apply filter_In in Hq. destruct Hq as [Hq Hd].
    apply in_map_iff in Hq. destruct Hq as (a & Ha1 & Ha).
    injection Ha1 as Hpa Hda. subst p d. split.
    - apply in_map_iff. exists a. split; [reflexivity | exact Ha].
    - simpl in Hd. now apply Qle_bool_iff. }
  assert (Hpoly : forall polygon bbox p,
            polygonBBox polygon = Some bbox ->
            In p (queryByPolygon polygonBBox booleanPointInPolygon polygon s) ->
            In p (map pin (rb_search bbox (index s))) /\
            booleanPointInPolygon (location p) polygon = true).
  { intros polygon bbox p H H0. unfold queryByPolygon in H0. rewrite H in H0.
    apply in_map_iff in H0. destruct H0 as (a & <- & Ha).
    apply filter_In in Ha. destruct Ha as [Ha Hin]. split; [|exact Hin].
    apply in_map_iff. exists a. split; [reflexivity | exact Ha]. }
  split; [|split; [|split]].
  - intros loc r bbox p H H0. unfold queryByBoundingBox. rewrite Hb.
    now apply Hrad.
  - intros polygon bbox p H H0. unfold queryByBoundingBox. rewrite Hb.
    now apply Hpoly.
  - intros loc r H. unfold Spatial.queryByRadius. now rewrite H.
  - intros polygon H. unfold queryByPolygon. now rewrite H.
Qed.

(** X5. Insert, lookup and remove go round: after [addPin] of a pin whose
    box can be computed, [getPinById] returns that pin under its id; a
    following [removePin] of the id returns [true] and the id is no longer
    found; lookups of other ids are not affected by either.  A pin whose
    box cannot be computed is dropped: the service stays as it was. *)
Theorem addPin_getPinById_removePin p s :
  (forall bbox, bufferBBox (location p) (radius p) = Some bbox ->
     let s1 := addPin p s in
     let s2 := snd (removePin (id p) s1) in
     getPinById (id p) s1 = Some p /\
     fst (removePin (id p) s1) = true /\
     getPinById (id p) s2 = None /\
     forall other, other <> id p ->
       getPinById other s1 = getPinById other s /\
       getPinById other s2 = getPinById other s) /\
  (bufferBBox (location p) (radius p) = None -> addPin p s = s).
Proof.
  split.
  - intros bbox Hb. unfold Spatial.addPin, Spatial.removePin, getPinById.
    rewrite Hb. simpl. rewrite lookup_insert_eq, Hb. simpl.
    split; [reflexivity|]. split; [reflexivity|].
    split; [apply lookup_delete_eq|].
    intros other Hne. split.
    + now rewrite lookup_insert_ne.
    + rewrite lookup_delete_ne by auto. now rewrite lookup_insert_ne.
  - intros Hb. unfold Spatial.addPin. now rewrite Hb.
Qed.

End Queries.

Lemma queryByRadius_finds_tracked_witness :
  In marker2
     (queryByRadius flatBBox flatDistance (mkLocation 51.5074%Q (-0.1278)%Q) 200%Q
        (run flatBBox single_leaf [Add marker1; Add marker2; Remove "pin_1"] empty)).
Proof.
  eapply (queryByRadius_finds_tracked flatBBox flatDistance single_leaf flat_covers
            [Add marker1; Add marker2; Remove "pin_1"]
            (mkLocation 51.5074%Q (-0.1278)%Q) 200%Q _ "pin_2" marker2).
  - reflexivity.
  - vm_compute. reflexivity.
  - vm_compute. discriminate.
Defined.


Lemma addPin_getPinById_removePin_witness :
  getPinById "pin_1" (addPin flatBBox marker1 empty) = Some marker1 /\
  getPinById "pin_1"
    (snd (removePin flatBBox single_leaf "pin_1" (addPin flatBBox marker1 empty))) = None.
Proof.
  destruct (addPin_getPinById_removePin flatBBox single_leaf marker1 empty) as [H _].
  destruct (H _ eq_refl) as (H1 & _ & H3 & _). split; [exact H1 | exact H3].
Defined.

End SpatialQueries.

(** ** Cache layer: the keyed store *)

Module CacheStore.
Import Cache CacheTheory.

Section Store.
Variable V : Type.

Lemma set_store t0 key (value : option V) ttl (s : CacheService V) :
  set V true t0 key value ttl s =
  (true,
   mkCacheService
     (mkNodeCache (stdTTL V (cache V s))
        (<[key := (mkEntry value t0 0,
                   if (effectiveTTL V ttl (cache V s) =? 0)%Z then 0%Z
                   else (t0 + effectiveTTL V ttl (cache V s) * 1000)%Z)]>
           (store V (cache V s))))
     (mkStats (st_hits (stats V s)) (st_misses (stats V s))
              (S (st_sets (stats V s))) (st_deletes (stats V s)))).
Proof.
  unfold Cache.set. simpl.
  rewrite <- (livetime_effective V t0 ttl (cache V s)).
  destruct (truthy ttl); reflexivity.
Qed.

Lemma expired_after (t0 e dt : Z) :
  (0 <= t0)%Z -> (0 < e)%Z -> (0 <= dt)%Z ->
  let t := (if (e =? 0)%Z then 0 else t0 + e * 1000)%Z in
  negb (t =? 0)%Z && (t <? t0 + dt)%Z = negb (dt <=? e * 1000)%Z.
Proof.
  intros H0 He Hdt. simpl.
  destruct (e =? 0)%Z eqn:E; [apply Z.eqb_eq in E; lia|].
  assert (E2 : (t0 + e * 1000 =? 0)%Z = false) by (apply Z.eqb_neq; lia).
  rewrite E2. simpl.
  destruct (dt <=? e * 1000)%Z eqn:E3; simpl.
  - apply Z.leb_le in E3. apply Z.ltb_ge. lia.
  - apply Z.leb_gt in E3. apply Z.ltb_lt. lia.
Qed.

(** X6. A value stored with a TTL of [e] seconds is served by [get] up to
    and including [e * 1000] ms after the store, counted as a hit; later it
    is not served, the lookup is counted as a miss and the key is gone.  With
    an effective TTL of [0] the value never expires. *)
Theorem set_get_ttl (s : CacheService V) t0 dt key v ttl
    (Ht0 : (0 <= t0)%Z) (Hdt : (0 <= dt)%Z)
    (He : (0 <= effectiveTTL V ttl (cache V s))%Z) :
  let e := effectiveTTL V ttl (cache V s) in
  let s1 := snd (set V true t0 key (Some v) ttl s) in
  let r := get V true (t0 + dt) key s1 in
  if ((e =? 0) || (dt <=? e * 1000))%Z
  then fst r = Some v /\
       st_hits (stats V (snd r)) = S (st_hits (stats V s)) /\
       st_misses (stats V (snd r)) = st_misses (stats V s)
  else fst r = None /\
       st_misses (stats V (snd r)) = S (st_misses (stats V s)) /\
       st_hits (stats V (snd r)) = st_hits (stats V s) /\
       store V (cache V (snd r)) !! key = None.
Proof.
  intros e s1 r. unfold r, s1. rewrite set_store. fold e.
  unfold Cache.get, nc_get. simpl. rewrite lookup_insert_eq.
  destruct (e =? 0)%Z eqn:E0; simpl.
  - repeat split; reflexivity.
  - assert (Hpos : (0 < e)%Z) by (apply Z.eqb_neq in E0; unfold e in *; lia).
    pose proof (expired_after t0 e dt Ht0 Hpos Hdt) as Hx. simpl in Hx.
    rewrite E0 in Hx. rewrite Hx.
    destruct (dt <=? e * 1000)%Z; simpl.
    + repeat split; reflexivity.
    + repeat split; try reflexivity. apply lookup_delete_eq.
Qed.

Lemma get_live now key (s : CacheService V) e t :
  store V (cache V s) !! key = Some (e, t) ->
  negb (t =? 0)%Z && (t <? now)%Z = false ->
  get V true now key s =
  (data V e,
   mkCacheService
     (mkNodeCache (stdTTL V (cache V s))
        (<[key := (mkEntry (data V e) (timestamp V e) (S (hits V e)),
                   if (stdTTL V (cache V s) =? 0)%Z then 0%Z
                   else (now + stdTTL V (cache V s) * 1000)%Z)]>
           (store V (cache V s))))
     (mkStats (S (st_hits (stats V s))) (st_misses (stats V s))
              (st_sets (stats V s)) (st_deletes (stats V s)))).
Proof.
  intros Hl Hx. unfold Cache.get, nc_get. simpl. rewrite Hl, Hx. reflexivity.
Qed.

(** X7. A hit stores the entry again under the default TTL: after a hit
    at time [t1] the value is served until [t1 + stdTTL * 1000] and not
    after, whatever TTL it was stored with. *)
Theorem hit_resets_ttl (s : CacheService V) t0 d1 dt key v ttl
    (Ht0 : (0 <= t0)%Z) (Hd1 : (0 <= d1)%Z) (Hdt : (0 <= dt)%Z)
    (Hlive : within_ttl (effectiveTTL V ttl (cache V s)) d1)
    (Hstd : (0 < stdTTL V (cache V s))%Z) :
  let s1 := snd (set V true t0 key (Some v) ttl s) in
  let hit := get V true (t0 + d1) key s1 in
  let r := get V true (t0 + d1 + dt) key (snd hit) in
  fst hit = Some v /\
  fst r = if (dt <=? stdTTL V (cache V s) * 1000)%Z then Some v else None.
Proof.
  intros s1 hit r. unfold r, hit, s1. rewrite set_store.
  erewrite get_live; [|simpl; apply lookup_insert_eq|].
  2:{ apply (live_after t0 _ d1 Hd1 Hlive). }
  simpl. split; [reflexivity|].
  unfold Cache.get, nc_get. simpl. rewrite lookup_insert_eq.
  assert (Hs : (stdTTL V (cache V s) =? 0)%Z = false) by (apply Z.eqb_neq; lia).
  pose proof (expired_after (t0 + d1) (stdTTL V (cache V s)) dt) as Hx.
  simpl in Hx. rewrite Hs in Hx |- *. rewrite Hx by lia.
  destruct (dt <=? stdTTL V (cache V s) * 1000)%Z; reflexivity.
Qed.

(** *** The counters *)

Variable cacheEnabled : bool.

#[local] Abbreviation apply_op := (apply_op V cacheEnabled).
#[local] Abbreviation run := (run V cacheEnabled).
#[local] Abbreviation count := (count V).

#[local] Abbreviation accounted := (accounted V cacheEnabled).

Lemma nc_get_shrinks now key (c : NodeCache V) :
  stdTTL V (snd (nc_get V now key c)) = stdTTL V c /\
  forall k x, store V (snd (nc_get V now key c)) !! k = Some x -> store V c !! k = Some x.
Proof.
  unfold nc_get. destruct (store V c !! key) as [[e t]|]; [|now split].
  destruct (negb (t =? 0)%Z && (t <? now)%Z); simpl; [|now split].
  split; [reflexivity|]. intros k x Hk.
  apply lookup_delete_Some in Hk. now destruct Hk.
Qed.

Lemma apply_op_accounted o s :
  accounted (if isGet V o then 1 else 0) (if isSet V o then 1 else 0)
            (if isDelete V o then 1 else 0) s (apply_op o s).
Proof.
  unfold Cache.accounted. destruct o as [now key|now key value ttl|key|now key| |now]; simpl.
  - unfold Cache.get. destruct cacheEnabled; simpl.
    + pose proof (nc_get_shrinks now key (cache V s)) as [Hstd _].
      destruct (nc_get V now key (cache V s)) as [[e|] c]; simpl in *;
        repeat split; try lia; try congruence; discriminate.
    + repeat split; try lia; auto.
  - destruct cacheEnabled.
    + rewrite set_store. simpl. repeat split; try lia; discriminate.
    + unfold Cache.set. simpl. repeat split; try lia; auto.
  - unfold delete_, nc_del. destruct (store V (cache V s) !! key) eqn:Ek; simpl.
    + repeat split; try (destruct cacheEnabled; lia).
      intros _ k x Hk. apply lookup_delete_Some in Hk. now destruct Hk.
    + repeat split; try (destruct cacheEnabled; lia); auto.
  - unfold has, nc_has.
    pose proof (nc_get_shrinks now key (cache V s)) as [Hstd Hsub].
    destruct (nc_get V now key (cache V s)) as [[e|] c]; simpl in *;
      repeat split; try (destruct cacheEnabled; lia); auto.
  - repeat split; try (destruct cacheEnabled; lia).
    intros _ k x Hk. rewrite lookup_empty in Hk. discriminate.
  - repeat split; try (destruct cacheEnabled; lia).
    intros _ k x Hk. apply map_lookup_filter_Some in Hk. now destruct Hk.
Qed.

(** X8. Over any sequence of operations the counters add up: with the
    cache feature on, every [get] counts as exactly one hit or one miss and
    every [set] as one set; with the feature off none of them counts and no
    key is ever added to the store; [delete] counts only when it removed a
    key. *)
Theorem counters_account ops s :
  let s' := run ops s in
  (st_hits (stats V s') + st_misses (stats V s') =
   st_hits (stats V s) + st_misses (stats V s) +
   (if cacheEnabled then count (isGet V) ops else 0))%nat /\
  (st_sets (stats V s') =
   st_sets (stats V s) + (if cacheEnabled then count (isSet V) ops else 0))%nat /\
  (st_deletes (stats V s') <= st_deletes (stats V s) + count (isDelete V) ops)%nat /\
  (cacheEnabled = false ->
   forall k x, store V (cache V s') !! k = Some x -> store V (cache V s) !! k = Some x).
Proof.
  cut (accounted (count (isGet V) ops) (count (isSet V) ops)
                 (count (isDelete V) ops) s (run ops s)).
  { unfold Cache.accounted. tauto. }
  revert s. induction ops as [|o ops IH]; intros s.
  - unfold Cache.accounted, Cache.count. simpl.
    repeat split; try (destruct cacheEnabled; lia); auto.
  - simpl. specialize (IH (apply_op o s)).
    pose proof (apply_op_accounted o s) as Ho.
    unfold Cache.accounted, Cache.count in *. simpl.
    destruct IH as (I1 & I2 & I3 & I4 & I5). destruct Ho as (O1 & O2 & O3 & O4 & O5).
    repeat split.
    + destruct (isGet V o), cacheEnabled; simpl in *; lia.
    + destruct (isSet V o), cacheEnabled; simpl in *; lia.
    + destruct (isDelete V o); simpl in *; lia.
    + congruence.
    + intros E k x Hk. apply (O5 E). now apply (I5 E).
Qed.

End Store.

Lemma set_get_ttl_witness :
  let s1 := snd (set string true 1000 "k" (Some "v") (Some 60%Z) (fresh string)) in
  fst (get string true (1000 + 60000) "k" s1) = Some "v" /\
  fst (get string true (1000 + 60001) "k" s1) = None.
Proof.
  pose proof (set_get_ttl string (fresh string) 1000 60000 "k" "v" (Some 60%Z)) as H1.
  pose proof (set_get_ttl string (fresh string) 1000 60001 "k" "v" (Some 60%Z)) as H2.
  simpl in H1, H2. split; [apply H1 | apply H2]; lia.
Defined.

Lemma hit_resets_ttl_witness :
  let s1 := snd (set string true 0 "geo" (Some "address") (Some 86400%Z) (fresh string)) in
  let hit := get string true (0 + 1000) "geo" s1 in
  fst hit = Some "address" /\
  fst (get string true (0 + 1000 + 3600001) "geo" (snd hit)) = None.
Proof.
  apply (hit_resets_ttl string (fresh string) 0 1000 3600001 "geo" "address"
           (Some 86400%Z)); try lia.
  - right. simpl. lia.
  - simpl. lia.
Defined.

(** *** Composite keys *)

Lemma colon_free_app a b :
  colon_free (a ++ String ":" b)%string = false.
Proof.
  induction a as [|c a IH]; simpl; [reflexivity|].
  rewrite IH. apply andb_false_r.
Qed.

Lemma split_at_colon x x' r r' :
  colon_free x = true -> colon_free x' = true ->
  (x ++ String ":" r = x' ++ String ":" r')%string -> x = x' /\ r = r'.
Proof.
  revert x'. induction x as [|c x IH]; intros [|c' x'] Hx Hx' H; simpl in *.
  - injection H as ->. now split.
  - injection H as <- _. discriminate Hx'.
  - injection H as -> _. discriminate Hx.
  - injection H as -> H.
    apply andb_prop in Hx. apply andb_prop in Hx'.
    destruct (IH x' (proj2 Hx) (proj2 Hx') H) as [-> ->]. now split.
Qed.

Lemma concat_cons x y l :
  String.concat ":" (x :: y :: l) = (x ++ String ":" (String.concat ":" (y :: l)))%string.
Proof. reflexivity. Qed.

(** X9. [createKey] never maps two different lists of components to the
    same key, as long as there is at least one component and no component
    contains a colon. *)
Theorem createKey_injective l1 l2
    (Hne1 : l1 <> []) (Hne2 : l2 <> [])
    (Hfree1 : Forall (fun c => colon_free c = true) l1)
    (Hfree2 : Forall (fun c => colon_free c = true) l2) :
  createKey l1 = createKey l2 -> l1 = l2.
Proof.
  unfold createKey. revert l2 Hne2 Hfree2.
  induction l1 as [|x l1 IH]; [contradiction|]. intros [|x' l2] Hne2 Hfree2 H;
    [contradiction|].
  inversion Hfree1 as [|? ? Hx Hl1]; subst.
  inversion Hfree2 as [|? ? Hx' Hl2]; subst.
  destruct l1 as [|y l1], l2 as [|y' l2]; rewrite ?concat_cons in H.
  - simpl in H. now subst.
  - change (String.concat ":" [x]) with x in H. subst x.
    rewrite colon_free_app in Hx. discriminate.
  - change (String.concat ":" [x']) with x' in H. subst x'.
    rewrite colon_free_app in Hx'. discriminate.
  - destruct (split_at_colon _ _ _ _ Hx Hx' H) as [-> Hr].
    f_equal. apply IH; auto; discriminate.
Qed.

Lemma createKey_injective_witness :
  createKey ["osm"; "pois"; "51.5"] = "osm:pois:51.5" /\
  ["osm"; "pois"; "51.5"] = ["osm"; "pois"; "51.5"].
Proof.
  split; [reflexivity|].
  apply (createKey_injective ["osm"; "pois"; "51.5"] ["osm"; "pois"; "51.5"]);
    try discriminate; try reflexivity; repeat constructor.
Defined.

(** Components with a colon do collide. *)
Example createKey_collision :
  createKey ["route"; "a:b"; "c"] = createKey ["route"; "a"; "b:c"].
Proof. reflexivity. Qed.

End CacheStore.

(** ** Batch processing: order of results and of starts *)

Module BatchOrder.
Import Batch BatchTheory.

Section Order.
Variable RouteResponse : Type.
Variable failFast : bool.
Variable concurrency : nat.

#[local] Abbreviation step := (step RouteResponse failFast concurrency).
#[local] Abbreviation exec := (exec RouteResponse failFast concurrency).
#[local] Abbreviation BatchRun := (BatchRun RouteResponse).
#[local] Abbreviation inv := (inv RouteResponse failFast).
#[local] Abbreviation ordered := (ordered RouteResponse).

Lemma fifo_guard (l : list (Task RouteResponse)) i :
  forallb (fun t => negb (isQueued _ t)) (take i l) = true ->
  forall j, j < i -> l !! j <> Some Queued.
Proof.
  intros H j Hj Hq. rewrite forallb_forall in H.
  assert (Hin : In Queued (take i l)).
  { apply list_elem_of_In. eapply list_elem_of_lookup_2.
    rewrite lookup_take_lt by exact Hj. exact Hq. }
  specialize (H _ Hin). discriminate.
Qed.

(** The shape of a step. *)
Lemma step_shape e st st' :
  step e st = Some st' ->
  exists i t,
    (tasks _ st !! i = Some Queued \/ tasks _ st !! i = Some Running) /\
    tasks _ st' = <[i := t]> (tasks _ st) /\
    ((* a start under the flag *)
     (tasks _ st !! i = Some Queued /\ (forall j, j < i -> tasks _ st !! j <> Some Queued) /\
      shouldStop _ st = true /\ shouldStop _ st' = true /\
      t = Settled (stopped _ i) /\ generated _ st' = generated _ st) \/
     (* a start *)
     (tasks _ st !! i = Some Queued /\ (forall j, j < i -> tasks _ st !! j <> Some Queued) /\
      shouldStop _ st = false /\ shouldStop _ st' = false /\
      t = Running /\ generated _ st' = generated _ st ++ [i]) \/
     (* a call settles *)
     (tasks _ st !! i = Some Running /\
      (exists r, t = Settled r /\ index _ r = i) /\
      (shouldStop _ st = true -> shouldStop _ st' = true) /\
      generated _ st' = generated _ st)).
Proof.
  unfold Batch.step. intros H.
  destruct e as [i|i [routeResponse|errorMessage]];
    destruct (tasks _ st !! i) as [[| |r]|] eqn:Ei; try discriminate H.
  - destruct (forallb _ _) eqn:Ef; simpl in H; [|discriminate H].
    destruct (_ <? _)%nat; [|discriminate H].
    pose proof (fifo_guard _ _ Ef) as Hfifo.
    destruct (shouldStop _ st) eqn:Es; injection H as <-; simpl;
      eexists i, _; (split; [now left|]); (split; [reflexivity|]).
    + left. auto 10.
    + right. left. auto 10.
  - injection H as <-. simpl. eexists i, _. split; [now right|].
    split; [reflexivity|]. right. right. split; [exact Ei|].
    split; [eexists; split; reflexivity|]. auto.
  - injection H as <-. simpl. eexists i, _. split; [now right|].
    split; [reflexivity|]. right. right. split; [exact Ei|].
    split; [eexists; split; reflexivity|]. split; [|reflexivity].
    intros ->. now destruct failFast.
Qed.

Lemma ordered_init n : ordered (init RouteResponse n).
Proof.
  unfold Batch.ordered. simpl. split; [intros i []|].
  split; [intros i r H; apply lookup_replicate in H; destruct H; discriminate|].
  split; [intros i r H; apply lookup_replicate in H; destruct H; discriminate|].
  split; [intros i j t _ _ H; apply lookup_replicate in H; now destruct H|].
  intros i j r [].
Qed.

Lemma step_ordered e st st' :
  inv st -> ordered st -> step e st = Some st' -> ordered st'.
Proof.
  intros (Hgen & Hrun & _) (O0 & O1 & O2 & O3 & O4) H.
  destruct (step_shape e st st' H) as (i & t & Hi & Ht & Hcase).
  assert (Hlt : i < length (tasks _ st))
    by (destruct Hi as [Hi|Hi]; eapply lookup_lt_Some; exact Hi).
  assert (Hnq : t <> Queued).
  { destruct Hcase as [(_ & _ & _ & _ & -> & _)|[(_ & _ & _ & _ & -> & _)|(_ & (r & -> & _) & _)]];
      discriminate. }
  assert (Hother : forall k, k <> i -> tasks _ st' !! k = tasks _ st !! k)
    by (intros k Hk; rewrite Ht; apply list_lookup_insert_ne; congruence).
  assert (Hself : tasks _ st' !! i = Some t)
    by (rewrite Ht; now apply list_lookup_insert_eq).
  assert (Hlen : length (tasks _ st') = length (tasks _ st))
    by (rewrite Ht; apply length_insert).
  unfold Batch.ordered.
  destruct Hcase as [(Hq & Hfifo & Hs & Hs' & -> & Hg)
                    |[(Hq & Hfifo & Hs & Hs' & -> & Hg)
                     |(Hr & (r0 & -> & Hr0) & Hs' & Hg)]];
    rewrite Hg, Hlen.
  - (* a start under the flag *)
    split; [exact O0|]. split; [|split; [|split]].
    + intros k r Hk. destruct (decide (k = i)) as [->|Hne].
      * rewrite Hself in Hk. now injection Hk as <-.
      * rewrite Hother in Hk by exact Hne. now apply O1.
    + intros k r Hk Hnk. split; [exact Hs'|]. destruct (decide (k = i)) as [->|Hne].
      * rewrite Hself in Hk. now injection Hk as <-.
      * rewrite Hother in Hk by exact Hne. now apply (O2 k r).
    + intros a b tb Hab Ha Hb. destruct (decide (a = i)) as [->|Hna];
        [rewrite Hself in Ha; discriminate|].
      rewrite Hother in Ha by exact Hna. destruct (decide (b = i)) as [->|Hnb].
      * exfalso. now apply (Hfifo a Hab).
      * rewrite Hother in Hb by exact Hnb. now apply (O3 a b).
    + intros k j r Hk Hj Hnj. destruct (decide (j = i)) as [->|Hne].
      * destruct (Nat.lt_trichotomy k i) as [Hlt'|[->|Hgt]]; [exact Hlt'| |].
        -- exfalso. now apply (Hgen i Hk).
        -- exfalso. destruct (lookup_lt_is_Some_2 _ _ (O0 k Hk)) as [tk Htk].
           apply (Hgen k Hk). rewrite Htk. f_equal. now apply (O3 i k).
      * rewrite Hother in Hj by exact Hne. now apply (O4 k j r).
  - (* a start *)
    split; [|split; [|split; [|split]]].
    + intros k Hk. apply in_app_or in Hk. destruct Hk as [Hk|[<-|[]]]; auto.
    + intros k r Hk. destruct (decide (k = i)) as [->|Hne].
      * rewrite Hself in Hk. discriminate.
      * rewrite Hother in Hk by exact Hne. now apply O1.
    + intros k r Hk Hnk. destruct (decide (k = i)) as [->|Hne];
        [rewrite Hself in Hk; discriminate|].
      rewrite Hother in Hk by exact Hne.
      assert (Hnk' : ~ In k (generated _ st))
        by (intros Hin; apply Hnk, in_or_app; now left).
      destruct (O2 k r Hk Hnk') as [Hstop _]. congruence.
    + intros a b tb Hab Ha Hb. destruct (decide (a = i)) as [->|Hna];
        [rewrite Hself in Ha; discriminate|].
      rewrite Hother in Ha by exact Hna. destruct (decide (b = i)) as [->|Hnb].
      * exfalso. now apply (Hfifo a Hab).
      * rewrite Hother in Hb by exact Hnb. now apply (O3 a b).
    + intros k j r Hk Hj Hnj. destruct (decide (j = i)) as [->|Hne];
        [rewrite Hself in Hj; discriminate|].
      rewrite Hother in Hj by exact Hne.
      assert (Hnj' : ~ In j (generated _ st))
        by (intros Hin; apply Hnj, in_or_app; now left).
      destruct (O2 j r Hj Hnj') as [Hstop _]. congruence.
  - (* a call settles *)
    split; [exact O0|]. split; [|split; [|split]].
    + intros k r Hk. destruct (decide (k = i)) as [->|Hne].
      * rewrite Hself in Hk. now injection Hk as <-.
      * rewrite Hother in Hk by exact Hne. now apply O1.
    + intros k r Hk Hnk. destruct (decide (k = i)) as [->|Hne].
      * exfalso. now apply Hnk, Hrun.
      * rewrite Hother in Hk by exact Hne.
        destruct (O2 k r Hk Hnk) as [Hstop Hrk]. split; [now apply Hs' | exact Hrk].
    + intros a b tb Hab Ha Hb. destruct (decide (a = i)) as [->|Hna];
        [rewrite Hself in Ha; discriminate|].
      rewrite Hother in Ha by exact Hna. destruct (decide (b = i)) as [->|Hnb].
      * exfalso. pose proof (O3 a i _ Hab Ha Hr). discriminate.
      * rewrite Hother in Hb by exact Hnb. now apply (O3 a b).
    + intros k j r Hk Hj Hnj. destruct (decide (j = i)) as [->|Hne].
      * exfalso. now apply Hnj, Hrun.
      * rewrite Hother in Hj by exact Hne. now apply (O4 k j r).
Qed.

Lemma exec_ordered es : forall st st',
  inv st -> ordered st -> exec es st = Some st' -> inv st' /\ ordered st'.
Proof.
  induction es as [|e es IH]; simpl; intros st st' Hinv Hord H.
  - injection H as <-. now split.
  - destruct (step e st) as [st1|] eqn:E; [|discriminate].
    apply (IH st1); [eapply step_inv; eassumption | eapply step_ordered; eassumption | exact H].
Qed.

Lemma exec_length es : forall st st',
  exec es st = Some st' -> length (tasks _ st') = length (tasks _ st).
Proof.
  induction es as [|e es IH]; simpl; intros st st' H.
  - now injection H as <-.
  - destruct (step e st) as [st1|] eqn:E; [|discriminate].
    rewrite (IH _ _ H). destruct (step_shape e st st1 E) as (i & t & _ & -> & _).
    apply length_insert.
Qed.

(** X10. When a batch of [n] requests has finished, the response lists
    [n] results in the order of the requests, whatever the order in which
    the calls settled: the result at position [i] carries index [i], and
    the counts of successes and failures add up to [n]. *)
Theorem response_in_request_order n es st resp
    (Hrun : exec es (init RouteResponse n) = Some st)
    (Hdone : response _ st = Some resp) :
  totalRequests _ resp = n /\
  length (results _ resp) = n /\
  (forall i r, results _ resp !! i = Some r -> index _ r = i) /\
  (successful _ resp + failed _ resp = n)%nat.
Proof.
  destruct (exec_ordered es _ st (inv_init _ _ n) (ordered_init n) Hrun)
    as [_ (_ & O1 & _)].
  pose proof (exec_length es _ st Hrun) as Hlen. simpl in Hlen.
  rewrite length_replicate in Hlen.
  unfold response in Hdone.
  destruct (forallb _ (tasks _ st)) eqn:Eall; [|discriminate].
  injection Hdone as <-. simpl. rewrite forallb_forall in Eall.
  assert (Hmap : forall l : list (Task RouteResponse),
            (forall t, In t l -> match t with Settled _ => true | _ => false end = true) ->
            omap (settled _) l = map (fun t => match t with
                                              | Settled r => r
                                              | _ => stopped _ 0
                                              end) l /\
            forall i r, omap (settled _) l !! i = Some r -> l !! i = Some (Settled r)).
  { induction l as [|t l IH]; intros Hl; [split; [reflexivity | intros i r H; destruct i; discriminate]|].
    destruct (IH (fun t' Ht' => Hl t' (or_intror Ht'))) as [IH1 IH2].
    pose proof (Hl t (or_introl eq_refl)) as Ht. destruct t as [| |r0]; try discriminate.
    split.
    - change (omap (settled _) (Settled r0 :: l)) with (r0 :: omap (settled _) l).
      simpl. now rewrite IH1.
    - change (omap (settled _) (Settled r0 :: l)) with (r0 :: omap (settled _) l).
      intros [|i] r H; simpl in *; [now injection H as ->|]. now apply IH2. }
  destruct (Hmap _ Eall) as [Hm1 Hm2].
  split; [exact Hlen|]. split; [now rewrite Hm1, length_map|].
  split; [intros i r H; apply (O1 i r), Hm2, H|].
  assert (Hsplit : forall l : list (BatchRouteResult RouteResponse),
            (length (List.filter (success _) l) +
             length (List.filter (fun r => negb (success _ r)) l) = length l)%nat).
  { induction l as [|r l IH]; simpl; [reflexivity|].
    destruct (success _ r); simpl; lia. }
  rewrite Hsplit, Hm1, length_map. exact Hlen.
Qed.

(** X11. Without fail-fast the stop flag is never set: no task is skipped,
    and every result in the response comes from a call of [generateRoute]
    for its request. *)
Theorem without_failFast_all_run n es st
    (Hoff : failFast = false)
    (Hrun : exec es (init RouteResponse n) = Some st) :
  shouldStop _ st = false /\
  forall i r, tasks _ st !! i = Some (Settled r) -> In i (generated _ st).
Proof.
  destruct (exec_ordered es _ st (inv_init _ _ n) (ordered_init n) Hrun)
    as [(_ & _ & Hstop) (_ & _ & O2 & _)].
  assert (Hs : shouldStop _ st = false).
  { destruct (shouldStop _ st) eqn:E; [|reflexivity].
    destruct (Hstop eq_refl) as [Hff _]. congruence. }
  split; [exact Hs|]. intros i r Hi.
  destruct (in_dec Nat.eq_dec i (generated _ st)) as [Hin|Hnin]; [exact Hin|].
  destruct (O2 i r Hi Hnin) as [Hstop' _]. congruence.
Qed.

(** X12. The tasks that are skipped are the last ones: a task that returned
    without a call of [generateRoute] returned the synthetic failure, and its
    index is larger than that of every task for which the call was made. *)
Theorem skipped_after_executed n es st i j r
    (Hrun : exec es (init RouteResponse n) = Some st)
    (Hexec : In i (generated _ st))
    (Hret : tasks _ st !! j = Some (Settled r))
    (Hskip : ~ In j (generated _ st)) :
  i < j /\ r = stopped _ j /\ shouldStop _ st = true /\ failFast = true.
Proof.
  destruct (exec_ordered es _ st (inv_init _ _ n) (ordered_init n) Hrun)
    as [(_ & _ & Hstop) (_ & _ & O2 & _ & O4)].
  destruct (O2 j r Hret Hskip) as [Hs Hr].
  split; [now apply (O4 i j r)|]. split; [exact Hr|]. split; [exact Hs|].
  now destruct (Hstop Hs).
Qed.

End Order.

Lemma response_in_request_order_witness :
  exists st resp,
    exec string true 2 (before_stop ++ after_stop) (init string 5) = Some st /\
    response string st = Some resp /\
    totalRequests _ resp = 5%nat /\
    length (results _ resp) = 5%nat /\
    (forall i r, results _ resp !! i = Some r -> index _ r = i) /\
    (successful _ resp + failed _ resp = 5)%nat.
Proof.
  eexists. eexists.
  split; [vm_compute; reflexivity|].
  split; [vm_compute; reflexivity|].
  eapply (response_in_request_order string true 2 5 (before_stop ++ after_stop));
    vm_compute; reflexivity.
Defined.

Lemma without_failFast_all_run_witness :
  exists st,
    exec string false 2 (before_stop ++ after_stop) (init string 5) = Some st /\
    shouldStop _ st = false /\
    forall i r, tasks _ st !! i = Some (Settled r) -> In i (generated _ st).
Proof.
  eexists. split; [vm_compute; reflexivity|].
  apply (without_failFast_all_run string false 2 5 (before_stop ++ after_stop));
    [reflexivity | vm_compute; reflexivity].
Defined.

Lemma skipped_after_executed_witness :
  exists st,
    exec string true 2 (before_stop ++ after_stop) (init string 5) = Some st /\
    (2 < 3)%nat /\ stopped string 3 = stopped string 3 /\
    shouldStop _ st = true /\ true = true.
Proof.
  eexists. split; [vm_compute; reflexivity|].
  apply (skipped_after_executed string true 2 5 (before_stop ++ after_stop) _ 2 3
           (stopped string 3)).
  - vm_compute. reflexivity.
  - vm_compute. auto.
  - vm_compute. reflexivity.
  - vm_compute. intros [H|[H|[H|[]]]]; discriminate.
Defined.

End BatchOrder.

(** ** Webhook delivery: timing, history and statistics *)

Module WebhookService.
Import Webhook WebhookTheory.

Lemma pow2_succ (k : nat) : (2 ^ Z.of_nat (S k) = 2 * 2 ^ Z.of_nat k)%Z.
Proof. rewrite Nat2Z.inj_succ, Z.pow_succ_r by lia. reflexivity. Qed.

Section Timing.
Variable endpoint : nat -> PostResult.
Variable latency : nat -> Z.
Variable sign : WebhookPayload -> string -> string.

#[local] Abbreviation attemptLoop := (attemptLoop endpoint latency sign).
#[local] Abbreviation attemptDelivery := (attemptDelivery endpoint latency sign).
#[local] Abbreviation elapsed := (elapsed latency).
#[local] Abbreviation sumLatency := (sumLatency latency).

Lemma elapsed_step k n :
  (0 < n)%nat ->
  elapsed k (S n) = (latency k + backoffMs k + elapsed (S k) n)%Z.
Proof. destruct n; [lia | reflexivity]. Qed.

(** The clock and the webhook at the end of the loop. *)
Lemma attemptLoop_clock fuel : forall m w d env w' d' env',
  attemptLoop fuel m w d env = Some (w', d', env') ->
  (attempts d <= attempts d' <= Nat.max m (attempts d))%nat /\
  (attempts d < m -> attempts d < attempts d')%nat /\
  clock env' = (clock env + elapsed (S (attempts d)) (attempts d' - attempts d))%Z /\
  (attempts d' = attempts d -> lastAttempt d' = lastAttempt d) /\
  ((attempts d < attempts d')%nat ->
     lastAttempt d' = Some (clock env' - latency (attempts d'))%Z) /\
  id w' = id w /\ active w' = active w.
Proof.
  induction fuel as [|fuel IH]; intros m w d env w' d' env' H; [discriminate|].
  simpl in H. destruct (attempts d <? m)%nat eqn:Elt.
  - apply Nat.ltb_lt in Elt. unfold post in H.
    destruct (endpoint (S (attempts d))) as [|errorMessage].
    + injection H as <- <- <-. simpl.
      replace (S (attempts d) - attempts d)%nat with 1%nat by lia. simpl.
      repeat split; try lia. intros _. f_equal. lia.
    + apply IH in H. simpl in H.
      destruct H as (Hfrom & Hprog & Hclock & Hsame & Hlast & Hid & Hact).
      split; [lia|]. split; [lia|]. split; [|split; [lia|split; [|now split]]].
      * rewrite Hclock. destruct (S (attempts d) <? m)%nat eqn:E2.
        -- apply Nat.ltb_lt in E2. specialize (Hprog E2). simpl.
           replace (attempts d' - attempts d)%nat
             with (S (attempts d' - S (attempts d)))%nat by lia.
           rewrite elapsed_step by lia. lia.
        -- apply Nat.ltb_ge in E2.
           assert (E : attempts d' = S (attempts d)) by lia.
           rewrite E. replace (S (attempts d) - S (attempts d))%nat with 0%nat by lia.
           replace (S (attempts d) - attempts d)%nat with 1%nat by lia. simpl. lia.
      * intros _. destruct (decide (attempts d' = S (attempts d))) as [E|E].
        -- rewrite (Hsame E). rewrite Hclock, E.
           replace (S (attempts d) - S (attempts d))%nat with 0%nat by lia.
           destruct (S (attempts d) <? m)%nat eqn:E2.
           ++ apply Nat.ltb_lt in E2. specialize (Hprog E2). lia.
           ++ simpl. f_equal. lia.
        -- apply Hlast. lia.
  - injection H as <- <- <-. simpl. apply Nat.ltb_ge in Elt.
    replace (attempts d - attempts d)%nat with 0%nat by lia. simpl.
    repeat split; try lia.
Qed.

Lemma elapsed_closed n : forall k,
  (1 <= n)%nat ->
  elapsed (S k) n =
  (sumLatency (k + n) - sumLatency k +
   (2 ^ Z.of_nat (k + n) - 2 ^ Z.of_nat (S k)) * 1000)%Z.
Proof.
  induction n as [|n IH]; intros k Hn; [lia|].
  destruct n as [|n].
  - replace (k + 1)%nat with (S k) by lia. simpl elapsed. simpl sumLatency. lia.
  - rewrite elapsed_step by lia. rewrite (IH (S k)) by lia.
    replace (k + S (S n))%nat with (S k + S n)%nat by lia.
    simpl sumLatency. unfold backoffMs. rewrite (pow2_succ (S k)). lia.
Qed.

(** X13. The timing of a delivery that starts with no attempt made, for any
    attempt cap [m >= 1]: after [a] attempts the clock has advanced by the
    latencies of the [a] requests plus [(2^a - 2)] seconds of backoff, the
    last attempt started one latency before the end, and the delivery is
    marked failed only after [m] attempts.  With a cap of [0] nothing is
    sent and the delivery is marked failed at once. *)
Theorem attemptDelivery_timing w d m env (Hnew : attempts d = 0%nat) :
  exists w' d' env',
    attemptDelivery w d m env = Some (w', d', env') /\
    (attempts d' <= m)%nat /\
    (m = 0%nat -> env' = env /\ status d' = failed /\ w' = w) /\
    ((1 <= m)%nat ->
       (1 <= attempts d')%nat /\
       clock env' =
         (clock env + sumLatency (attempts d') +
          (2 ^ Z.of_nat (attempts d') - 2) * 1000)%Z /\
       lastAttempt d' = Some (clock env' - latency (attempts d'))%Z /\
       (status d' = failed -> attempts d' = m)).
Proof.
  destruct (attemptLoop_chain endpoint latency sign (S (m - attempts d)) m w d env)
    as (w' & d' & env' & Hrun & Hc); [lia|].
  exists w', d', env'. split; [exact Hrun|].
  pose proof (attemptLoop_clock _ _ _ _ _ _ _ _ Hrun)
    as (Hfrom & Hprog & Hclock & _ & Hlast & _).
  destruct Hc as [_ _ Hcap _ _ Hend]. rewrite Hnew in *.
  split; [lia|]. split.
  - intros ->. simpl in Hrun. rewrite Hnew in Hrun. simpl in Hrun.
    injection Hrun as <- <- <-. auto.
  - intros Hm. assert (Ha : (1 <= attempts d')%nat) by lia.
    split; [exact Ha|]. split; [|split; [apply Hlast; lia|]].
    + rewrite Hclock, Nat.sub_0_r, (elapsed_closed _ 0 Ha). simpl. lia.
    + intros Hf. destruct Hend as [(Hs & _)|(_ & Hm' & _)]; [congruence | lia].
Qed.

End Timing.

Lemma attemptDelivery_timing_witness :
  exists w' d' env',
    attemptDelivery down quick noSignature hook
      (mkDelivery "delivery_1" "webhook_1" batchDone pending 0 None None) 3
      (mkWorld 1000 []) = Some (w', d', env') /\
    (attempts d' <= 3)%nat /\
    (3%nat = 0%nat -> env' = mkWorld 1000 [] /\ status d' = failed /\ w' = hook) /\
    ((1 <= 3)%nat ->
       (1 <= attempts d')%nat /\
       clock env' =
         (clock (mkWorld 1000 []) + sumLatency quick (attempts d') +
          (2 ^ Z.of_nat (attempts d') - 2) * 1000)%Z /\
       lastAttempt d' = Some (clock env' - quick (attempts d'))%Z /\
       (status d' = failed -> attempts d' = 3%nat)).
Proof.
  apply (attemptDelivery_timing down quick noSignature hook
           (mkDelivery "delivery_1" "webhook_1" batchDone pending 0 None None) 3
           (mkWorld 1000 [])).
  reflexivity.
Defined.

(** A dead endpoint: the delivery is marked failed 6 s and three latencies
    after it started. *)
Example delivery_exhausted_after_6s :
  match attemptDelivery down quick noSignature hook
          (mkDelivery "delivery_1" "webhook_1" batchDone pending 0 None None) 3
          (mkWorld 1000 []) with
  | Some (_, d', env') => clock env' = 7060%Z /\ status d' = failed
  | None => False
  end.
Proof. vm_compute. split; reflexivity. Qed.

(** *** History *)

Section History.

#[local] Abbreviation newer :=
  (fun a b : WebhookDelivery => (attemptTime b <= attemptTime a)%Z).

(** X14. [getDeliveries] returns deliveries of the given webhook only, at
    most [limit] of them, the most recent attempt first (a delivery without
    an attempt counts as oldest), and no delivery of the webhook that it
    leaves out is more recent than one it returns. *)
Theorem getDeliveries_most_recent wid limit s (Hlimit : (0 <= limit)%Z) :
  let res := getDeliveries wid limit s in
  (length res <= Z.to_nat limit)%nat /\
  Forall (fun d => webhookId d = wid) res /\
  StronglySorted newer res /\
  exists rest,
    Permutation (res ++ rest)
      (List.filter (fun d => String.eqb (webhookId d) wid) (listDeliveries s)) /\
    forall a b, In a res -> In b rest -> newer a b.
Proof.
  intros res. unfold res, getDeliveries.
  set (own := List.filter (fun d => String.eqb (webhookId d) wid) (listDeliveries s)).
  assert (Hsort : forall l : list WebhookDelivery,
            Permutation (Spatial.sort (fun a b => inject_Z (attemptTime b - attemptTime a)) l) l /\
            StronglySorted newer
              (Spatial.sort (fun a b => inject_Z (attemptTime b - attemptTime a)) l)).
  { intros l.
    assert (Hins : forall x l0,
              StronglySorted newer l0 ->
              Permutation (Spatial.sort_insert
                             (fun a b => inject_Z (attemptTime b - attemptTime a)) x l0)
                          (x :: l0) /\
              StronglySorted newer
                (Spatial.sort_insert
                   (fun a b => inject_Z (attemptTime b - attemptTime a)) x l0)).
    { intros x l0 Hl0. induction Hl0 as [|y l0 Hl0 IH Hy]; simpl.
      - split; [reflexivity | repeat constructor].
      - destruct (Qle_bool (inject_Z (attemptTime y - attemptTime x)) 0) eqn:E.
        + split; [reflexivity|].
          apply Qle_bool_iff in E. change 0%Q with (inject_Z 0) in E.
          rewrite <- Zle_Qle in E.
          constructor; [now constructor|]. constructor; [lia|].
          eapply List.Forall_impl; [|exact Hy]. simpl. intros; lia.
        + destruct IH as [IHp IHs]. split.
          * rewrite IHp. apply perm_swap.
          * assert (Hxy : (attemptTime x <= attemptTime y)%Z).
            { destruct (Z_le_gt_dec (attemptTime y - attemptTime x) 0) as [H|H]; [|lia].
              exfalso. assert (Qle_bool (inject_Z (attemptTime y - attemptTime x)) 0 = true).
              { apply Qle_bool_iff. change 0%Q with (inject_Z 0).
                now rewrite <- Zle_Qle. }
              congruence. }
            constructor; [exact IHs|].
            eapply Permutation_Forall; [symmetry; exact IHp|].
            constructor; [exact Hxy | exact Hy]. }
    induction l as [|x l [IHp IHs]]; simpl; [split; [reflexivity | constructor]|].
    destruct (Hins x _ IHs) as [Hp Hs]. split; [|exact Hs].
    rewrite Hp. now constructor. }
  destruct (Hsort own) as [Hperm Hsorted].
  set (L := Spatial.sort (fun a b => inject_Z (attemptTime b - attemptTime a)) own) in *.
  destruct (SpatialQueries.slice0_split limit L) as (n & Hn & Hlen). rewrite Hn.
  assert (Hneg : (limit <? 0)%Z = false) by (apply Z.ltb_ge; lia).
  split; [rewrite <- Hn, Hlen, Hneg; lia|].
  rewrite <- (firstn_skipn n L) in Hsorted.
  apply SpatialQueries.StronglySorted_app_inv in Hsorted. destruct Hsorted as [H1 H2].
  split.
  { apply List.Forall_forall. intros d Hd.
    assert (Hin : In d own).
    { eapply Permutation_in; [exact Hperm|]. rewrite <- (firstn_skipn n L).
      apply in_or_app. now left. }
    unfold own in Hin. apply filter_In in Hin. destruct Hin as [_ Hid].
    now apply String.eqb_eq. }
  split; [exact H1|].
  exists (skipn n L). split; [now rewrite firstn_skipn | exact H2].
Qed.

End History.

(** *** What the operations keep *)

Section Invariants.
Variable sign : WebhookPayload -> string -> string.

Lemma filter_all {A} (f : A -> bool) (l : list A) :
  (forall x, In x l -> f x = true) -> List.filter f l = l.
Proof.
  induction l as [|x l IH]; intros H; simpl; [reflexivity|].
  rewrite (H x) by now left. f_equal. apply IH. intros y Hy. apply H. now right.
Qed.

Lemma settled_apply_op o s : settled s -> settled (apply_op sign o s).
Proof.
  intros [Hw Hd]. destruct o as [newId now u evs sec|wid|newId wid p endpoint latency now];
    simpl.
  - split; [|exact Hd]. intros k w Hk. simpl in Hk.
    destruct (decide (newId = k)) as [<-|Hne].
    + rewrite lookup_insert_eq in Hk. injection Hk as <-. now split.
    + rewrite lookup_insert_ne in Hk by exact Hne. now apply Hw.
  - unfold unregisterWebhook. destruct (webhooks s !! wid) as [w0|]; [|now split].
    split; [|exact Hd]. intros k w Hk. simpl in Hk.
    apply lookup_delete_Some in Hk. now apply Hw.
  - destruct (webhooks s !! wid) as [w|] eqn:Ew; [|now split].
    unfold deliverWebhook, Webhook.attemptDelivery.
    set (d0 := mkDelivery newId (id w) p pending 0 None None).
    destruct (attemptLoop_chain endpoint latency sign (S (3 - attempts d0)) 3 w
                d0 (mkWorld now []))
      as (w' & d' & env' & Hrun & Hc); [simpl; lia|].
    rewrite Hrun.
    pose proof (attemptLoop_clock endpoint latency sign _ _ _ _ _ _ _ _ Hrun)
      as (_ & _ & _ & _ & _ & Hid & Hact).
    destruct (Hw _ _ Ew) as [Hidw Hactw].
    split.
    + intros k x Hk. simpl in Hk. destruct (decide (id w = k)) as [<-|Hne].
      * rewrite lookup_alter_eq in Hk. rewrite Hidw, Ew in Hk. simpl in Hk.
        injection Hk as <-. split; congruence.
      * rewrite lookup_alter_ne in Hk by exact Hne. now apply Hw.
    + intros k x Hk. simpl in Hk. destruct (decide (newId = k)) as [<-|Hne].
      * rewrite lookup_insert_eq in Hk. injection Hk as <-.
        destruct Hc as [_ _ _ _ _ Hend].
        destruct Hend as [(Hs & _)|(Hs & _)]; auto.
      * rewrite lookup_insert_ne in Hk by exact Hne. now apply (Hd k).
Qed.

Lemma settled_run ops : forall s, settled s -> settled (run sign ops s).
Proof.
  induction ops as [|o ops IH]; intros s H; simpl; [exact H|].
  apply IH. now apply settled_apply_op.
Qed.

(** X15. After any sequence of registrations, removals and deliveries,
    every registered webhook is active, so [getStats] reports as many
    active webhooks as webhooks, and every delivery on file is final, so
    the successful and the failed deliveries add up to all deliveries. *)
Theorem getStats_after_operations ops :
  let s := run sign ops (mkService ∅ ∅) in
  settled s /\
  activeWebhooks (getStats s) = totalWebhooks (getStats s) /\
  (successfulDeliveries (getStats s) + failedDeliveries (getStats s)
   = totalDeliveries (getStats s))%nat.
Proof.
  intros s.
  assert (Hs : settled s).
  { apply settled_run.
    split; intros k x Hk; simpl in Hk; rewrite lookup_empty in Hk; discriminate. }
  split; [exact Hs|]. destruct Hs as [Hw Hd]. simpl. split.
  - rewrite filter_all.
    + unfold listWebhooks. now rewrite length_map, length_map_to_list.
    + intros w Hin. unfold listWebhooks in Hin. apply in_map_iff in Hin.
      destruct Hin as ([k w0] & <- & Hin). simpl.
      apply list_elem_of_In, elem_of_map_to_list in Hin. now apply (Hw k).
  - assert (Hfinal : forall d, In d (listDeliveries s) ->
                       status d = success \/ status d = failed).
    { intros d Hin. unfold listDeliveries in Hin. apply in_map_iff in Hin.
      destruct Hin as ([k d0] & <- & Hin). simpl.
      apply list_elem_of_In, elem_of_map_to_list in Hin. now apply (Hd k). }
    revert Hfinal. generalize (listDeliveries s).
    induction l as [|d l IH]; intros H; simpl; [reflexivity|].
    specialize (IH (fun d' Hd' => H d' (or_intror Hd'))).
    unfold isSuccess, isFailed in *.
    destruct (H d (or_introl eq_refl)) as [E|E]; rewrite E; simpl; lia.
Qed.

End Invariants.

Lemma getDeliveries_most_recent_witness :
  let s := run noSignature
             [Register "webhook_1" 0 "https://example.org/hook" [batch_completed] None;
              Deliver "delivery_1" "webhook_1" batchDone down quick 1000;
              Deliver "delivery_2" "webhook_1" batchDone failsTwice quick 9000]
             (mkService ∅ ∅) in
  map deliveryId (getDeliveries "webhook_1" 1 s) = ["delivery_2"] /\
  (length (getDeliveries "webhook_1" 1 s) <= Z.to_nat 1)%nat.
Proof.
  split; [vm_compute; reflexivity|].
  apply (getDeliveries_most_recent "webhook_1" 1). lia.
Defined.

End WebhookService.

(** ** Input validation: what acceptance means *)

Module ValidationMore.
Import Validation ValidationTheory.

Lemma number_iff path lo hi x : number path lo hi x = [] <-> between lo hi x = true.
Proof. unfold number. destruct (between lo hi x); split; congruence. Qed.

(** X17. The helper [isValidCoordinate] and the schema [LocationSchema]
    accept the same locations. *)
Theorem isValidCoordinate_iff_schema path l :
  isValidCoordinate l = true <-> LocationSchema path l = [].
Proof.
  unfold isValidCoordinate, LocationSchema. rewrite app_nil, !number_iff.
  unfold between. rewrite !andb_true_iff. tauto.
Qed.

Lemma numberDefault_again path lo hi d x v i :
  between lo hi d = true ->
  numberDefault path lo hi d x = (v, i) -> i = [] ->
  numberDefault path lo hi d (Some v) = (v, []).
Proof.
  intros Hd H ->. destruct x as [x|]; simpl in *.
  - inversion H; subst. now rewrite H2.
  - inversion H; subst. unfold number. now rewrite Hd.
Qed.

Ltac again Hr Hi :=
  let E := fresh in
  pose proof (fun pf => numberDefault_again _ _ _ _ _ _ _ pf Hr Hi) as E;
  rewrite (E eq_refl); clear E.

Ltac split_issues H :=
  repeat match type of H with
         | _ ++ _ = [] => apply app_eq_nil in H; destruct H as [? H]
         end.

Lemma RouteRequestSchema_again a v :
  RouteRequestSchema a = inl v ->
  RouteRequestSchema v = inl v /\ handler v = handler a.
Proof.
  destruct a as [a| | | | |]; try discriminate. unfold RouteRequestSchema.
  destruct (numberDefault "bufferRadius" 50 5000 500 (r_bufferRadius a))
    as [b i5] eqn:Hb.
  match goal with |- match ?i with _ => _ end = _ -> _ => destruct i eqn:Hi end;
    [|discriminate].
  intros H. inversion H; subst v. clear H. split; [|reflexivity].
  split_issues Hi. cbn [r_start r_end r_waypoints r_profile r_interests r_bufferRadius].
  again Hb Hi.
  repeat match goal with E : _ = [] |- _ => rewrite E; clear E end.
  reflexivity.
Qed.

Lemma NearbyContextSchema_again a v :
  NearbyContextSchema a = inl v ->
  NearbyContextSchema v = inl v /\ handler v = handler a.
Proof.
  destruct a as [|a| | | |]; try discriminate. unfold NearbyContextSchema.
  destruct (numberDefault "radius" 10 10000 1000 (n_radius a)) as [r i2] eqn:Hr.
  destruct (numberDefault "maxResults" 1 200 50 (n_maxResults a)) as [m i4] eqn:Hm.
  match goal with |- match ?i with _ => _ end = _ -> _ => destruct i eqn:Hi end;
    [|discriminate].
  intros H. inversion H; subst v. clear H. split; [|reflexivity].
  split_issues Hi. cbn [n_location n_radius n_types n_maxResults].
  match goal with E : ?i = [] |- _ => is_var i; again Hr E end.
  again Hm Hi.
  repeat match goal with E : _ = [] |- _ => rewrite E; clear E end.
  reflexivity.
Qed.

Lemma GeoPinSchema_again a v :
  GeoPinSchema a = inl v ->
  GeoPinSchema v = inl v /\ handler v = handler a.
Proof.
  destruct a as [| |a| | |]; try discriminate. unfold GeoPinSchema.
  destruct (numberDefault "radius" 10 5000 100 (g_radius a)) as [r i2] eqn:Hr.
  match goal with |- match ?i with _ => _ end = _ -> _ => destruct i eqn:Hi end;
    [|discriminate].
  intros H. inversion H; subst v. clear H. split; [|reflexivity].
  split_issues Hi.
  cbn [g_location g_radius g_type g_name g_description g_category].
  match goal with E : ?i = [] |- _ => is_var i; again Hr E end.
  repeat match goal with E : _ = [] |- _ => rewrite E; clear E end.
  reflexivity.
Qed.

Lemma EnrichLocationSchema_again a v :
  EnrichLocationSchema a = inl v ->
  EnrichLocationSchema v = inl v /\ handler v = handler a.
Proof.
  destruct a as [| | |a| |]; try discriminate. unfold EnrichLocationSchema.
  destruct (numberDefault "radius" 10 5000 500 (e_radius a)) as [r i2] eqn:Hr.
  match goal with |- match ?i with _ => _ end = _ -> _ => destruct i eqn:Hi end;
    [|discriminate].
  intros H. inversion H; subst v. clear H. split; [|reflexivity].
  split_issues Hi. cbn [e_location e_radius].
  again Hr Hi.
  repeat match goal with E : _ = [] |- _ => rewrite E; clear E end.
  reflexivity.
Qed.

(** X18. Validation is idempotent and leaves the locations alone: the
    value [validateToolInput] returns for an accepted call passes validation
    again unchanged (so every default is filled in and every checked field
    is in range), and the handler is given the locations of the call.  A
    call is accepted unchanged when the lookup of the tool name in
    [schemaMap] finds nothing; when it finds a member of [Object.prototype],
    as for the name [constructor], no call is accepted. *)
Theorem validateToolInput_idempotent toolName args validated
    (H : validateToolInput toolName args = inl validated) :
  validateToolInput toolName validated = inl validated /\
  handler validated = handler args /\
  (schemaMap toolName = None -> validated = args) /\
  inherited toolName = false.
Proof.
  unfold validateToolInput in *.
  destruct (schemaMap toolName) as [[schema|]|] eqn:Hs.
  - assert (Hagain : forall a v, schema a = inl v ->
                       schema v = inl v /\ handler v = handler a).
    { unfold schemaMap in Hs.
      repeat match type of Hs with
             | (if ?c then _ else _) = _ => destruct c
             end; inversion Hs; subst schema.
      - apply RouteRequestSchema_again.
      - apply NearbyContextSchema_again.
      - apply GeoPinSchema_again.
      - apply EnrichLocationSchema_again. }
    assert (Hown : inherited toolName = false).
    { unfold schemaMap in Hs.
      repeat match type of Hs with
             | (if String.eqb ?a ?b then _ else _) = _ =>
                 destruct (String.eqb_spec a b) as [->|_]; [reflexivity|]
             end.
      destruct (inherited toolName); discriminate. }
    destruct (schema args) as [v|] eqn:Hv; [|discriminate].
    inversion H; subst v. destruct (Hagain _ _ Hv) as [-> ?].
    split; [reflexivity|]. split; [assumption|]. split; [discriminate | exact Hown].
  - discriminate.
  - inversion H; subst. split; [reflexivity|]. split; [reflexivity|].
    split; [reflexivity|].
    unfold schemaMap in Hs.
    repeat match type of Hs with
           | (if ?c then _ else _) = _ => destruct c eqn:?
           end; try discriminate. reflexivity.
Qed.

Lemma validateToolInput_idempotent_witness :
  let args := EnrichLocation (mkEnrichArgs (mkLocation 48 2) None) in
  let validated := EnrichLocation (mkEnrichArgs (mkLocation 48 2) (Some 500%Q)) in
  validateToolInput "enrich_location" validated = inl validated /\
  handler validated = handler args /\
  (schemaMap "enrich_location" = None -> validated = args) /\
  inherited "enrich_location" = false.
Proof.
  apply (validateToolInput_idempotent "enrich_location"
           (EnrichLocation (mkEnrichArgs (mkLocation 48 2) None))).
  reflexivity.
Defined.

(** A tool name that [schemaMap] inherits: the lookup is truthy, [parse] is
    missing, and every call ends in the [TypeError]. *)
Lemma validateToolInput_inherited toolName args :
  inherited toolName = true -> validateToolInput toolName args = inr TypeError.
Proof.
  unfold inherited, validateToolInput, schemaMap. intros H.
  apply List.existsb_exists in H. destruct H as (n & Hn & He).
  apply String.eqb_eq in He. subst n.
  repeat (destruct Hn as [<-|Hn]; [reflexivity|]). destruct Hn.
Qed.

End ValidationMore.

(** ** The tool handlers and the index *)

Module HandlersTheory.
Import Spatial Handlers.

Section Handlers.
Variable bufferBBox : Location -> Q -> option BBox.
Variable distance : Location -> Location -> Q.
Variable fetchPOIsNearLocation :
  Location -> Q -> option (list string) -> option (list GeoPin).

#[local] Abbreviation addPin := (Spatial.addPin bufferBBox).
#[local] Abbreviation addNewPin := (Handlers.addNewPin bufferBBox).
#[local] Abbreviation addNewPins := (Handlers.addNewPins bufferBBox).
#[local] Abbreviation addFetched := (Handlers.addFetched bufferBBox).
#[local] Abbreviation queryByRadius := (Spatial.queryByRadius bufferBBox distance).
#[local] Abbreviation handleGetNearbyContext :=
  (Handlers.handleGetNearbyContext bufferBBox distance fetchPOIsNearLocation).

Lemma in_step_counts s :
  in_step s -> totalPins (getStats s) = indexSize (getStats s).
Proof.
  unfold in_step. intros H. simpl. unfold rb_all.
  rewrite <- length_map_to_list, <- H. now rewrite length_map.
Qed.

Lemma in_step_tracked s a :
  in_step s -> In a (index s) -> pinMap s !! id (pin a) = Some (pin a).
Proof.
  unfold in_step. intros H Ha.
  apply elem_of_map_to_list, list_elem_of_In.
  eapply Permutation_in; [exact H|].
  apply in_map_iff. exists a. split; [reflexivity | exact Ha].
Qed.

Lemma addPin_lookup p s k :
  pinMap (addPin p s) !! k =
    match bufferBBox (location p) (radius p) with
    | Some _ => if String.eqb k (id p) then Some p else pinMap s !! k
    | None => pinMap s !! k
    end.
Proof.
  unfold Spatial.addPin.
  destruct (bufferBBox (location p) (radius p)); [|reflexivity]. simpl.
  destruct (String.eqb k (id p)) eqn:E.
  - apply String.eqb_eq in E. subst. apply lookup_insert_eq.
  - apply String.eqb_neq in E. apply lookup_insert_ne. congruence.
Qed.

Lemma addNewPin_in_step s p : in_step s -> in_step (addNewPin s p).
Proof.
  intros H. unfold Handlers.addNewPin, getPinById.
  destruct (pinMap s !! id p) eqn:E; [exact H|].
  now apply SpatialTheory.in_step_addPin.
Qed.

Lemma addNewPin_keeps s p k q :
  pinMap s !! k = Some q -> pinMap (addNewPin s p) !! k = Some q.
Proof.
  intros H. unfold Handlers.addNewPin, getPinById.
  destruct (pinMap s !! id p) eqn:E; [exact H|].
  rewrite addPin_lookup. destruct (bufferBBox (location p) (radius p)); [|exact H].
  destruct (String.eqb k (id p)) eqn:Ek; [|exact H].
  apply String.eqb_eq in Ek. congruence.
Qed.

Lemma addNewPins_in_step l : forall s, in_step s -> in_step (addNewPins l s).
Proof.
  induction l as [|p l IH]; intros s H; simpl; [exact H|].
  apply IH. now apply addNewPin_in_step.
Qed.

Lemma addNewPins_keeps l : forall s k q,
  pinMap s !! k = Some q -> pinMap (addNewPins l s) !! k = Some q.
Proof.
  induction l as [|p l IH]; intros s k q H; simpl; [exact H|].
  apply IH. now apply addNewPin_keeps.
Qed.

Lemma addNewPins_tracks l : forall s p,
  In p l -> bufferBBox (location p) (radius p) <> None ->
  exists q, pinMap (addNewPins l s) !! id p = Some q /\
            (pinMap s !! id p = None -> In q l).
Proof.
  induction l as [|x l IH]; intros s p Hin Hbox; [destruct Hin|].
  simpl. destruct (pinMap (addNewPin s x) !! id p) as [q|] eqn:E.
  - exists q. split; [now apply addNewPins_keeps|].
    intros Hnone. left.
    unfold Handlers.addNewPin, getPinById in E.
    destruct (pinMap s !! id x) eqn:Ex; [congruence|].
    rewrite addPin_lookup in E.
    destruct (bufferBBox (location x) (radius x)); [|congruence].
    destruct (String.eqb (id p) (id x)); congruence.
  - destruct Hin as [->|Hin].
    + exfalso. unfold Handlers.addNewPin, getPinById in E.
      destruct (pinMap s !! id p) eqn:Ep; [congruence|].
      rewrite addPin_lookup in E.
      destruct (bufferBBox (location p) (radius p)); [|congruence].
      rewrite String.eqb_refl in E. discriminate.
    + destruct (IH (addNewPin s x) p Hin Hbox) as (q & Hq & Hq').
      exists q. split; [exact Hq|]. intros _. right. now apply Hq'.
Qed.

(** X19. The guarded insertion of [handleEnrichLocation],
    [enrichLocationBatch], [handleGetNearbyContext] and
    [getNearbyContextBatch] keeps the index consistent: when the tree and the
    lookup table hold the same pins before, they do so afterwards and
    [getStats] reports equal counts; a pin that was tracked is not replaced;
    and every fetched pin whose box turf can compute is tracked under its id
    afterwards. *)
Theorem addNewPins_consistent osmPins s (Hs : in_step s) :
  let s' := addNewPins osmPins s in
  in_step s' /\
  totalPins (getStats s') = indexSize (getStats s') /\
  (forall k q, getPinById k s = Some q -> getPinById k s' = Some q) /\
  (forall p, In p osmPins -> bufferBBox (location p) (radius p) <> None ->
     exists q, getPinById (id p) s' = Some q /\
               (getPinById (id p) s = None -> In q osmPins)).
Proof.
  intros s'. assert (H' : in_step s') by now apply addNewPins_in_step.
  split; [exact H'|]. split; [now apply in_step_counts|]. split.
  - intros k q. apply addNewPins_keeps.
  - intros p. apply addNewPins_tracks.
Qed.

Lemma addFetched_spec l : forall found s,
  snd (addFetched l (found, s)) = addNewPins l s /\
  exists new, fst (addFetched l (found, s)) = found ++ new /\
    forall p, In p new ->
      In p l /\ pinMap s !! id p = None /\
      (bufferBBox (location p) (radius p) <> None ->
       pinMap (addNewPins l s) !! id p = Some p).
Proof.
  induction l as [|x l IH]; intros found s.
  - simpl. split; [reflexivity|]. exists []. split; [now rewrite app_nil_r|].
    intros p [].
  - assert (Hstep : addFetched (x :: l) (found, s) =
                     addFetched l
                       match pinMap s !! id x with
                       | Some _ => (found, s)
                       | None => (found ++ [x], addPin x s)
                       end) by reflexivity.
    assert (Hstep' : addNewPins (x :: l) s = addNewPins l (addNewPin s x))
      by reflexivity.
    rewrite Hstep, Hstep'. clear Hstep Hstep'.
    unfold Handlers.addNewPin, getPinById.
    destruct (pinMap s !! id x) as [q|] eqn:Ex.
    + destruct (IH found s) as (Hs & new & Hf & Hnew). split; [exact Hs|].
      exists new. split; [exact Hf|]. intros p Hp.
      destruct (Hnew p Hp) as (H1 & H2 & H3). split; [now right|]. split; [exact H2|].
      exact H3.
    + destruct (IH (found ++ [x]) (addPin x s)) as (Hs & new & Hf & Hnew).
      split; [exact Hs|].
      exists (x :: new). split.
      { rewrite Hf, <- app_assoc. reflexivity. }
      intros p [<-|Hp].
      * split; [now left|]. split; [exact Ex|]. intros Hbox.
        apply addNewPins_keeps. rewrite addPin_lookup.
        destruct (bufferBBox (location x) (radius x)); [|congruence].
        now rewrite String.eqb_refl.
      * destruct (Hnew p Hp) as (H1 & H2 & H3). split; [now right|].
        rewrite addPin_lookup in H2.
        split.
        { destruct (bufferBBox (location x) (radius x)); [|exact H2].
          destruct (String.eqb (id p) (id x)); [discriminate | exact H2]. }
        exact H3.
Qed.

Lemma queryByRadius_In loc r s p :
  In p (queryByRadius loc r s) ->
  exists a, In a (index s) /\ pin a = p /\ within distance loc r p = true.
Proof.
  unfold Spatial.queryByRadius.
  destruct (bufferBBox loc r) as [bbox|]; [|intros []].
  intros H. apply in_map_iff in H. destruct H as ((p', d) & <- & H).
  eapply Permutation_in in H; [|apply (SpatialTheory.sort_perm snd)].
  apply filter_In in H. destruct H as [H Hd].
  apply in_map_iff in H. destruct H as (a & Ha & Hin).
  unfold rb_search in Hin. apply filter_In in Hin. destruct Hin as [Hin _].
  exists a. injection Ha as <- <-. split; [exact Hin|]. split; [reflexivity|].
  exact Hd.
Qed.

Lemma firstn_incl {A} n (l : list A) x : In x (firstn n l) -> In x l.
Proof.
  intros H. rewrite <- (firstn_skipn n l). apply in_or_app. now left.
Qed.

Lemma slice0_incl {A} k (l : list A) x : In x (slice0 k l) -> In x l.
Proof. unfold slice0. destruct (k <? 0)%Z; apply firstn_incl. Qed.

Lemma toInteger_le (q : Q) (n : nat) :
  (0 <= q)%Q -> (Z.of_nat n <= toInteger q)%Z -> (inject_Z (Z.of_nat n) <= q)%Q.
Proof.
  unfold toInteger. destruct q as [a b]. unfold Qle. simpl. intros Ha H.
  rewrite Z.mul_1_r in *.
  assert (Hq : (Z.quot a (Z.pos b) * Z.pos b <= a)%Z).
  { rewrite Z.mul_comm. apply Z.mul_quot_le; lia. }
  nia.
Qed.

(** X20. [handleGetNearbyContext], called on a consistent index.  It
    returns at most [maxResults] pins (50 when none is given).  Each returned
    pin either was tracked, lies within the radius and has one of the
    requested types, or was fetched from OpenStreetMap under an id that was
    not tracked; the fetched pins are tested neither for distance nor for
    type.  When the index alone has [maxResults] pins, OpenStreetMap is not
    asked and the index is unchanged.  Afterwards the index is consistent,
    and every returned pin whose box turf can compute is found under its
    id. *)
Theorem handleGetNearbyContext_result args s resp s'
    (Hs : in_step s)
    (Hrun : handleGetNearbyContext args s = (Some resp, s')) :
  let loc := Validation.n_location args in
  let r := orDefault (Validation.n_radius args) 1000 in
  let maxResults := orDefault (Validation.n_maxResults args) 50 in
  let found := List.filter (wantsType (Validation.n_types args))
                           (queryByRadius loc r s) in
  ((0 <= maxResults)%Q ->
   (inject_Z (Z.of_nat (length (nb_pins resp))) <= maxResults)%Q) /\
  (forall p, In p (nb_pins resp) ->
     (getPinById (id p) s = Some p /\ within distance loc r p = true /\
      wantsType (Validation.n_types args) p = true) \/
     (getPinById (id p) s = None /\
      exists osmPins, fetchPOIsNearLocation loc r (Validation.n_types args)
                        = Some osmPins /\ In p osmPins)) /\
  ((maxResults <= inject_Z (Z.of_nat (length found)))%Q ->
   s' = s /\ nb_pins resp = slice0 (toInteger maxResults) found) /\
  in_step s' /\
  (forall p, In p (nb_pins resp) ->
     bufferBBox (location p) (radius p) <> None ->
     getPinById (id p) s' = Some p).
Proof.
  intros loc r maxResults found.
  unfold Handlers.handleGetNearbyContext in Hrun.
  fold loc r maxResults found in Hrun.
  assert (Hfound : forall p, In p found ->
            pinMap s !! id p = Some p /\ within distance loc r p = true /\
            wantsType (Validation.n_types args) p = true).
  { intros p Hp. apply filter_In in Hp. destruct Hp as [Hp Ht].
    apply queryByRadius_In in Hp. destruct Hp as (a & Ha & <- & Hw).
    split; [now apply in_step_tracked|]. split; assumption. }
  assert (Hlen : forall l : list GeoPin, (0 <= maxResults)%Q ->
            (inject_Z (Z.of_nat (length (slice0 (toInteger maxResults) l)))
             <= maxResults)%Q).
  { intros l H0. apply toInteger_le; [exact H0|].
    assert (Hq : (0 <= toInteger maxResults)%Z).
    { unfold toInteger. apply Z.quot_pos; [|lia].
      unfold Qle in H0. simpl in H0. lia. }
    unfold slice0. destruct (toInteger maxResults <? 0)%Z eqn:E;
      [apply Z.ltb_lt in E; lia|].
    rewrite length_firstn. lia. }
  destruct (Qle_bool maxResults (inject_Z (Z.of_nat (length found)))) eqn:Eenough;
    simpl in Hrun.
  - injection Hrun as <- <-. simpl. split; [apply Hlen|]. split.
    { intros p Hp. left. apply Hfound. eapply slice0_incl; exact Hp. }
    split; [intros _; split; reflexivity|]. split; [exact Hs|].
    intros p Hp _. apply Hfound. eapply slice0_incl; exact Hp.
  - destruct (fetchPOIsNearLocation loc r (Validation.n_types args))
      as [osmPins|] eqn:Ef; [|discriminate].
    destruct (addFetched osmPins (found, s)) as [all s1] eqn:Ea.
    injection Hrun as <- <-. simpl.
    destruct (addFetched_spec osmPins found s) as (Hs1 & new & Hall & Hnew).
    rewrite Ea in Hs1, Hall. simpl in Hs1, Hall. subst s1 all.
    split; [apply Hlen|]. split.
    { intros p Hp. apply slice0_incl in Hp. apply in_app_or in Hp.
      destruct Hp as [Hp|Hp]; [left; now apply Hfound|].
      right. destruct (Hnew p Hp) as (H1 & H2 & _). split; [exact H2|].
      exists osmPins. split; [reflexivity | exact H1]. }
    split.
    { intros Hle. apply Qle_bool_iff in Hle. congruence. }
    split; [now apply addNewPins_in_step|].
    intros p Hp Hbox. apply slice0_incl in Hp. apply in_app_or in Hp.
    destruct Hp as [Hp|Hp].
    + apply addNewPins_keeps. now apply Hfound.
    + destruct (Hnew p Hp) as (_ & _ & H3). now apply H3.
Qed.

(** *** [generateRoute] *)

Variable lineLength : list (Q * Q) -> Q.
Variable along : list (Q * Q) -> Q -> Location.

#[local] Abbreviation generateRoute :=
  (Handlers.generateRoute bufferBBox fetchPOIsNearLocation lineLength along).
#[local] Abbreviation generateFallbackRoute :=
  (Handlers.generateFallbackRoute lineLength).
#[local] Abbreviation addAll := (fold_left (fun s p => addPin p s)).
#[local] Abbreviation computable :=
  (fun p : GeoPin =>
     match bufferBBox (location p) (radius p) with Some _ => true | None => false end).

Lemma addAll_snoc l x s : addAll (l ++ [x]) s = addPin x (addAll l s).
Proof. now rewrite fold_left_app. Qed.

Lemma addAll_tracks l : forall s p,
  In p l -> bufferBBox (location p) (radius p) <> None ->
  exists q, In q l /\ id q = id p /\ pinMap (addAll l s) !! id p = Some q.
Proof.
  induction l as [|x l IH] using rev_ind; intros s p Hin Hbox; [destruct Hin|].
  rewrite addAll_snoc, addPin_lookup.
  destruct (bufferBBox (location x) (radius x)) as [b|] eqn:Ex.
  - destruct (String.eqb (id p) (id x)) eqn:E.
    + apply String.eqb_eq in E. exists x. split; [apply in_or_app; right; now left|].
      split; [now symmetry | reflexivity].
    + apply in_app_or in Hin. destruct Hin as [Hin|[->|[]]].
      * destruct (IH s p Hin Hbox) as (q & Hq & Hid & Hl). exists q.
        split; [apply in_or_app; now left|]. split; assumption.
      * rewrite String.eqb_refl in E. discriminate.
  - apply in_app_or in Hin. destruct Hin as [Hin|[->|[]]]; [|congruence].
    destruct (IH s p Hin Hbox) as (q & Hq & Hid & Hl). exists q.
    split; [apply in_or_app; now left|]. split; assumption.
Qed.

Lemma addAll_size l : forall s,
  length (index (addAll l s)) =
    (length (index s) + length (List.filter computable l))%nat.
Proof.
  induction l as [|x l IH]; intros s; simpl; [lia|].
  rewrite IH. unfold Spatial.addPin.
  destruct (bufferBBox (location x) (radius x)); simpl; [|lia].
  unfold rb_insert. rewrite length_app. simpl. lia.
Qed.

Lemma addAll_others l k : forall s,
  (forall p, In p l -> id p <> k) ->
  pinMap (addAll l s) !! k = pinMap s !! k.
Proof.
  induction l as [|x l IH]; intros s H; simpl; [reflexivity|].
  rewrite IH by (intros p Hp; apply H; now right).
  rewrite addPin_lookup. destruct (bufferBBox (location x) (radius x)); [|reflexivity].
  destruct (String.eqb k (id x)) eqn:E; [|reflexivity].
  apply String.eqb_eq in E. exfalso. apply (H x); [now left | now symmetry].
Qed.

(** X21. A successful [generateRoute]: the route is the one [fetchRoute]
    gave and has at least two positions; [contextualPins] counts the pins
    discovered along it and [pins] previews the first 20; every discovered
    pin goes into the index without a test on its id, so the tree grows by
    one entry for each pin whose box turf can compute, a discovered pin is
    found afterwards under its id (as the last pin discovered with that id),
    and an id that no discovered pin carries is left as it was. *)
Theorem generateRoute_indexes_pins newId fetchRoute request s resp s'
    (Hrun : generateRoute newId fetchRoute request s = (Some resp, s')) :
  let cs := rd_coordinates (route resp) in
  let found :=
    Route.discoverPOIsAlongRoute (lineLength cs) (along cs) fetchPOIsNearLocation
      (orDefault (Validation.r_bufferRadius request) 500)
      (Validation.r_interests request) in
  fetchRoute request = Some (route resp) /\
  (2 <= length cs)%nat /\
  contextualPins resp = length found /\
  pins resp = firstn 20 found /\
  (forall p, In p found -> bufferBBox (location p) (radius p) <> None ->
     exists q, In q found /\ id q = id p /\ getPinById (id p) s' = Some q) /\
  indexSize (getStats s') =
    (indexSize (getStats s) + length (List.filter computable found))%nat /\
  (forall k, (forall p, In p found -> id p <> k) ->
     getPinById k s' = getPinById k s).
Proof.
  unfold Handlers.generateRoute in Hrun.
  destruct (fetchRoute request) as [routeData|] eqn:Ef; [|discriminate].
  destruct (length (rd_coordinates routeData) <? 2)%nat eqn:El; [discriminate|].
  injection Hrun as <- <-. simpl.
  split; [reflexivity|]. split; [apply Nat.ltb_ge in El; lia|].
  split; [reflexivity|]. split; [reflexivity|]. split; [|split].
  - intros p. apply addAll_tracks.
  - unfold rb_all. apply addAll_size.
  - intros k. apply addAll_others.
Qed.

Lemma last_snoc {A} (l : list A) (x d : A) : List.last (l ++ [x]) d = x.
Proof. induction l as [|y [|z l] IH]; simpl in *; auto. Qed.

(** X22. With no routing provider, [generateRoute] on the fallback route
    does not fail: the route goes from the start through the waypoints to
    the end, as [lng, lat] pairs, its distance is the length of that line,
    and its duration is computed from the distance as [(distance / 1000) * 72]. *)
Theorem generateFallbackRoute_route newId request s :
  let waypoints :=
    match Validation.r_waypoints request with Some ws => ws | None => [] end in
  exists resp s',
    generateRoute newId (fun r => Some (generateFallbackRoute r)) request s
      = (Some resp, s') /\
    rd_coordinates (route resp) =
      map (fun l => (lng l, lat l))
          (Validation.r_start request :: waypoints ++ [Validation.r_end request]) /\
    rd_distance (route resp) = lineLength (rd_coordinates (route resp)) /\
    rd_duration (route resp) =
      Mul (Div (Exact (rd_distance (route resp))) (Exact 1000)) (Exact 72).
Proof.
  intros waypoints. unfold Handlers.generateRoute.
  set (rd := generateFallbackRoute request).
  assert (Hcs : rd_coordinates rd =
            map (fun l => (lng l, lat l))
                (Validation.r_start request :: waypoints ++ [Validation.r_end request])).
  { unfold rd, Handlers.generateFallbackRoute, waypoints. simpl.
    rewrite map_app. simpl.
    destruct (Validation.r_waypoints request); reflexivity. }
  assert (Hlen : (length (rd_coordinates rd) <? 2)%nat = false).
  { apply Nat.ltb_ge. rewrite Hcs, length_map. simpl. rewrite length_app. simpl. lia. }
  rewrite Hlen. eexists. eexists. split; [reflexivity|]. simpl.
  split; [exact Hcs|]. split; [reflexivity|].
  reflexivity.
Qed.

End Handlers.

Lemma in_step_empty : in_step empty.
Proof. unfold in_step. simpl. now rewrite map_to_list_empty. Qed.

Lemma addNewPins_consistent_witness :
  let s := addPin flatBBox marker1 empty in
  let s' := Handlers.addNewPins flatBBox [pinB; marker2] (addPin flatBBox pinA s) in
  in_step s' /\ getPinById "pin_x" s' = Some pinA /\ getPinById "pin_2" s' = Some marker2.
Proof.
  assert (Hs : in_step (addPin flatBBox pinA (addPin flatBBox marker1 empty))).
  { apply SpatialTheory.in_step_addPin; [reflexivity|].
    apply SpatialTheory.in_step_addPin; [reflexivity | apply in_step_empty]. }
  destruct (addNewPins_consistent flatBBox [pinB; marker2] _ Hs) as (H1 & _ & H3 & _).
  split; [exact H1|]. split; [apply H3; reflexivity | reflexivity].
Defined.

Lemma handleGetNearbyContext_result_witness :
  let s := addPin flatBBox marker1 empty in
  let args := Validation.mkNearbyArgs (location marker1) (Some 200%Q) None (Some 5%Q) in
  let fetch := fun (_ : Location) (_ : Q) (_ : option (list string)) =>
                 Some [marker1; marker2] in
  exists resp s',
    Handlers.handleGetNearbyContext flatBBox flatDistance fetch args s = (Some resp, s') /\
    map id (nb_pins resp) = ["pin_1"; "pin_2"] /\
    in_step s'.
Proof.
  assert (Hs : in_step (addPin flatBBox marker1 empty)).
  { apply SpatialTheory.in_step_addPin; [reflexivity | apply in_step_empty]. }
  eexists. eexists. split; [|split].
  - vm_compute. reflexivity.
  - reflexivity.
  - eapply (handleGetNearbyContext_result flatBBox flatDistance
              (fun _ _ _ => Some [marker1; marker2])
              (Validation.mkNearbyArgs (location marker1) (Some 200%Q) None (Some 5%Q))
              (addPin flatBBox marker1 empty) _ _ Hs).
    vm_compute. reflexivity.
Defined.

Lemma generateRoute_indexes_pins_witness :
  let fetch := fun (_ : Location) (_ : Q) (_ : option (list string)) =>
                 Some [marker1] in
  let request :=
    Validation.mkRouteArgs (mkLocation 0 0) (mkLocation 0 1) None None None None in
  let fetchRoute := fun _ : Validation.RouteArgs =>
    Some (mkRouteData 2000 (Exact 144) [(0, 0); (1, 0)]%Q) in
  exists resp s',
    Handlers.generateRoute flatBBox fetch (fun _ => 2000%Q)
      (fun _ d => mkLocation 0 (d / 2000)) "route_1" fetchRoute request empty
      = (Some resp, s') /\
    contextualPins resp = 1%nat /\
    indexSize (getStats s') = 1%nat.
Proof.
  eexists. eexists. split; [vm_compute; reflexivity|]. split; [reflexivity|].
  edestruct (generateRoute_indexes_pins flatBBox (fun _ _ _ => Some [marker1])
               (fun _ => 2000%Q) (fun _ d => mkLocation 0 (d / 2000)) "route_1"
               (fun _ => Some (mkRouteData 2000 (Exact 144) [(0, 0); (1, 0)]%Q))
               (Validation.mkRouteArgs (mkLocation 0 0) (mkLocation 0 1)
                                       None None None None)
               empty) as (_ & _ & _ & _ & _ & Hsize & _).
  - vm_compute. reflexivity.
  - rewrite Hsize. reflexivity.
Defined.

End HandlersTheory.

(** ** Rate limiting *)

Module RateLimiterTheory.
Import RateLimiter.

Lemma intervalCap_bounds configured t cap :
  intervalCap (getQueueConfig configured t) = Some cap -> (10 <= cap <= 50)%nat.
Proof.
  unfold getQueueConfig.
  repeat match goal with |- context [if ?c then _ else _] => destruct c end;
    simpl; intros [= <-] || discriminate; lia.
Qed.

Lemma intervalCap_defined configured t :
  inherited t = false -> exists cap, intervalCap (getQueueConfig configured t) = Some cap.
Proof.
  unfold getQueueConfig. intros ->.
  repeat match goal with |- context [if ?c then _ else _] => destruct c end;
    simpl; eexists; reflexivity.
Qed.

Lemma run_calls_snoc configured calls c :
  run configured (calls ++ [c]) = step configured (run configured calls) c.
Proof. unfold run. now rewrite fold_left_app. Qed.

Lemma passed_incl configured calls :
  forall c, In c (snd (run configured calls)) -> In c calls.
Proof.
  induction calls as [|x calls IH] using rev_ind; intros c; [intros []|].
  rewrite run_calls_snoc. unfold step.
  destruct (checkRateLimit configured (c_tool x) (c_user x) (c_now x)
              (fst (run configured calls))) as [[w|] rc]; simpl; intros H.
  - apply in_or_app. left. now apply IH.
  - apply in_app_or in H. apply in_or_app. destruct H as [H|H]; [left; now apply IH|].
    now right.
Qed.

Lemma chronological_snoc calls c :
  chronological (calls ++ [c]) ->
  chronological calls /\ forall c0, In c0 calls -> (c_now c0 <= c_now c)%Z.
Proof.
  unfold chronological. induction calls as [|x calls IH]; simpl; intros H.
  - split; [constructor | intros ? []].
  - inversion H as [|? ? Hs Hx]; subst. destruct (IH Hs) as [IH1 IH2]. split.
    + constructor; [exact IH1|].
      rewrite List.Forall_forall in *. intros y Hy. apply Hx.
      apply in_or_app. now left.
    + intros c0 [<-|H0]; [|now apply IH2].
      rewrite List.Forall_forall in Hx. apply Hx. apply in_or_app. right. now left.
Qed.

Lemma inWindow_snoc k e passed c :
  inWindow k e (passed ++ [c]) =
    inWindow k e passed ++
    (if String.eqb (c_key c) k && (resetTime e - 60000 <=? c_now c)%Z
     then [c] else []).
Proof. unfold inWindow. now rewrite List.filter_app. Qed.

Lemma inWindow_none k e passed :
  (forall c, In c passed -> c_key c = k -> (c_now c < resetTime e - 60000)%Z) ->
  inWindow k e passed = [].
Proof.
  intros H. unfold inWindow. induction passed as [|c passed IH]; [reflexivity|].
  simpl. destruct (String.eqb (c_key c) k) eqn:E; simpl.
  - apply String.eqb_eq in E.
    assert (Hc := H c (or_introl eq_refl) E).
    destruct (resetTime e - 60000 <=? c_now c)%Z eqn:El; [apply Z.leb_le in El; lia|].
    apply IH. intros c' Hc'. apply H. now right.
  - apply IH. intros c' Hc'. apply H. now right.
Qed.

(** The entry of a key that the call at hand does not use. *)
Lemma windows_ok_other configured (st : RequestCounts * list Call) c k :
  c_key c <> k ->
  match fst st !! k with
  | Some e =>
      count e = length (inWindow k e (snd st)) /\
      (forall c, In c (snd st) -> c_key c = k -> (c_now c <= resetTime e)%Z) /\
      (exists c0, In c0 (snd st) /\ c_key c0 = k /\
                  c_now c0 = (resetTime e - 60000)%Z) /\
      (1 <= count e)%nat /\
      ((forall c, In c (snd st) -> c_key c = k -> inherited (c_tool c) = false) ->
       (count e <= 50)%nat) /\
      (forall t cap, (forall c, In c (snd st) -> c_key c = k -> c_tool c = t) ->
         intervalCap (getQueueConfig configured t) = Some cap ->
         (count e <= cap)%nat)
  | None => forall c, In c (snd st) -> c_key c <> k
  end ->
  match fst st !! k with
  | Some e =>
      count e = length (inWindow k e (snd st ++ [c])) /\
      (forall c', In c' (snd st ++ [c]) -> c_key c' = k -> (c_now c' <= resetTime e)%Z) /\
      (exists c0, In c0 (snd st ++ [c]) /\ c_key c0 = k /\
                  c_now c0 = (resetTime e - 60000)%Z) /\
      (1 <= count e)%nat /\
      ((forall c', In c' (snd st ++ [c]) -> c_key c' = k -> inherited (c_tool c') = false) ->
       (count e <= 50)%nat) /\
      (forall t cap, (forall c', In c' (snd st ++ [c]) -> c_key c' = k -> c_tool c' = t) ->
         intervalCap (getQueueConfig configured t) = Some cap ->
         (count e <= cap)%nat)
  | None => forall c', In c' (snd st ++ [c]) -> c_key c' <> k
  end.
Proof.
  intros Hne Hk. destruct (fst st !! k) as [e'|].
  - destruct Hk as (H1 & H2 & (c1 & Hc1 & Hk1 & Hs1) & H4 & H5 & H6).
    rewrite inWindow_snoc.
    replace (String.eqb (c_key c) k) with false
      by (symmetry; now apply String.eqb_neq).
    simpl. rewrite app_nil_r. split; [exact H1|]. split.
    { intros c' Hc' Hk'. apply in_app_or in Hc'.
      destruct Hc' as [Hc'|[<-|[]]]; [now apply H2 | congruence]. }
    split.
    { exists c1. split; [apply in_or_app; now left|]. now split. }
    split; [exact H4|]. split.
    { intros Ht. apply H5. intros c' Hc'. apply Ht. apply in_or_app. now left. }
    intros t cap Ht. apply H6. intros c' Hc'. apply Ht. apply in_or_app. now left.
  - intros c' Hc'. apply in_app_or in Hc'.
    destruct Hc' as [Hc'|[<-|[]]]; [now apply Hk | exact Hne].
Qed.

Lemma windows_ok_step configured st c :
  (forall c0, In c0 (snd st) -> (c_now c0 <= c_now c)%Z) ->
  windows_ok configured st -> windows_ok configured (step configured st c).
Proof.
  intros Hlate Hinv k. pose proof (Hinv k) as Hk. pose proof (Hinv (c_key c)) as Hc.
  unfold step, checkRateLimit. fold (c_key c).
  destruct (fst st !! c_key c) as [e|] eqn:Ee.
  - destruct Hc as (Hcount & Hbefore & (c0 & Hc0 & Hkey0 & Hstart) & Hone & Hfifty & Htool).
    destruct (resetTime e <? c_now c)%Z eqn:Ereset.
    + (* a new window *)
      apply Z.ltb_lt in Ereset. simpl.
      destruct (String.eqb_spec (c_key c) k) as [<-|Hne].
      * rewrite lookup_insert_eq. simpl. rewrite inWindow_snoc. simpl.
        rewrite String.eqb_refl. simpl.
        replace (c_now c + 60000 - 60000 <=? c_now c)%Z with true
          by (symmetry; apply Z.leb_le; lia).
        rewrite inWindow_none.
        2:{ intros c' Hc' Hk'. simpl. specialize (Hbefore c' Hc' Hk'). lia. }
        split; [reflexivity|]. split.
        { intros c' Hc' Hk'. apply in_app_or in Hc'. destruct Hc' as [Hc'|[<-|[]]].
          - specialize (Hbefore c' Hc' Hk'). lia.
          - lia. }
        split.
        { exists c. split; [apply in_or_app; right; now left|].
          split; [reflexivity | lia]. }
        split; [lia|]. split; [intros _; lia|].
        intros t cap _ Hcap. pose proof (intervalCap_bounds configured t cap Hcap). lia.
      * rewrite lookup_insert_ne by exact Hne.
        now apply (windows_ok_other configured st c k Hne).
    + apply Z.ltb_ge in Ereset.
      destruct (atLeast (count e) (intervalCap (getQueueConfig configured (c_tool c))))
        eqn:Efull; simpl; [exact Hk|].
      assert (Hopen : (resetTime e - 60000 <= c_now c)%Z).
      { rewrite <- Hstart. now apply Hlate. }
      destruct (String.eqb_spec (c_key c) k) as [<-|Hne].
      * rewrite lookup_insert_eq. simpl.
        change (inWindow (c_key c) _ ?l) with (inWindow (c_key c) e l).
        rewrite inWindow_snoc, String.eqb_refl. simpl.
        replace (resetTime e - 60000 <=? c_now c)%Z with true
          by (symmetry; now apply Z.leb_le).
        rewrite length_app. simpl. split; [lia|]. split.
        { intros c' Hc' Hk'. apply in_app_or in Hc'.
          destruct Hc' as [Hc'|[<-|[]]]; [now apply Hbefore | exact Ereset]. }
        split.
        { exists c0. split; [apply in_or_app; now left|]. now split. }
        split; [lia|].
        assert (Hbelow : forall cap,
                  intervalCap (getQueueConfig configured (c_tool c)) = Some cap ->
                  (S (count e) <= cap)%nat).
        { intros cap Hcap. rewrite Hcap in Efull. simpl in Efull.
          apply Nat.leb_gt in Efull. lia. }
        split.
        { intros Hown.
          destruct (intervalCap_defined configured (c_tool c)) as (cap & Hcap).
          { apply Hown; [apply in_or_app; right; now left | reflexivity]. }
          pose proof (intervalCap_bounds configured _ cap Hcap).
          pose proof (Hbelow cap Hcap). lia. }
        intros t cap Ht Hcap.
        assert (Et : c_tool c = t).
        { apply Ht; [apply in_or_app; right; now left | reflexivity]. }
        subst t. now apply Hbelow.
      * rewrite lookup_insert_ne by exact Hne.
        now apply (windows_ok_other configured st c k Hne).
  - (* the first call of the key *)
    simpl. destruct (String.eqb_spec (c_key c) k) as [<-|Hne].
    + rewrite lookup_insert_eq. simpl. rewrite inWindow_snoc. simpl.
      rewrite String.eqb_refl. simpl.
      replace (c_now c + 60000 - 60000 <=? c_now c)%Z with true
        by (symmetry; apply Z.leb_le; lia).
      rewrite inWindow_none.
      2:{ intros c' Hc' Hk'. exfalso. exact (Hc c' Hc' Hk'). }
      split; [reflexivity|]. split.
      { intros c' Hc' Hk'. apply in_app_or in Hc'. destruct Hc' as [Hc'|[<-|[]]].
        - exfalso. exact (Hc c' Hc' Hk').
        - lia. }
      split.
      { exists c. split; [apply in_or_app; right; now left|].
        split; [reflexivity | lia]. }
      split; [lia|]. split; [intros _; lia|].
      intros t cap _ Hcap. pose proof (intervalCap_bounds configured t cap Hcap). lia.
    + rewrite lookup_insert_ne by exact Hne.
      now apply (windows_ok_other configured st c k Hne).
Qed.

Lemma windows_ok_run configured calls :
  chronological calls -> windows_ok configured (run configured calls).
Proof.
  induction calls as [|c calls IH] using rev_ind; intros H.
  - intros k. simpl. rewrite lookup_empty. intros c [].
  - apply chronological_snoc in H. destruct H as [H Hlate].
    rewrite run_calls_snoc. apply windows_ok_step; [|now apply IH].
    intros c0 Hc0. apply Hlate. eapply passed_incl. exact Hc0.
Qed.

(** X23. The fixed window of [checkRateLimit].  After any sequence of
    calls that come in the order of their times, the count kept for a key is
    the number of calls of that key let through in the minute that ends at
    the key's reset time, and it is at least 1.  When one tool uses the key
    and the lookup of its name in [configs] yields an [intervalCap], the
    count does not exceed it; when no call of the key names a member of
    [Object.prototype], the count is at most 50. *)
Theorem checkRateLimit_window configured calls k e
    (Hchron : chronological calls)
    (He : fst (run configured calls) !! k = Some e) :
  let passed := snd (run configured calls) in
  count e = length (inWindow k e passed) /\
  Forall (fun c => (resetTime e - 60000 <= c_now c <= resetTime e)%Z)
         (inWindow k e passed) /\
  (1 <= count e)%nat /\
  (forall t cap, (forall c, In c calls -> c_key c = k -> c_tool c = t) ->
     intervalCap (getQueueConfig configured t) = Some cap ->
     (count e <= cap)%nat) /\
  ((forall c, In c calls -> c_key c = k -> inherited (c_tool c) = false) ->
   (count e <= 50)%nat).
Proof.
  intros passed. pose proof (windows_ok_run configured calls Hchron k) as H.
  rewrite He in H. destruct H as (H1 & H2 & _ & H4 & H5 & H6).
  split; [exact H1|]. split.
  - apply List.Forall_forall. intros c Hc. unfold inWindow in Hc.
    apply filter_In in Hc. destruct Hc as [Hc Hb].
    apply andb_prop in Hb. destruct Hb as [Hk Hw].
    apply String.eqb_eq in Hk. apply Z.leb_le in Hw. split; [exact Hw|].
    now apply H2.
  - split; [exact H4|]. split.
    + intros t cap Ht. apply H6. intros c Hc. apply Ht.
      eapply passed_incl. exact Hc.
    + intros Hown. apply H5. intros c Hc. apply Hown.
      eapply passed_incl. exact Hc.
Qed.

(** The name [constructor] is never limited: sixty calls within one second
    are all let through. *)
Example constructor_not_limited :
  let calls := map (fun i => mkCall "constructor" None (Z.of_nat i)) (seq 0 60) in
  fst (run None calls) !! "constructor" = Some (mkLimit 60 60000) /\
  length (snd (run None calls)) = 60%nat /\
  intervalCap (getQueueConfig None "constructor") = None.
Proof. vm_compute. repeat split; reflexivity. Qed.

Lemma ceilSeconds_bounds ms :
  (0 <= ms <= 60000)%Z -> (0 <= ceilSeconds ms <= 60 /\ ms <= ceilSeconds ms * 1000)%Z.
Proof.
  intros H. unfold ceilSeconds.
  pose proof (Z.div_mod (- ms) 1000 ltac:(lia)) as Hd.
  pose proof (Z.mod_pos_bound (- ms) 1000 ltac:(lia)) as Hm. lia.
Qed.

(** X24. A call that [checkRateLimit] turns away, after calls that came in
    the order of their times: the counts are left as they were, the wait it
    announces is between 0 and 60 seconds, and a call of the same tool and
    user made later than that wait is let through. *)
Theorem checkRateLimit_wait configured calls c waitTime rc'
    (Hchron : chronological (calls ++ [c]))
    (Hthrow : checkRateLimit configured (c_tool c) (c_user c) (c_now c)
                (fst (run configured calls)) = (Some waitTime, rc')) :
  rc' = fst (run configured calls) /\
  (0 <= waitTime <= 60)%Z /\
  (forall later, (c_now c + waitTime * 1000 < later)%Z ->
     fst (checkRateLimit configured (c_tool c) (c_user c) later rc') = None).
Proof.
  apply chronological_snoc in Hchron. destruct Hchron as [Hchron Hlate].
  pose proof (windows_ok_run configured calls Hchron (c_key c)) as H.
  unfold checkRateLimit in *. fold (c_key c) in *.
  destruct (fst (run configured calls) !! c_key c) as [e|] eqn:Ee; [|discriminate].
  destruct (resetTime e <? c_now c)%Z eqn:Ereset; [discriminate|].
  destruct (atLeast (count e) (intervalCap (getQueueConfig configured (c_tool c))))
    eqn:Efull; [|discriminate].
  injection Hthrow as <- <-. apply Z.ltb_ge in Ereset.
  destruct H as (_ & _ & (c0 & Hc0 & _ & Hstart) & _).
  assert (Hopen : (resetTime e - 60000 <= c_now c)%Z).
  { rewrite <- Hstart. apply Hlate. eapply passed_incl. exact Hc0. }
  destruct (ceilSeconds_bounds (resetTime e - c_now c)) as [Hw Hup]; [lia|].
  split; [reflexivity|]. split; [exact Hw|].
  intros later Hl. rewrite Ee.
  replace (resetTime e <? later)%Z with true by (symmetry; apply Z.ltb_lt; lia).
  reflexivity.
Qed.

Lemma checkRateLimit_window_witness :
  let calls := [mkCall "generate_route" None 0; mkCall "generate_route" None 500;
                mkCall "generate_route" None 70000] in
  let e := mkLimit 1 130000 in
  count e = length (inWindow "generate_route" e (snd (run None calls))).
Proof.
  apply (checkRateLimit_window None
           [mkCall "generate_route" None 0; mkCall "generate_route" None 500;
            mkCall "generate_route" None 70000]
           "generate_route" (mkLimit 1 130000)).
  - unfold chronological. repeat (constructor; simpl; try lia).
  - vm_compute. reflexivity.
Defined.

Lemma checkRateLimit_wait_witness :
  let calls := repeat (mkCall "generate_route" None 1500) 10 in
  let c := mkCall "generate_route" None 31000 in
  (0 <= 31 <= 60)%Z /\
  fst (checkRateLimit None "generate_route" None 62001 (fst (run None calls))) = None.
Proof.
  destruct (checkRateLimit_wait None (repeat (mkCall "generate_route" None 1500) 10)
              (mkCall "generate_route" None 31000) 31
              (fst (run None (repeat (mkCall "generate_route" None 1500) 10))))
    as (_ & Hw & Hlater).
  - unfold chronological. simpl. repeat (constructor; simpl; try lia).
  - vm_compute. reflexivity.
  - split; [exact Hw|]. apply Hlater. simpl. lia.
Defined.

End RateLimiterTheory.

(** ** Metrics *)

Module MetricsTheory.
Import Metrics.

#[local] Abbreviation current := (fun (tool : string) (metrics : MetricsMap) =>
  match metrics !! tool with Some m => m | None => initial tool end).

Lemma initializeMetrics_spec tool metrics :
  fst (initializeMetrics tool metrics) = current tool metrics /\
  forall k, snd (initializeMetrics tool metrics) !! k =
            if String.eqb k tool then Some (current tool metrics) else metrics !! k.
Proof.
  unfold initializeMetrics. destruct (metrics !! tool) as [m|] eqn:E; simpl.
  - split; [reflexivity|]. intros k. destruct (String.eqb_spec k tool) as [->|]; auto.
  - split; [reflexivity|]. intros k. destruct (String.eqb_spec k tool) as [->|Hne].
    + apply lookup_insert_eq.
    + apply lookup_insert_ne. congruence.
Qed.

Lemma apply_event_lookup metrics e k :
  apply_event metrics e !! k =
    match e with
    | Start tool now =>
        if String.eqb k tool
        then let m := current tool metrics in
             Some (mkToolMetrics (toolName m) (S (totalRequests m))
                     (successfulRequests m) (failedRequests m) (totalDuration m)
                     (avgDuration m) (minDuration m) (maxDuration m) now)
        else metrics !! k
    | Success tool startTime now =>
        if String.eqb k tool
        then let m := current tool metrics in
             let total := (totalDuration m + (now - startTime))%Z in
             Some (mkToolMetrics (toolName m) (totalRequests m)
                     (S (successfulRequests m)) (failedRequests m) total
                     (average total (S (successfulRequests m) + failedRequests m))
                     (Math_min (minDuration m) (now - startTime))
                     (Z.max (maxDuration m) (now - startTime))
                     (lastRequestTime m))
        else metrics !! k
    | Failure tool startTime now =>
        if String.eqb k tool
        then let m := current tool metrics in
             let total := (totalDuration m + (now - startTime))%Z in
             Some (mkToolMetrics (toolName m) (totalRequests m)
                     (successfulRequests m) (S (failedRequests m)) total
                     (average total (successfulRequests m + S (failedRequests m)))
                     (minDuration m) (maxDuration m) (lastRequestTime m))
        else metrics !! k
    end.
Proof.
  destruct e as [tool now|tool startTime now|tool startTime now]; simpl;
    unfold recordRequestStart, recordSuccess, recordFailure;
    destruct (initializeMetrics_spec tool metrics) as [H1 H2];
    destruct (initializeMetrics tool metrics) as [m metrics1]; simpl in *;
    subst m; destruct (String.eqb_spec k tool) as [->|Hne];
    try (rewrite lookup_insert_eq; reflexivity);
    rewrite lookup_insert_ne by congruence; rewrite H2;
    (destruct (String.eqb_spec k tool); [congruence | reflexivity]).
Qed.

Lemma run_events_snoc events e : run (events ++ [e]) = apply_event (run events) e.
Proof. unfold run. now rewrite fold_left_app. Qed.

Lemma starts_snoc tool events e :
  starts tool (events ++ [e]) =
    (starts tool events +
     match e with Start t _ => if String.eqb t tool then 1 else 0 | _ => 0 end)%nat.
Proof.
  unfold starts. rewrite List.filter_app, length_app. simpl.
  destruct e as [t ?|? ? ?|? ? ?]; simpl; try reflexivity;
    destruct (String.eqb t tool); reflexivity.
Qed.

Lemma successes_snoc tool events e :
  successes tool (events ++ [e]) =
    successes tool events ++
    match e with
    | Success t startTime now => if String.eqb t tool then [(now - startTime)%Z] else []
    | _ => []
    end.
Proof.
  induction events as [|x events IH]; simpl.
  - destruct e as [|t ? ?|]; try reflexivity; destruct (String.eqb t tool); reflexivity.
  - destruct x as [|t ? ?|]; try exact IH.
    destruct (String.eqb t tool); [simpl; now f_equal | exact IH].
Qed.

Lemma failures_snoc tool events e :
  failures tool (events ++ [e]) =
    failures tool events ++
    match e with
    | Failure t startTime now => if String.eqb t tool then [(now - startTime)%Z] else []
    | _ => []
    end.
Proof.
  induction events as [|x events IH]; simpl.
  - destruct e as [| |t ? ?]; try reflexivity; destruct (String.eqb t tool); reflexivity.
  - destruct x as [| |t ? ?]; try exact IH.
    destruct (String.eqb t tool); [simpl; now f_equal | exact IH].
Qed.

Lemma total_snoc l d : total (l ++ [d]) = (total l + d)%Z.
Proof. unfold total. induction l as [|x l IH]; simpl; lia. Qed.

Lemma statistics_unmentioned tool events :
  Forall (fun e => mentions tool e = false) events ->
  statistics tool events (initial tool).
Proof.
  intros H.
  assert (E : starts tool events = 0%nat /\ successes tool events = [] /\
              failures tool events = []).
  { unfold starts. induction H as [|e events He _ IH]; [auto|].
    destruct IH as (I1 & I2 & I3).
    destruct e as [t ?|t ? ?|t ? ?]; simpl in *; rewrite He; auto. }
  destruct E as (E1 & E2 & E3). unfold statistics. rewrite E1, E2, E3. simpl.
  repeat split; auto; contradiction.
Qed.

Lemma statistics_skip tool events e m :
  mentions tool e = false -> statistics tool events m ->
  statistics tool (events ++ [e]) m.
Proof.
  unfold statistics. rewrite starts_snoc, successes_snoc, failures_snoc.
  intros He. destruct e as [t ?|t ? ?|t ? ?]; simpl in He; rewrite He;
    rewrite ?app_nil_r, ?Nat.add_0_r; auto.
Qed.

Lemma statistics_step tool events e metrics :
  mentions tool e = true -> statistics tool events (current tool metrics) ->
  exists m', apply_event metrics e !! tool = Some m' /\
             statistics tool (events ++ [e]) m'.
Proof.
  set (m := current tool metrics).
  intros He (Hname & Hstart & Hsucc & Hfail & Htotal & Havg & Hrange & Hnone).
  rewrite apply_event_lookup.
  unfold statistics. rewrite starts_snoc, successes_snoc, failures_snoc.
  destruct e as [t now|t startTime now|t startTime now]; simpl in He;
    apply String.eqb_eq in He; subst t; rewrite !String.eqb_refl;
    cbv zeta; fold m; eexists; (split; [reflexivity|]); simpl;
    rewrite ?app_nil_r, ?Nat.add_0_r.
  - split; [exact Hname|]. split; [lia|]. split; [exact Hsucc|].
    split; [exact Hfail|]. split; [exact Htotal|]. split; [exact Havg|].
    split; [exact Hrange | exact Hnone].
  - rewrite length_app, total_snoc. simpl.
    split; [exact Hname|]. split; [exact Hstart|]. split; [lia|]. split; [exact Hfail|].
    split; [lia|]. split; [reflexivity|]. split.
    + intros d Hd. apply in_app_or in Hd. destruct Hd as [Hd|[<-|[]]].
      * destruct (Hrange d Hd) as (Hmax & lo & Hlo & Hle). split; [lia|].
        rewrite Hlo. simpl. eexists. split; [reflexivity | lia].
      * split; [lia|]. destruct (minDuration m) as [lo|]; simpl;
          eexists; (split; [reflexivity | lia]).
    + intros Hnil. destruct (successes tool events); discriminate.
  - rewrite length_app, total_snoc. simpl.
    split; [exact Hname|]. split; [exact Hstart|]. split; [exact Hsucc|].
    split; [lia|]. split; [lia|]. split.
    + replace (0 <? successfulRequests m + S (failedRequests m))%nat with true
        by (symmetry; apply Nat.ltb_lt; lia).
      reflexivity.
    + split; [exact Hrange | exact Hnone].
Qed.

Lemma statistics_run events tool :
  match run events !! tool with
  | Some m => statistics tool events m
  | None => Forall (fun e => mentions tool e = false) events
  end.
Proof.
  induction events as [|e events IH] using rev_ind.
  - unfold run. simpl. rewrite lookup_empty. constructor.
  - rewrite run_events_snoc. destruct (mentions tool e) eqn:He.
    + assert (Hcur : statistics tool events (current tool (run events))).
      { destruct (run events !! tool); [exact IH|].
        now apply statistics_unmentioned. }
      destruct (statistics_step tool events e (run events) He Hcur) as (m' & -> & Hs).
      exact Hs.
    + rewrite apply_event_lookup.
      assert (Hsame : forall t, String.eqb t tool = false -> String.eqb tool t = false).
      { intros t Ht. apply String.eqb_neq in Ht. apply String.eqb_neq. congruence. }
      destruct e as [t ?|t ? ?|t ? ?]; simpl in He;
        rewrite (Hsame t He);
        (destruct (run events !! tool);
         [apply statistics_skip; [exact He | exact IH]
         |apply Forall_app; split; [exact IH | constructor; [exact He | constructor]]]).
Qed.

(** X25. The record kept for a tool holds the statistics of what the
    service was told about the tool, whatever the order of the reports:
    [totalRequests] counts the starts, [successfulRequests] and
    [failedRequests] the completions, [totalDuration] adds the durations of
    both, [avgDuration] is that sum divided by the number of completions
    (and 0 before the first), and every successful duration lies between
    [minDuration] and [maxDuration].  Failed requests enter the quotient and
    not the bounds.  A tool that was never mentioned has no record. *)
Theorem metrics_are_statistics events tool :
  match getMetrics tool (run events) with
  | Some m =>
      totalRequests m = starts tool events /\
      successfulRequests m = length (successes tool events) /\
      failedRequests m = length (failures tool events) /\
      totalDuration m = (total (successes tool events) + total (failures tool events))%Z /\
      avgDuration m =
        (if (0 <? length (successes tool events) + length (failures tool events))%nat
         then Div (Exact (inject_Z (total (successes tool events) +
                                    total (failures tool events))))
                  (Exact (inject_Z (Z.of_nat (length (successes tool events) +
                                              length (failures tool events)))))
         else Exact 0) /\
      (forall d, In d (successes tool events) ->
         exists lo, minDuration m = Some lo /\ (lo <= d <= maxDuration m)%Z)
  | None => Forall (fun e => mentions tool e = false) events
  end.
Proof.
  unfold getMetrics. pose proof (statistics_run events tool) as H.
  destruct (run events !! tool) as [m|]; [|exact H].
  destruct H as (_ & H1 & H2 & H3 & H4 & H5 & H6 & _).
  split; [exact H1|]. split; [exact H2|]. split; [exact H3|]. split; [exact H4|].
  split.
  - rewrite H5, H2, H3, H4. reflexivity.
  - intros d Hd. destruct (H6 d Hd) as (Hmax & lo & Hlo & Hle).
    exists lo. split; [exact Hlo | lia].
Qed.

Lemma sum_perm f l1 l2 : Permutation l1 l2 -> sum f l1 = sum f l2.
Proof. unfold sum. induction 1; simpl; lia. Qed.

Lemma sum_insert_eq f (metrics : MetricsMap) k x :
  f (initial k) = 0%nat ->
  (sum f (map_to_list (<[k := x]> metrics)) + f (current k metrics) =
   sum f (map_to_list metrics) + f x)%nat.
Proof.
  intros H0. destruct (metrics !! k) as [o|] eqn:E.
  - rewrite <- (insert_delete_eq metrics k x).
    rewrite (sum_perm f _ _ (map_to_list_insert (delete k metrics) k x
                               (lookup_delete_eq metrics k))).
    rewrite <- (sum_perm f _ _ (map_to_list_delete metrics k o E)).
    unfold sum. simpl. rewrite E. lia.
  - rewrite (sum_perm f _ _ (map_to_list_insert metrics k x E)).
    unfold sum. simpl. rewrite E. lia.
Qed.

Lemma apply_event_insert metrics e :
  exists m', apply_event metrics e !! tool_of e = Some m' /\
             apply_event metrics e = <[tool_of e := m']> metrics.
Proof.
  assert (H : forall m', apply_event metrics e !! tool_of e = Some m' ->
            apply_event metrics e = <[tool_of e := m']> metrics).
  { intros m' Hm'. apply map_eq. intros k.
    destruct (String.eqb_spec k (tool_of e)) as [->|Hne].
    - now rewrite lookup_insert_eq.
    - rewrite lookup_insert_ne by congruence. rewrite apply_event_lookup.
      destruct e; simpl in Hne;
        (destruct (String.eqb_spec k tool); [congruence | reflexivity]). }
  destruct (apply_event metrics e !! tool_of e) as [m'|] eqn:E.
  - exists m'. split; [reflexivity | now apply H].
  - exfalso. rewrite apply_event_lookup in E.
    destruct e; simpl in E; rewrite String.eqb_refl in E; discriminate.
Qed.

Lemma count_snoc f events e :
  count f (events ++ [e]) = (count f events + if f e then 1 else 0)%nat.
Proof.
  unfold count. rewrite List.filter_app, length_app. simpl.
  destruct (f e); reflexivity.
Qed.

Lemma sums_run events :
  let entries := map_to_list (run events) in
  sum totalRequests entries = count isStart events /\
  sum successfulRequests entries = count isSuccess events /\
  sum failedRequests entries = count isFailure events.
Proof.
  induction events as [|e events IH] using rev_ind.
  - unfold run. simpl. rewrite map_to_list_empty. auto.
  - cbv zeta in *. destruct IH as (I1 & I2 & I3).
    rewrite run_events_snoc, !count_snoc.
    destruct (apply_event_insert (run events) e) as (m' & Hm' & ->).
    pose proof (sum_insert_eq totalRequests (run events) (tool_of e) m' eq_refl) as S1.
    pose proof (sum_insert_eq successfulRequests (run events) (tool_of e) m' eq_refl)
      as S2.
    pose proof (sum_insert_eq failedRequests (run events) (tool_of e) m' eq_refl) as S3.
    rewrite apply_event_lookup in Hm'.
    destruct e as [t ?|t ? ?|t ? ?]; simpl in *; rewrite String.eqb_refl in Hm';
      injection Hm' as <-; simpl in *; lia.
Qed.

Lemma run_unmentioned events k :
  Forall (fun e => mentions k e = false) events -> run events !! k = None.
Proof.
  induction events as [|e events IH] using rev_ind; intros Hnone.
  - unfold run. simpl. apply lookup_empty.
  - apply Forall_app in Hnone. destruct Hnone as [Hn He].
    inversion He as [|? ? Hme _]; subst.
    rewrite run_events_snoc, apply_event_lookup.
    assert (Hk : String.eqb k (tool_of e) = false).
    { destruct e; simpl in *; apply String.eqb_neq; apply String.eqb_neq in Hme;
        congruence. }
    destruct e; simpl in Hk; rewrite Hk; now apply IH.
Qed.

(** X26. [getSummary] adds up what the service was told: the starts, the
    successes and the failures of all tools; [successRate] is the number of
    successes divided by the number of starts and multiplied by 100, and 0
    before any request; [tools] lists each tool that was mentioned, once. *)
Theorem getSummary_counts events :
  let s := getSummary (run events) in
  sum_totalRequests s = count isStart events /\
  sum_totalSuccessful s = count isSuccess events /\
  sum_totalFailed s = count isFailure events /\
  successRate s =
    (if (0 <? count isStart events)%nat
     then Mul (Div (Exact (inject_Z (Z.of_nat (count isSuccess events))))
                   (Exact (inject_Z (Z.of_nat (count isStart events)))))
              (Exact 100)
     else Exact 0) /\
  NoDup (tools s) /\
  (forall t, In t (tools s) <-> exists e, In e events /\ tool_of e = t).
Proof.
  intros s. destruct (sums_run events) as (H1 & H2 & H3).
  unfold s, getSummary. cbn [sum_totalRequests sum_totalSuccessful sum_totalFailed
                             successRate tools].
  rewrite H1, H2, H3. split; [reflexivity|]. split; [reflexivity|].
  split; [reflexivity|]. split; [|split].
  - reflexivity.
  - apply NoDup_fst_map_to_list.
  - intros t. split.
    + intros Hin. apply in_map_iff in Hin. destruct Hin as ((k & m) & <- & Hkm).
      apply list_elem_of_In, elem_of_map_to_list in Hkm. simpl.
      pose proof (statistics_run events k) as Hs. rewrite Hkm in Hs.
      destruct (List.existsb (mentions k) events) eqn:Ex.
      * apply List.existsb_exists in Ex. destruct Ex as (e & He & Hm).
        exists e. split; [exact He|]. destruct e; simpl in *;
          now apply String.eqb_eq in Hm.
      * exfalso.
        assert (Hnone : Forall (fun e => mentions k e = false) events).
        { apply List.Forall_forall. intros e He.
          destruct (mentions k e) eqn:Em; [|reflexivity].
          assert (List.existsb (mentions k) events = true)
            by (apply List.existsb_exists; eauto).
          congruence. }
        rewrite (run_unmentioned events k Hnone) in Hkm. discriminate.
    + intros (e & He & <-). apply in_map_iff.
      pose proof (statistics_run events (tool_of e)) as Hs.
      destruct (run events !! tool_of e) as [m|] eqn:Em.
      * exists (tool_of e, m). split; [reflexivity|].
        apply list_elem_of_In, elem_of_map_to_list. exact Em.
      * exfalso. rewrite List.Forall_forall in Hs. specialize (Hs e He).
        destruct e; simpl in Hs; rewrite String.eqb_refl in Hs; discriminate.
Qed.

End MetricsTheory.

(** ** Route enrichment: which pins share a key *)

Module RouteKeys.
Import Route.

Lemma append_cons c a b : (String c a ++ b)%string = String c (a ++ b)%string.
Proof. reflexivity. Qed.

Lemma append_nil b : ("" ++ b)%string = b.
Proof. reflexivity. Qed.

Lemma zeros_S k : zeros (S k) = String "0" (zeros k).
Proof. reflexivity. Qed.

Ltac norm := rewrite ?zeros_S, ?append_cons, ?append_nil; simpl.

Lemma string_of_uint_digits d :
  allDigits (DecimalString.NilEmpty.string_of_uint d) = true.
Proof. induction d; simpl; auto. Qed.

Lemma digits_NilEmpty n :
  digits n = DecimalString.NilEmpty.string_of_uint (N.to_uint (Z.to_N n)).
Proof.
  unfold digits. destruct (N.to_uint (Z.to_N n)) eqn:E; try reflexivity.
  pose proof (DecimalN.Unsigned.of_to (Z.to_N n)) as H. rewrite E in H. simpl in H.
  rewrite <- H in E. discriminate.
Qed.

Lemma zeros_pad k d :
  (zeros k ++ DecimalString.NilEmpty.string_of_uint d)%string =
  DecimalString.NilEmpty.string_of_uint (pad k d).
Proof. induction k as [|k IH]; norm; [reflexivity | now rewrite IH]. Qed.

Lemma of_uint_pad k d : N.of_uint (pad k d) = N.of_uint d.
Proof. induction k as [|k IH]; simpl; [reflexivity | exact IH]. Qed.

Lemma string_of_uint_inj d d' :
  DecimalString.NilEmpty.string_of_uint d = DecimalString.NilEmpty.string_of_uint d' ->
  d = d'.
Proof.
  intros H. apply (f_equal DecimalString.NilEmpty.uint_of_string) in H.
  rewrite !DecimalString.NilEmpty.usu in H. now injection H.
Qed.

Lemma padded_inj j j' n n' :
  (0 <= n)%Z -> (0 <= n')%Z ->
  (zeros j ++ digits n)%string = (zeros j' ++ digits n')%string -> n = n'.
Proof.
  intros Hn Hn' H. rewrite !digits_NilEmpty, !zeros_pad in H.
  apply string_of_uint_inj in H. apply (f_equal N.of_uint) in H.
  rewrite !of_uint_pad, !DecimalN.Unsigned.of_to in H.
  apply Z2N.inj; assumption.
Qed.

Lemma allDigits_app a b : allDigits (a ++ b) = allDigits a && allDigits b.
Proof.
  induction a as [|c a IH]; norm; [reflexivity|]. rewrite IH. apply andb_assoc.
Qed.

Lemma allDigits_zeros k : allDigits (zeros k) = true.
Proof. induction k as [|k IH]; norm; auto. Qed.

Lemma has_char_app c a b : has_char c (a ++ b) = has_char c a || has_char c b.
Proof.
  induction a as [|c' a IH]; norm; [reflexivity|]. rewrite IH. apply orb_assoc.
Qed.

Lemma has_char_digits c s :
  isDigit c = false -> allDigits s = true -> has_char c s = false.
Proof.
  intros Hc. induction s as [|c' s IH]; simpl; [reflexivity|]. intros H.
  apply andb_prop in H. destruct H as [Hd Hs]. rewrite (IH Hs), orb_false_r.
  destruct (Ascii.eqb_spec c c') as [->|]; [congruence | reflexivity].
Qed.

Lemma split_at c a a' b b' :
  has_char c a = false -> has_char c a' = false ->
  (a ++ String c b)%string = (a' ++ String c b')%string -> a = a' /\ b = b'.
Proof.
  revert a'. induction a as [|x a IH]; intros [|x' a']; norm; intros Ha Ha' H.
  - injection H as <-. auto.
  - injection H as <- _. rewrite Ascii.eqb_refl in Ha'. discriminate.
  - injection H as -> _. rewrite Ascii.eqb_refl in Ha. discriminate.
  - injection H as <- H. apply orb_false_elim in Ha, Ha'.
    destruct (IH a' (proj2 Ha) (proj2 Ha') H) as [-> ->]. auto.
Qed.

Lemma substring_all s : String.substring 0 (String.length s) s = s.
Proof. induction s as [|c s IH]; simpl; [reflexivity | now rewrite IH]. Qed.

Lemma substring_split s : forall n, (n <= String.length s)%nat ->
  (String.substring 0 n s ++ String.substring n (String.length s - n) s)%string = s.
Proof.
  induction s as [|c s IH]; intros [|n] H; simpl in *; norm; try reflexivity; try lia.
  - now rewrite substring_all.
  - rewrite IH by lia. reflexivity.
Qed.

Lemma length_substring_0 s : forall n, (n <= String.length s)%nat ->
  String.length (String.substring 0 n s) = n.
Proof.
  induction s as [|c s IH]; intros [|n] H; simpl in *; try reflexivity; try lia.
  rewrite IH by lia. reflexivity.
Qed.

Lemma length_append a b :
  String.length (a ++ b) = (String.length a + String.length b)%nat.
Proof. induction a as [|c a IH]; norm; [reflexivity | now rewrite IH]. Qed.

Lemma length_zeros k : String.length (zeros k) = k.
Proof. induction k as [|k IH]; norm; [reflexivity | now rewrite IH]. Qed.

Lemma scaled_nonneg f x : (0 <= scaled f x)%Z.
Proof.
  unfold scaled. change 0%Z with (Qfloor 0). apply Qfloor_resp_le.
  assert (H1 : (0 <= Qabs x)%Q) by apply Qabs_nonneg.
  assert (H2 : (0 <= inject_Z (10 ^ Z.of_nat f))%Q).
  { change 0%Q with (inject_Z 0). rewrite <- Zle_Qle. apply Z.pow_nonneg. lia. }
  pose proof (Qmult_le_0_compat _ _ H1 H2). lra.
Qed.

(** The shape of [toFixed] with at least one decimal: a sign, then the
    padded digits with the point before the last [f]. *)
Lemma toFixed_shape f x :
  exists a b,
    toFixed (S f) x =
      ((if isNegative x then "-" else "") ++ a ++ String "." b)%string /\
    (a ++ b)%string =
      (zeros (S (S f) - String.length (digits (scaled (S f) x))) ++
       digits (scaled (S f) x))%string /\
    allDigits a = true /\ allDigits b = true /\ a <> ""%string.
Proof.
  unfold toFixed.
  set (m := (zeros (S (S f) - String.length (digits (scaled (S f) x))) ++
             digits (scaled (S f) x))%string).
  assert (Hlen : (S (S f) <= String.length m)%nat).
  { unfold m. rewrite length_append, length_zeros. lia. }
  assert (Hm : allDigits m = true).
  { unfold m. rewrite allDigits_app, allDigits_zeros, digits_NilEmpty.
    apply string_of_uint_digits. }
  exists (String.substring 0 (String.length m - S f) m),
         (String.substring (String.length m - S f) (S f) m).
  assert (Hsplit : (String.substring 0 (String.length m - S f) m ++
                    String.substring (String.length m - S f) (S f) m)%string = m).
  { pose proof (substring_split m (String.length m - S f) ltac:(lia)) as Hs.
    replace (String.length m - (String.length m - S f))%nat with (S f) in Hs by lia.
    exact Hs. }
  split; [reflexivity|]. split; [exact Hsplit|].
  rewrite <- Hsplit, allDigits_app in Hm. apply andb_prop in Hm.
  split; [apply Hm|]. split; [apply Hm|].
  intros E. apply (f_equal String.length) in E.
  rewrite length_substring_0 in E by lia. simpl in E. lia.
Qed.

Lemma toFixed_no_comma f x : has_char "," (toFixed (S f) x) = false.
Proof.
  destruct (toFixed_shape f x) as (a & b & -> & _ & Ha & Hb & _).
  rewrite !has_char_app. norm.
  rewrite (has_char_digits "," a eq_refl Ha), (has_char_digits "," b eq_refl Hb).
  destruct (isNegative x); reflexivity.
Qed.

Lemma toFixed_inj f x y :
  toFixed (S f) x = toFixed (S f) y -> rounded (S f) x = rounded (S f) y.
Proof.
  destruct (toFixed_shape f x) as (a & b & -> & Hab & Ha & Hb & Hne).
  destruct (toFixed_shape f y) as (a' & b' & -> & Hab' & Ha' & Hb' & Hne').
  intros H. unfold rounded.
  assert (Hfirst : forall s, allDigits s = true -> s <> ""%string ->
            exists c r, s = String c r /\ isDigit c = true).
  { intros [|c r] Hs Hn; [congruence|]. simpl in Hs. apply andb_prop in Hs.
    exists c, r. split; [reflexivity | apply Hs]. }
  destruct (Hfirst a Ha Hne) as (c & r & -> & Hc).
  destruct (Hfirst a' Ha' Hne') as (c' & r' & -> & Hc').
  assert (Hsign : isNegative x = isNegative y /\
            (String c r ++ String "." b)%string = (String c' r' ++ String "." b')%string).
  { destruct (isNegative x), (isNegative y);
      rewrite ?append_cons, ?append_nil in H; rewrite ?append_cons, ?append_nil.
    - injection H as H1 H2. split; [reflexivity|]. now rewrite H1, H2.
    - injection H as H1 _. subst c'. discriminate.
    - injection H as H1 _. subst c. discriminate.
    - split; [reflexivity | exact H]. }
  destruct Hsign as [Hs Hrest]. rewrite Hs. f_equal.
  destruct (split_at "." (String c r) (String c' r') b b') as [E1 E2].
  - apply has_char_digits; [reflexivity | exact Ha].
  - apply has_char_digits; [reflexivity | exact Ha'].
  - exact Hrest.
  - rewrite E1, E2, Hab' in Hab.
    eapply padded_inj; [apply scaled_nonneg | apply scaled_nonneg |].
    symmetry. exact Hab.
Qed.

Lemma toFixed_rounded f x y : rounded f x = rounded f y -> toFixed f x = toFixed f y.
Proof.
  unfold rounded, toFixed. intros H. injection H as H1 H2. now rewrite H1, H2.
Qed.

(** X28. Two pins get the same key, and so are merged by the
    deduplication, exactly when their latitudes agree and their longitudes
    agree in what [toFixed(5)] keeps: the sign, and the absolute value
    rounded to five decimals. *)
Theorem key_same_iff_rounded p q :
  key p = key q <->
  rounded 5 (lat (location p)) = rounded 5 (lat (location q)) /\
  rounded 5 (lng (location p)) = rounded 5 (lng (location q)).
Proof.
  unfold key. split.
  - intros H.
    destruct (split_at "," _ _ _ _ (toFixed_no_comma 4 (lat (location p)))
                (toFixed_no_comma 4 (lat (location q))) H) as [H1 H2].
    split; now apply toFixed_inj.
  - intros [H1 H2].
    now rewrite (toFixed_rounded 5 _ _ H1), (toFixed_rounded 5 _ _ H2).
Qed.

(** The sign is part of the key: a pin just south of the equator and one
    just north of it round to the same latitude and are kept apart. *)
Example key_keeps_sign :
  toFixed 5 (-(1 # 1000000)) = "-0.00000" /\ toFixed 5 (1 # 1000000) = "0.00000".
Proof. split; vm_compute; reflexivity. Qed.

End RouteKeys.

(** ** The deduplication of route enrichment and rounding *)

Module RouteDedup.
Import Route.

Lemma key_iff_same_rounded p q : key p = key q <-> same_rounded p q.
Proof.
  unfold key, same_rounded. split.
  - intros H.
    destruct (RouteKeys.split_at "," _ _ _ _
                (RouteKeys.toFixed_no_comma 4 (lat (location p)))
                (RouteKeys.toFixed_no_comma 4 (lat (location q))) H) as [H1 H2].
    split; now apply RouteKeys.toFixed_inj.
  - intros [H1 H2].
    now rewrite (RouteKeys.toFixed_rounded 5 _ _ H1), (RouteKeys.toFixed_rounded 5 _ _ H2).
Qed.

Lemma NoDup_map_lookup {A B} (f : A -> B) (l : list A) :
  NoDup (map f l) ->
  forall i j x y, l !! i = Some x -> l !! j = Some y -> f x = f y -> i = j.
Proof.
  induction l as [|a l IH]; intros Hn i j x y Hi Hj Hf; [discriminate|].
  inversion Hn as [|? ? Hnot Hn']; subst.
  destruct i as [|i], j as [|j]; simpl in *.
  - reflexivity.
  - exfalso. apply Hnot. injection Hi as <-. rewrite Hf.
    apply list_elem_of_In, in_map, list_elem_of_In.
    eapply list_elem_of_lookup_2, Hj.
  - exfalso. apply Hnot. injection Hj as <-. rewrite <- Hf.
    apply list_elem_of_In, in_map, list_elem_of_In.
    eapply list_elem_of_lookup_2, Hi.
  - f_equal. eapply IH; eassumption.
Qed.

(** C4 (amended). [discoverPOIsAlongRoute] merges the per-sample results
    and keeps one pin per key, the key being the two coordinates as
    [toFixed(5)] prints them.  Two pins have the same key exactly when their latitudes and their
    longitudes agree in sign and in absolute value rounded to five decimals.
    The result is a subsequence of the merged list; a pin is kept exactly
    when it occurs with no pin before it that agrees with it in this way; no
    two positions of the result agree in this way; and a POI reported by
    several samples with agreeing coordinates yields a single pin. *)
Theorem discover_deduplicates_rounded routeLength along fetchPOIsNearLocation
    bufferRadius interests results
    (Hall : Promise_all
              (map (fun point => fetchPOIsNearLocation point bufferRadius interests)
                   (sampleLookups routeLength along)) = Some results) :
  let allPins := concat results in
  let pins := discoverPOIsAlongRoute routeLength along fetchPOIsNearLocation
                bufferRadius interests in
  (forall p q, key p = key q <-> same_rounded p q) /\
  sublist pins allPins /\
  (forall q, In q pins <->
     exists l1 l2, allPins = l1 ++ q :: l2 /\
                   forall p, In p l1 -> ~ same_rounded p q) /\
  (forall i j p q, pins !! i = Some p -> pins !! j = Some q ->
     same_rounded p q -> i = j) /\
  (forall p rest, allPins = p :: rest ->
     (forall q, In q rest -> same_rounded q p) -> pins = [p]).
Proof.
  intros allPins pins.
  assert (E : pins = deduplicate allPins).
  { apply RouteTheory.discover_is_deduplicate. exact Hall. }
  rewrite E.
  destruct (RouteTheory.deduplicate_spec allPins) as (Hn & Hs & Hin & Hone).
  split; [apply key_iff_same_rounded|].
  split; [exact Hs|]. split; [|split].
  - intros q. rewrite Hin. unfold first_with_key. split.
    + intros (l1 & l2 & Hl & Hk). exists l1, l2. split; [exact Hl|].
      intros p Hp Hsame. apply (Hk p Hp). now apply key_iff_same_rounded.
    + intros (l1 & l2 & Hl & Hk). exists l1, l2. split; [exact Hl|].
      intros p Hp Hkey. apply (Hk p Hp). now apply key_iff_same_rounded.
  - intros i j p q Hi Hj Hsame.
    apply (NoDup_map_lookup key _ Hn i j p q Hi Hj). now apply key_iff_same_rounded.
  - intros p rest Hl Hrest. apply (Hone p rest Hl).
    intros q Hq. apply key_iff_same_rounded. now apply Hrest.
Qed.

Lemma discover_deduplicates_rounded_witness :
  exists results,
    let allPins := concat results in
    let pins := discoverPOIsAlongRoute 10000 straight oneCafe 500%Q None in
    map id allPins = ["osm_0.04"; "osm_0.05"; "osm_0.06"] /\
    map id pins = ["osm_0.04"] /\
    (forall p q, key p = key q <-> same_rounded p q) /\
    sublist pins allPins /\
    (forall q, In q pins <->
       exists l1 l2, allPins = l1 ++ q :: l2 /\
                     forall p, In p l1 -> ~ same_rounded p q) /\
    (forall i j p q, pins !! i = Some p -> pins !! j = Some q ->
       same_rounded p q -> i = j) /\
    (forall p rest, allPins = p :: rest ->
       (forall q, In q rest -> same_rounded q p) -> pins = [p]).
Proof.
  eexists. intros allPins pins.
  split; [|split; [vm_compute; reflexivity|]].
  2: apply (discover_deduplicates_rounded 10000 straight oneCafe 500%Q None);
       vm_compute; reflexivity.
  vm_compute. reflexivity.
Defined.

(** C4 as stated fails: rounding alone does not decide the key.  On a path
    that starts on the prime meridian the provider reports two cafes whose
    coordinates round to the same numbers, the longitudes to [0] from either
    side; their keys end in [-0.00000] and [0.00000], and the later one is
    not discarded. *)
Lemma discover_rounded_counterexample :
  let pins := discoverPOIsAlongRoute 10000 straight acrossMeridian 500%Q None in
  pins = [west; east] /\
  same_roundedValue west east /\
  key west = "51.50000,-0.00000"%string /\
  key east = "51.50000,0.00000"%string /\
  ~ (forall results l1 q l2,
       Promise_all (map (fun point => acrossMeridian point 500%Q None)
                        (sampleLookups 10000 straight)) = Some results ->
       concat results = l1 ++ q :: l2 ->
       (exists p, In p l1 /\ same_roundedValue p q) ->
       ~ In q pins).
Proof.
  intros pins.
  assert (Hpins : pins = [west; east]) by (vm_compute; reflexivity).
  assert (Hsame : same_roundedValue west east) by (split; vm_compute; reflexivity).
  split; [exact Hpins|]. split; [exact Hsame|].
  split; [vm_compute; reflexivity|]. split; [vm_compute; reflexivity|].
  intros H.
  refine (H _ [west] east [] eq_refl _ _ _).
  - vm_compute. reflexivity.
  - exists west. split; [now left | exact Hsame].
  - rewrite Hpins. right. now left.
Qed.

End RouteDedup.

(** ** OpenStreetMap lookups *)

Module OSMTheory.
Import OSM.

Lemma tag_nonempty t k v : tag t k = Some v -> v <> ""%string.
Proof.
  unfold tag. destruct (t !! k) as [x|]; [|discriminate].
  destruct (String.eqb_spec x ""); [discriminate|]. intros H. now injection H as <-.
Qed.

Lemma generateDescription_nonempty t : generateDescription t <> ""%string.
Proof.
  unfold generateDescription. cbv zeta.
  match goal with |- context [String.eqb ?j ""] => destruct (String.eqb_spec j "") end;
    [discriminate | assumption].
Qed.

Lemma convertElementToGeoPin_Some newId element p :
  convertElementToGeoPin newId element = Some p ->
  wellFormed p /\ id p = newId /\
  exists t, tags element = Some t /\ tag t "name" = Some (name (data p)) /\
            type p = determinePinType t.
Proof.
  unfold convertElementToGeoPin.
  destruct (tags element) as [t|]; [|discriminate].
  destruct (tag t "name") as [nm|] eqn:En; [|discriminate].
  match goal with
  | |- context [Qeq_bool (lat ?l) 0 && Qeq_bool (lng ?l) 0] =>
      set (loc := l); destruct (Qeq_bool (lat loc) 0 && Qeq_bool (lng loc) 0) eqn:Ez
  end; [discriminate|].
  intros H. injection H as <-. simpl. split.
  - unfold wellFormed. simpl. split; [eapply tag_nonempty; exact En|].
    split; [apply generateDescription_nonempty|]. split; [reflexivity|].
    intros [H1 H2]. apply Qeq_bool_iff in H1, H2. rewrite H1, H2 in Ez. discriminate.
  - split; [reflexivity|]. exists t. auto.
Qed.

Section Fetch.
Variable overpass : nat -> option (list OverpassElement) * Z.
Variable generateId : nat -> nat -> string.
Variable show : Q -> string.

#[local] Abbreviation convertFrom := (OSM.convertFrom generateId).
#[local] Abbreviation Pins := (list GeoPin).

Lemma convertFrom_wellFormed n elements : forall i,
  Forall wellFormed (convertFrom n i elements) /\
  (length (convertFrom n i elements) <= length elements)%nat.
Proof.
  induction elements as [|e elements IH]; intros i; simpl; [split; [constructor | lia]|].
  destruct (IH (S i)) as [IH1 IH2].
  destruct (convertElementToGeoPin (generateId n i) e) as [p|] eqn:E.
  - split; [|simpl; lia]. constructor; [|exact IH1].
    now apply convertElementToGeoPin_Some in E.
  - split; [exact IH1 | lia].
Qed.

Lemma convertFrom_keeps n elements : forall i e t nm,
  In e elements -> tags e = Some t -> tag t "name" = Some nm ->
  el_type e = node -> ~ (el_lat e == 0 /\ el_lon e == 0)%Q ->
  exists p, In p (convertFrom n i elements) /\
            name (data p) = nm /\
            location p = mkLocation (el_lat e) (el_lon e) /\
            type p = determinePinType t.
Proof.
  induction elements as [|x elements IH]; intros i e t nm Hin Ht Hn Hty Hz;
    [destruct Hin|].
  simpl. destruct Hin as [->|Hin].
  - unfold convertElementToGeoPin. rewrite Ht, Hn, Hty. simpl.
    destruct (Qeq_bool (el_lat e) 0 && Qeq_bool (el_lon e) 0) eqn:Ez.
    + exfalso. apply Hz. apply andb_prop in Ez. destruct Ez as [E1 E2].
      split; now apply Qeq_bool_iff.
    + eexists. split; [left; reflexivity|]. simpl. auto.
  - destruct (IH (S i) e t nm Hin Ht Hn Hty Hz) as (p & Hp & H).
    exists p. split; [|exact H].
    destruct (convertElementToGeoPin (generateId n i) x); [right|]; exact Hp.
Qed.

Lemma get_miss (cacheEnabled : bool) now key (s : Cache.CacheService Pins) :
  Cache.store Pins (Cache.cache Pins s) !! key = None ->
  fst (Cache.get Pins cacheEnabled now key s) = None /\
  Cache.stdTTL Pins (Cache.cache Pins (snd (Cache.get Pins cacheEnabled now key s))) =
    Cache.stdTTL Pins (Cache.cache Pins s).
Proof.
  intros H. unfold Cache.get, Cache.nc_get. rewrite H.
  destruct cacheEnabled; simpl; auto.
Qed.

(** X29. A lookup that is not in the cache and that Overpass answers: the
    pins returned are made from the elements of the answer, at most one
    each; every pin has a name and a description that are not empty, the
    radius 50, and does not lie at latitude 0, longitude 0; and every node
    with a name that does not lie there is among them, with its name, its
    position and the type its tags determine. *)
Theorem fetchPOIsNearLocation_pins cacheEnabled loc radiusMeters interests
    s w elements latency
    (Hmiss : Cache.store Pins (Cache.cache Pins s)
               !! cacheKey show loc radiusMeters interests = None)
    (Hanswer : overpass (Cache.calls w) = (Some elements, latency)) :
  exists pins,
    fst (fetchPOIsNearLocation overpass generateId show cacheEnabled
           loc radiusMeters interests (s, w))
      = Cache.Resolved (Some pins) /\
    Forall wellFormed pins /\
    (length pins <= length elements)%nat /\
    (forall e t nm,
       In e elements -> tags e = Some t -> tag t "name" = Some nm ->
       el_type e = node -> ~ (el_lat e == 0 /\ el_lon e == 0)%Q ->
       exists p, In p pins /\ name (data p) = nm /\
                 location p = mkLocation (el_lat e) (el_lon e) /\
                 type p = determinePinType t).
Proof.
  exists (convertFrom (Cache.calls w) 0 elements).
  destruct (convertFrom_wellFormed (Cache.calls w) elements 0) as [H1 H2].
  split; [|split; [exact H1|split; [exact H2|]]].
  - unfold fetchPOIsNearLocation, Cache.wrap.
    destruct (get_miss cacheEnabled (Cache.now w)
                (cacheKey show loc radiusMeters interests) s Hmiss) as [Hg _].
    destruct (Cache.get Pins cacheEnabled (Cache.now w)
                (cacheKey show loc radiusMeters interests) s) as [cached s1].
    simpl in Hg. subst cached. unfold lookup. rewrite Hanswer. reflexivity.
  - intros e t nm. apply convertFrom_keeps.
Qed.

(** X30. A lookup that is not in the cache and on which the request to
    Overpass fails is answered with no pins, and that answer is cached like
    any other: a second lookup of the same place, radius and interests
    within the default TTL is answered with no pins as well, and Overpass is
    not asked again. *)
Theorem fetchPOIsNearLocation_failure_cached loc radiusMeters interests
    s w latency dt
    (Hmiss : Cache.store Pins (Cache.cache Pins s)
               !! cacheKey show loc radiusMeters interests = None)
    (Hfails : overpass (Cache.calls w) = (None, latency))
    (Hdt : (0 <= dt)%Z)
    (Hstd : Cache.within_ttl (Cache.stdTTL Pins (Cache.cache Pins s)) dt) :
  let fetch := fetchPOIsNearLocation overpass generateId show true
                 loc radiusMeters interests in
  let first := fetch (s, w) in
  let second := fetch (Cache.later Pins dt (snd first)) in
  fst first = Cache.Resolved (Some []) /\
  fst second = Cache.Resolved (Some []) /\
  Cache.calls (snd (snd second)) = S (Cache.calls w).
Proof.
  cbv zeta. unfold fetchPOIsNearLocation.
  set (key := cacheKey show loc radiusMeters interests) in *.
  set (s1 := snd (Cache.get Pins true (Cache.now w) key s)).
  assert (Hfirst :
    Cache.wrap Pins true key (lookup overpass generateId) None (s, w) =
    (Cache.Resolved (Some []),
     (snd (Cache.set Pins true (Cache.now w + latency) key (Some []) None s1),
      Cache.mkWorld (Cache.now w + latency) (S (Cache.calls w))))).
  { unfold Cache.wrap, s1.
    destruct (get_miss true (Cache.now w) key s Hmiss) as [Hg _].
    destruct (Cache.get Pins true (Cache.now w) key s) as [cached s0].
    simpl in Hg. subst cached. unfold lookup. rewrite Hfails. reflexivity. }
  rewrite Hfirst. cbn [fst snd]. split; [reflexivity|].
  unfold Cache.later, Cache.wrap. cbn [fst snd Cache.now Cache.calls].
  assert (Httl : Cache.within_ttl
                   (Cache.effectiveTTL Pins None (Cache.cache Pins s1)) dt).
  { unfold Cache.effectiveTTL, s1.
    rewrite (proj2 (get_miss true (Cache.now w) key s Hmiss)). exact Hstd. }
  pose proof (CacheTheory.get_after_set Pins (Cache.now w + latency) dt key []
                None s1 Hdt Httl) as H.
  destruct (Cache.get Pins true (Cache.now w + latency + dt) key
              (snd (Cache.set Pins true (Cache.now w + latency) key (Some []) None s1)))
    as [c2 s2].
  simpl in H. subst c2. simpl. auto.
Qed.

End Fetch.

Lemma fetchPOIsNearLocation_pins_witness :
  let cafe := mkElement node 48 2 None (Some {["name" := "Cafe"; "amenity" := "cafe"]}) in
  let unnamed := mkElement node 48 3 None (Some {["amenity" := "cafe"]}) in
  exists pins,
    fst (fetchPOIsNearLocation (fun _ => (Some [cafe; unnamed], 100%Z))
           (fun _ _ => "osm_1") (fun _ => "n") true (mkLocation 48 2) 500 None
           (Cache.fresh (list GeoPin), Cache.mkWorld 0 0))
      = Cache.Resolved (Some pins) /\
    Forall wellFormed pins /\ (length pins <= 2)%nat.
Proof.
  destruct (fetchPOIsNearLocation_pins
              (fun _ => (Some [mkElement node 48 2 None
                                 (Some {["name" := "Cafe"; "amenity" := "cafe"]});
                               mkElement node 48 3 None
                                 (Some {["amenity" := "cafe"]})], 100%Z))
              (fun _ _ => "osm_1") (fun _ => "n") true (mkLocation 48 2) 500 None
              (Cache.fresh (list GeoPin)) (Cache.mkWorld 0 0) _ 100%Z
              eq_refl eq_refl) as (pins & H1 & H2 & H3 & _).
  exists pins. auto.
Defined.

Lemma fetchPOIsNearLocation_failure_cached_witness :
  let overpass := fun n : nat =>
    match n with
    | O => (None, 25000%Z)
    | _ => (Some [mkElement node 48 2 None (Some {["name" := "Cafe"]})], 100%Z)
    end in
  let fetch := fetchPOIsNearLocation overpass (fun _ _ => "osm_1") (fun _ => "n") true
                 (mkLocation 48 2) 500 None in
  let first := fetch (Cache.fresh (list GeoPin), Cache.mkWorld 0 0) in
  let second := fetch (Cache.later (list GeoPin) 60000 (snd first)) in
  fst first = Cache.Resolved (Some []) /\
  fst second = Cache.Resolved (Some []) /\
  Cache.calls (snd (snd second)) = 1%nat.
Proof.
  apply (fetchPOIsNearLocation_failure_cached
           (fun n : nat =>
              match n with
              | O => (None, 25000%Z)
              | _ => (Some [mkElement node 48 2 None (Some {["name" := "Cafe"]})], 100%Z)
              end)
           (fun _ _ => "osm_1") (fun _ => "n") (mkLocation 48 2) 500 None
           (Cache.fresh (list GeoPin)) (Cache.mkWorld 0 0) 25000%Z 60000%Z).
  - reflexivity.
  - reflexivity.
  - lia.
  - right. simpl. lia.
Defined.

End OSMTheory.
